(** * mcp-files: a shallow embedding of the filesystem MCP server

    The server exposes three read-only tools over a base directory:
    [read_file_structure] (filetree.go), [read_file_contents] and
    [grep_search] (main.go).  This development embeds the Go code of the
    three handlers and of their helpers, together with the parts of the Go
    standard library they call ([strings], [unicode/utf8], [strconv],
    [bufio], [path/filepath] on Unix), and proves the properties the
    specification states about them (the theorems marked C1, C2, ...),
    then further properties of the handlers, of the configuration
    ([validateConfig], [loadConfig]) and of the way the tools compose
    (the theorems marked X1, X2, ...).

    Go strings are byte sequences: they are modelled as [list ascii], an
    [ascii] being one byte.  String literals are written ["..."] and are
    read as byte lists through a coercion. *)

From Stdlib Require Import ZArith NArith Ascii String DecimalString Lia.
From Stdlib Require DecimalPos.
From stdpp Require Import base gmap strings list fin_maps.

Set Warnings "-register-all".

Abbreviation str := (list ascii).

Coercion list_ascii_of_string : string >-> list.

Definition byteval (c : ascii) : N := N_of_ascii c.

(** ** Package [strings] *)
Module GoStrings.

(** [strings.HasPrefix(s, prefix)] *)
Fixpoint HasPrefix (s prefix : str) {struct prefix} : bool :=
  match prefix, s with
  | [], _ => true
  | p :: prefix', c :: s' => Ascii.eqb c p && HasPrefix s' prefix'
  | _ :: _, [] => false
  end.

(** [strings.HasSuffix(s, suffix)] *)
Definition HasSuffix (s suffix : str) : bool :=
  HasPrefix (reverse s) (reverse suffix).

(** [strings.TrimSuffix(s, suffix)]: [s] without the trailing [suffix],
    or [s] itself when it does not end with it. *)
Definition TrimSuffix (s suffix : str) : str :=
  if HasSuffix s suffix then take (length s - length suffix) s else s.

(** [strings.Contains(s, substr)]: [substr] occurs at some offset. *)
Fixpoint Contains (s substr : str) : bool :=
  HasPrefix s substr ||
  match s with
  | [] => false
  | _ :: s' => Contains s' substr
  end.

(** [strings.Split(s, sep)] for a one-byte separator (the code only
    splits on a newline and on a slash).  The result is never empty:
    splitting the empty string gives one empty field. *)
Fixpoint Split (s : str) (sep : ascii) : list str :=
  match s with
  | [] => [[]]
  | c :: s' =>
      if Ascii.eqb c sep then [] :: Split s' sep
      else match Split s' sep with
           | f :: fs => (c :: f) :: fs
           | [] => [[c]]
           end
  end.

(** [strings.Join(elems, sep)] *)
Fixpoint Join (elems : list str) (sep : str) : str :=
  match elems with
  | [] => []
  | [e] => e
  | e :: rest => e ++ sep ++ Join rest sep
  end.

(** [strings.Count(s, sep)] for a one-byte separator. *)
Definition Count (s : str) (sep : ascii) : nat :=
  length (filter (λ c, c = sep) s).

End GoStrings.

(** ** Packages [unicode/utf8] and [unicode], and [strings.TrimSpace] *)
Module GoUtf8.

Local Open Scope N_scope.

Definition RuneError : N := 0xFFFD.
Definition RuneSelf : N := 0x80.

(** The table [first] of utf8.go with [acceptRanges]: for a leading byte,
    the length of the sequence and the range its second byte must lie
    in; [None] for a byte that starts no sequence. *)
Definition first (b : N) : option (nat * N * N) :=
  if (0xC2 <=? b) && (b <=? 0xDF) then Some (2%nat, 0x80, 0xBF)
  else if b =? 0xE0 then Some (3%nat, 0xA0, 0xBF)
  else if (0xE1 <=? b) && (b <=? 0xEC) then Some (3%nat, 0x80, 0xBF)
  else if b =? 0xED then Some (3%nat, 0x80, 0x9F)
  else if (0xEE <=? b) && (b <=? 0xEF) then Some (3%nat, 0x80, 0xBF)
  else if b =? 0xF0 then Some (4%nat, 0x90, 0xBF)
  else if (0xF1 <=? b) && (b <=? 0xF3) then Some (4%nat, 0x80, 0xBF)
  else if b =? 0xF4 then Some (4%nat, 0x80, 0x8F)
  else None.

Definition cont (b : N) : bool := (0x80 <=? b) && (b <=? 0xBF).

(** [utf8.DecodeRuneInString]: the first rune of [s] and its width in
    bytes; an invalid or truncated sequence decodes as [RuneError] of
    width 1, the empty string as [RuneError] of width 0. *)
Definition DecodeRuneInString (s : str) : N * nat :=
  match s with
  | [] => (RuneError, 0%nat)
  | c0 :: rest =>
      let s0 := byteval c0 in
      if s0 <? RuneSelf then (s0, 1%nat)
      else
        match first s0 with
        | None => (RuneError, 1%nat)
        | Some (sz, lo, hi) =>
            if (length s <? sz)%nat then (RuneError, 1%nat)
            else
              match rest with
              | [] => (RuneError, 1%nat)
              | c1 :: rest1 =>
                  let s1 := byteval c1 in
                  if (s1 <? lo) || (hi <? s1) then (RuneError, 1%nat)
                  else if (sz <=? 2)%nat then
                    (N.lor (N.shiftl (N.land s0 0x1F) 6) (N.land s1 0x3F), 2%nat)
                  else
                    match rest1 with
                    | [] => (RuneError, 1%nat)
                    | c2 :: rest2 =>
                        let s2 := byteval c2 in
                        if negb (cont s2) then (RuneError, 1%nat)
                        else if (sz <=? 3)%nat then
                          (N.lor (N.shiftl (N.land s0 0x0F) 12)
                             (N.lor (N.shiftl (N.land s1 0x3F) 6)
                                (N.land s2 0x3F)), 3%nat)
                        else
                          match rest2 with
                          | [] => (RuneError, 1%nat)
                          | c3 :: _ =>
                              let s3 := byteval c3 in
                              if negb (cont s3) then (RuneError, 1%nat)
                              else
                                (N.lor (N.shiftl (N.land s0 0x07) 18)
                                   (N.lor (N.shiftl (N.land s1 0x3F) 12)
                                      (N.lor (N.shiftl (N.land s2 0x3F) 6)
                                         (N.land s3 0x3F))), 4%nat)
                          end
                    end
              end
        end
  end.

(** [utf8.RuneStart]: the byte is not a continuation byte. *)
Definition RuneStart (b : N) : bool := negb (N.land b 0xC0 =? 0x80).

(** The backward search of [utf8.DecodeLastRuneInString]: starting one
    byte before the last, go back to the first byte that can start a
    rune, at most [UTFMax = 4] bytes from the end. *)
Definition last_rune_start (s : str) : nat :=
  let e := length s in
  let starts (k : nat) : bool :=
    (k <=? e)%nat &&
    match s !! (e - k)%nat with
    | Some c => RuneStart (byteval c)
    | None => false
    end in
  if starts 2%nat then (e - 2)%nat
  else if starts 3%nat then (e - 3)%nat
  else if starts 4%nat then (e - 4)%nat
  else (e - 5)%nat.

(** [utf8.DecodeLastRuneInString] *)
Definition DecodeLastRuneInString (s : str) : N * nat :=
  match last s with
  | None => (RuneError, 0%nat)
  | Some c =>
      if byteval c <? RuneSelf then (byteval c, 1%nat)
      else
        let start := last_rune_start s in
        let '(r, size) := DecodeRuneInString (drop start s) in
        if (start + size =? length s)%nat then (r, size) else (RuneError, 1%nat)
  end.

(** [unicode.IsSpace] *)
Definition IsSpace (r : N) : bool :=
  if r <=? 0xFF then
    ((0x09 <=? r) && (r <=? 0x0D)) || (r =? 0x20) || (r =? 0x85) || (r =? 0xA0)
  else
    (r =? 0x1680) || ((0x2000 <=? r) && (r <=? 0x200A)) ||
    (r =? 0x2028) || (r =? 0x2029) || (r =? 0x202F) || (r =? 0x205F) ||
    (r =? 0x3000).

(** The table [asciiSpace] of strings.go. *)
Definition asciiSpace (c : ascii) : bool :=
  let b := byteval c in ((0x09 <=? b) && (b <=? 0x0D)) || (b =? 0x20).

(** [strings.TrimLeftFunc(s, unicode.IsSpace)]: [skip] counts the bytes
    of the current rune still to be passed over. *)
Fixpoint TrimLeftSpace (skip : nat) (s : str) : str :=
  match s with
  | [] => []
  | _ :: s' =>
      match skip with
      | S k => TrimLeftSpace k s'
      | O =>
          let '(r, size) := DecodeRuneInString s in
          if IsSpace r then TrimLeftSpace (size - 1)%nat s' else s
      end
  end.

(** [lastIndexFunc(s, unicode.IsSpace, false)] of strings.go, started at
    the end [i]: the offset of the last rune that is not a space.  Each
    turn goes back by at least one byte, so [i] units of [fuel] are enough
    ([lastIndexNotSpace_fuel] below). *)
Fixpoint lastIndexNotSpace (fuel : nat) (s : str) (i : nat) : option nat :=
  match fuel with
  | O => None
  | S fuel' =>
      if (i =? 0)%nat then None
      else
        let '(r, size) := DecodeLastRuneInString (take i s) in
        if IsSpace r then lastIndexNotSpace fuel' s (i - size)%nat
        else Some (i - size)%nat
  end.

(** [strings.TrimRightFunc(s, unicode.IsSpace)] *)
Definition TrimRightSpace (s : str) : str :=
  match lastIndexNotSpace (length s) s (length s) with
  | None => []
  | Some i =>
      match s !! i with
      | Some c =>
          if RuneSelf <=? byteval c
          then take (i + snd (DecodeRuneInString (drop i s)))%nat s
          else take (i + 1)%nat s
      | None => take (i + 1)%nat s
      end
  end.

(** The second loop of [strings.TrimSpace], on the reversed string:
    ASCII spaces are dropped from the end; at a byte that is not ASCII
    the rest is handed to [TrimRightFunc]. *)
Fixpoint trim_right_ascii (rs : str) : str :=
  match rs with
  | [] => []
  | c :: rs' =>
      if RuneSelf <=? byteval c then TrimRightSpace (reverse rs)
      else if asciiSpace c then trim_right_ascii rs'
      else reverse rs
  end.

(** [strings.TrimSpace]: the first loop passes over leading ASCII spaces
    and, at a byte that is not ASCII, hands the rest to [TrimFunc]. *)
Fixpoint TrimSpace (s : str) : str :=
  match s with
  | [] => []
  | c :: s' =>
      if RuneSelf <=? byteval c then TrimRightSpace (TrimLeftSpace 0%nat s)
      else if asciiSpace c then TrimSpace s'
      else trim_right_ascii (reverse s)
  end.

End GoUtf8.

(** ** Package [strconv] *)
Module GoStrconv.

Local Open Scope Z_scope.

Definition is_digit (c : ascii) : bool :=
  ((48 <=? byteval c) && (byteval c <=? 57))%N.

Fixpoint parse_digits (acc : Z) (s : str) : option Z :=
  match s with
  | [] => Some acc
  | c :: s' =>
      if is_digit c
      then parse_digits (10 * acc + (Z.of_N (byteval c) - 48)) s'
      else None
  end.

(** [strconv.Atoi] where [int] has 64 bits: an optional sign and at
    least one decimal digit; a value outside the range of [int] is an
    error. *)
Definition Atoi (s : str) : option Z :=
  let '(neg, ds) :=
    match s with
    | c :: r =>
        if Ascii.eqb c "-" then (true, r)
        else if Ascii.eqb c "+" then (false, r)
        else (false, s)
    | [] => (false, s)
    end in
  match ds with
  | [] => None
  | _ :: _ =>
      match parse_digits 0 ds with
      | None => None
      | Some v =>
          let v' := if neg : bool then - v else v in
          if (- 2 ^ 63 <=? v') && (v' <=? 2 ^ 63 - 1) then Some v' else None
      end
  end.

(** [strconv.Itoa] *)
Definition Itoa (i : Z) : str :=
  list_ascii_of_string (NilZero.string_of_int (Z.to_int i)).

End GoStrconv.

(** ** Package [bufio]: a [Scanner] with the default split function *)
Module GoBufio.

(** [bufio.MaxScanTokenSize] *)
Definition MaxScanTokenSize : Z := 64 * 1024.

(** [dropCR] of scan.go: one trailing carriage return is removed. *)
Definition dropCR (data : str) : str :=
  match last data with
  | Some c => if Ascii.eqb c "013" then take (length data - 1) data else data
  | None => data
  end.

Definition fits (line : str) : bool :=
  (Z.of_nat (length line) <? MaxScanTokenSize)%Z.

(** The tokens a [Scanner] over [ScanLines] yields for the newline
    separated [fields] of its input: the field after the last newline is
    a token only when it is not empty, and scanning stops for good at the
    first line that, with its newline, does not fit the buffer of
    [MaxScanTokenSize] bytes ([Scan] then returns false, with
    [ErrTooLong], which the caller does not look at). *)
Fixpoint scan_fields (fields : list str) : list str :=
  match fields with
  | [] => []
  | [tail] =>
      match tail with
      | [] => []
      | _ :: _ => if fits tail then [dropCR tail] else []
      end
  | line :: rest => if fits line then dropCR line :: scan_fields rest else []
  end.

(** The successive values of [scanner.Text()] in
    [for scanner.Scan() { ... }] over a file of content [data]. *)
Definition ScanLines (data : str) : list str :=
  scan_fields (GoStrings.Split data "010").

End GoBufio.

(** ** Package [path/filepath], on Unix *)
Module GoFilepath.

Import GoStrings.

Definition Separator : ascii := "/".

(** One path element read by the loop of [Clean], which works element by
    element on the bytes of the path.  The elements kept so far are [out],
    the last one first.  An empty element and [.] are passed over; [..]
    removes the last element kept when there is one that is not itself
    [..] (the index [dotdot] of the Go code marks where backtracking must
    stop), is dropped at the root of a rooted path, and is kept otherwise;
    any other element is kept. *)
Definition clean_step (rooted : bool) (out : list str) (elem : str) : list str :=
  if decide (elem = []) then out
  else if decide (elem = ".") then out
  else if decide (elem = "..") then
    match out with
    | top :: out' => if decide (top = "..") then elem :: out else out'
    | [] => if rooted then [] else [elem]
    end
  else elem :: out.

Definition clean_elems (rooted : bool) (path : str) : list str :=
  reverse (foldl (clean_step rooted) [] (Split path Separator)).

(** The cleaned path made of the elements [elems]. *)
Definition render (rooted : bool) (elems : list str) : str :=
  match elems with
  | [] => if rooted then "/" else "."
  | _ :: _ => (if rooted then "/" else []) ++ Join elems "/"
  end.

(** [filepath.Clean]: the shortest path equivalent to [path] by purely
    lexical processing. *)
Definition Clean (path : str) : str :=
  match path with
  | [] => "."
  | c :: _ =>
      let rooted := Ascii.eqb c Separator in
      render rooted (clean_elems rooted path)
  end.

(** [filepath.Join]: the elements from the first non-empty one on are
    joined with slashes and the result is cleaned; the empty string when
    every element is empty. *)
Fixpoint Join (elem : list str) : str :=
  match elem with
  | [] => []
  | e :: rest =>
      match e with
      | [] => Join rest
      | _ :: _ => Clean (GoStrings.Join elem "/")
      end
  end.

(** The path element at the front of [s] and what follows its
    separator. *)
Fixpoint cut (s : str) : str * str :=
  match s with
  | [] => ([], [])
  | c :: s' =>
      if Ascii.eqb c Separator then ([], s')
      else let '(w, r) := cut s' in (c :: w, r)
  end.

(** The loop of [Rel] that positions [base[b0:bi]] and [targ[t0:ti]] at
    the first differing elements.  [b] and [t] are [base[b0:]] and
    [targ[t0:]]; the result is what is left of both and the element
    [base[b0:bi]] the loop stopped at.  Each turn takes at least one byte
    of [b], so one unit of [fuel] for each byte of the base and one more
    is enough ([rel_scan_fuel] below). *)
Fixpoint rel_scan (fuel : nat) (b t : str) : str * str * str :=
  match fuel with
  | O => (b, t, [])
  | S fuel' =>
      match b, t with
      | [], _ | _, [] => (b, t, [])
      | _ :: _, _ :: _ =>
          let '(bw, b') := cut b in
          let '(tw, t') := cut t in
          if decide (tw = bw) then rel_scan fuel' b' t' else (b, t, bw)
      end
  end.

(** The end of [Rel], after the loop: [b] and [t] are what is left of
    [base] and [targ], and [bw] is the element [base[b0:bi]]. *)
Definition rel_finish (b t bw : str) : option str :=
  if decide (bw = "..") then None
  else
    match b with
    | _ :: _ =>
        (* Base elements left. Must go up before going down. *)
        let seps := Count b Separator in
        Some (".." ++ concat (replicate seps (list_ascii_of_string "/.."))
                ++ match t with [] => [] | _ :: _ => "/" ++ t end)
    | [] => Some t
    end.

(** [filepath.Rel]: a relative path that is lexically equivalent to
    [targpath] when joined to [basepath]; [None] is the error "Rel: can't
    make targpath relative to basepath". *)
Definition Rel (basepath targpath : str) : option str :=
  let base := Clean basepath in
  let targ := Clean targpath in
  if decide (targ = base) then Some (list_ascii_of_string ".")
  else
    let base := if decide (base = ".") then [] else base in
    let baseSlashed := HasPrefix base "/" in
    let targSlashed := HasPrefix targ "/" in
    if negb (Bool.eqb baseSlashed targSlashed) then None
    else
      let '(b, t, bw) := rel_scan (S (length base)) base targ in
      rel_finish b t bw.

(** The first loop of [Base], on the reversed path: trailing slashes are
    stripped. *)
Fixpoint strip_slashes (rpath : str) : str :=
  match rpath with
  | [] => []
  | c :: rpath' => if Ascii.eqb c Separator then strip_slashes rpath' else rpath
  end.

(** [filepath.Base]: the last element of [path], trailing slashes
    removed first; [.] for the empty path and [/] for a path of slashes
    only. *)
Definition Base (path : str) : str :=
  match path with
  | [] => "."
  | _ :: _ =>
      let path := reverse (strip_slashes (reverse path)) in
      match last (Split path Separator) with
      | Some ((_ :: _) as e) => e
      | _ => "/"
      end
  end.

End GoFilepath.

Import GoStrings GoUtf8 GoStrconv GoBufio GoFilepath.

(** ** The data model of main.go *)

(** [Config] holds server configuration. *)
Record Config := {
  Port : str;
  BasePath : str;
  MaxFileSize : Z;
}.

(** [GrepQuery] represents a single grep search query; the two optional
    fields are pointers in the Go code. *)
Record GrepQuery := {
  Pattern : str;
  FilePattern : option str;
  IgnoreCase : option bool;
}.

(** [FileNode] represents a file or directory in the tree structure.
    [Type_] is ["file"] or ["directory"]; [Size] is a pointer, [None] when
    it is nil. *)
Inductive FileNode := mkFileNode {
  Name : str;
  Type_ : str;
  Size : option Z;
  Children : list FileNode;
  Path : str;
}.

(** [GrepLine] represents a line in grep results. *)
Record GrepLine := {
  LineNumber : Z;
  Content : str;
  IsMatch : bool;
}.

(** [GrepMatchResult] represents a single file match. *)
Record GrepMatchResult := {
  FilePath : str;
  Lines : list GrepLine;
}.

(** [GrepResult] represents a grep search result.  A nil [Matches] slice
    and an empty one are both the empty list. *)
Record GrepResult := {
  Query : str;
  Matches : list GrepMatchResult;
  Error : option str;
}.

(** A Go function returning [(T, error)]. *)
Inductive result (E A : Type) :=
| Ok (a : A)
| Err (e : E).
Arguments Ok {E A} a.
Arguments Err {E A} e.

(** The two errors of [validateFilePath]: "path traversal not allowed" and
    "path outside of allowed directory". *)
Inductive PathError :=
| ErrPathTraversal
| ErrOutsideBase.

(** The error results of the tool handlers, one constructor per message
    built with [mcp.NewToolResultError]:
    - "Missing required parameter: ..."
    - "Invalid file path: " followed by the error of [validateFilePath]
    - "File not found: ..."
    - "File too large (%.2f MB > %.2f MB)", formatted from the size of the
      file and from the configured maximum, both carried here as they are
    - "Failed to read file: ..."
    - "queries parameter must be a JSON string"
    - "Invalid queries JSON: ..."
    - "At least one search query is required"
    - "Maximum 20 search queries allowed"
    - "Failed to read file structure: ..." *)
Inductive ToolError :=
| MissingParameter
| InvalidFilePath (e : PathError)
| FileNotFound
| FileTooLarge (size max : Z)
| FailedToReadFile
| QueriesNotString
| InvalidQueriesJSON
| NoQueries
| TooManyQueries
| FailedToReadStructure.

(** The value a successful handler hands to [json.Marshal]; a nil
    [structure] is [None]. *)
Inductive ToolPayload :=
| StructurePayload (base_path : str) (structure : option FileNode) (note : str)
| ContentsPayload (file_path : str) (size_bytes : Z) (content : str)
| SearchPayload (base_path : str) (context_lines : Z) (results : list GrepResult).

Inductive CallToolResult :=
| NewToolResultText (payload : ToolPayload)
| NewToolResultError (e : ToolError).

(** A value of the argument map of a tool call, [map[string]any] decoded
    from JSON.  A number is a [float64] in Go; the handlers only convert
    it with [int(cl)], and [ANumber] carries that integer. *)
Inductive ArgValue :=
| ANull
| AString (s : str)
| ANumber (truncated : Z)
| AOther.

(** ** The operating system *)

(** How [exec.Command("grep", args...).Output()] ends: the process exits
    with status 0, it exits with another status (an [*exec.ExitError]; the
    code is -1 when a signal ended it), or it could not be run at all.
    [msg] is the text of the Go error. *)
Inductive CmdOutcome :=
| Exited0 (stdout : str)
| ExitError (code : Z) (stdout : str) (msg : str)
| StartError (msg : str).

(** What the handlers of main.go ask of the operating system and of the Go
    runtime: [os.Stat] (the size, [None] on error), [os.ReadFile], the
    outcome of running grep with some arguments, and the order in which a
    [range] loop visits the entries of a map, which Go leaves
    unspecified. *)
Record Env := {
  stat : str → option Z;
  readFile : str → option str;
  runGrep : list str → CmdOutcome;
  rangeOrder : gmap str (list GrepLine) → list (str * list GrepLine);
}.

(** Every order is allowed, as long as each entry is visited once. *)
Definition range_permutes (env : Env) : Prop :=
  ∀ m, rangeOrder env m ≡ₚ map_to_list m.

(** The calls that reach outside the process, in the order they are
    made. *)
Inductive Event :=
| EvStat (path : str)
| EvReadFile (path : str)
| EvExec (name : str) (args : list str).

(** A computation that returns a value and the trace of its calls. *)
Definition IO (A : Type) : Type := A * list Event.

Definition io_ret {A} (a : A) : IO A := (a, []).

Definition io_bind {A B} (m : IO A) (k : A → IO B) : IO B :=
  let '(a, t1) := m in
  let '(b, t2) := k a in
  (b, t1 ++ t2).

Notation "x ←io m ;; k" := (io_bind m (λ x, k))
  (at level 100, m at next level, right associativity).

Definition os_Stat (env : Env) (path : str) : IO (option Z) :=
  (stat env path, [EvStat path]).

Definition os_ReadFile (env : Env) (path : str) : IO (option str) :=
  (readFile env path, [EvReadFile path]).

Definition exec_grep (env : Env) (args : list str) : IO CmdOutcome :=
  (runGrep env args, [EvExec "grep" args]).

(** What is found at a path of the file tree under the base directory,
    symbolic links followed as [os.Stat] does: nothing that can be
    stat'ed, a file, a directory with its listing in the order of
    [os.ReadDir], or a directory that cannot be listed. *)
Inductive fsobj :=
| NoEntry
| RegularFile (size : Z)
| Directory (entries : list (str * fsobj))
| UnreadableDirectory.

(** ** The server *)
Section Server.

(** [filepath.Match(pattern, name)], the glob matcher of the Go library:
    its first result, the only one the code looks at.  It is left
    abstract: nothing below depends on what it answers. *)
Variable Match : str → str → bool.

(** [json.Unmarshal([]byte(queriesStr), &queries)]: the decoded queries,
    [None] on error. *)
Variable json_Unmarshal : str → option (list GrepQuery).

(** *** filetree.go *)

(** [GitignoreFilter] handles .gitignore pattern matching. *)
Record GitignoreFilter := {
  patterns : list str;
  basePath : str;
}.

(** The body of the scanner loop of [NewGitignoreFilter]. *)
Definition add_pattern (pats : list str) (text : str) : list str :=
  let line := TrimSpace text in
  (* Skip empty lines and comments *)
  if bool_decide (line = []) || HasPrefix line "#" then pats
  else if negb (HasPrefix line "!") then pats ++ [line]
  else pats.

(** [NewGitignoreFilter] creates a new gitignore filter.  [gitignore] is
    the content of the file [.gitignore] of the base directory, [None]
    when [os.Open] fails. *)
Definition NewGitignoreFilter (base : str) (gitignore : option str)
  : GitignoreFilter :=
  let seed : list str := [".git" : str; ".git/" : str] in
  {| patterns :=
       match gitignore with
       | Some data => foldl add_pattern seed (ScanLines data)
       | None => seed
       end;
     basePath := base |}.

(** The body of the loop of [ShouldIgnore] over the patterns: whether the
    pattern makes the function return true. *)
Definition pattern_ignores (relPath fileName pattern : str) : bool :=
  if HasSuffix pattern "/" then
    (* Handle directory patterns (ending with /) *)
    let dirPattern := TrimSuffix pattern "/" in
    Match dirPattern fileName
    || Contains relPath (dirPattern ++ "/")
  else
    (* File or directory pattern *)
    Match pattern fileName
    || (Contains pattern "/"
        && (Match pattern relPath
            || let pathParts := Split relPath "/" in
               existsb
                 (λ i, Match pattern (GoStrings.Join (drop i pathParts) "/"))
                 (seq 0 (length pathParts)))).

(** [ShouldIgnore] checks if a file/directory should be ignored. *)
Definition ShouldIgnore (f : GitignoreFilter) (path : str) : bool :=
  match Rel (basePath f) path with
  | None => false
  | Some relPath =>
      (* Always ignore .git directory *)
      if HasPrefix relPath ".git" || Contains relPath "/.git" then true
      else
        let fileName := Base path in
        existsb (pattern_ignores relPath fileName) (patterns f)
  end.

(** [buildFileTreeWithFilter] recursively builds a file tree structure
    with gitignore filtering.  [obj] is what the operating system has at
    [dirPath].  [Ok None] is the result [nil, nil] of an ignored path. *)
Fixpoint buildFileTreeWithFilter (s : Config) (dirPath : str)
    (currentDepth : Z) (filter : GitignoreFilter) (obj : fsobj)
    {struct obj} : result unit (option FileNode) :=
  if ShouldIgnore filter dirPath then Ok None
  else
    let relPath :=
      match Rel (BasePath s) dirPath with
      | Some r => if decide (r = ".") then [] else r
      | None => []
      end in
    match obj with
    | NoEntry => Err ()
    | RegularFile size =>
        Ok (Some (mkFileNode (Base dirPath) "file" (Some size) [] relPath))
    | UnreadableDirectory => Err ()
    | Directory entries =>
        let children :=
          (fix loop (entries : list (str * fsobj)) : list FileNode :=
             match entries with
             | [] => []
             | (name, o) :: rest =>
                 let childPath := GoFilepath.Join [dirPath; name] in
                 (* Skip if should be ignored *)
                 if ShouldIgnore filter childPath then loop rest
                 else
                   match buildFileTreeWithFilter s childPath
                           (currentDepth + 1) filter o with
                   | Err _ => loop rest (* Skip entries that cause errors *)
                   | Ok None => loop rest
                   | Ok (Some child) => child :: loop rest
                   end
             end) entries in
        Ok (Some (mkFileNode (Base dirPath) "directory" None children relPath))
    end.

(** [handleReadFileStructure] handles the read_file_structure tool with
    filtering.  [gitignore] and [root] are what the operating system has
    at the base directory. *)
Definition handleReadFileStructure (s : Config) (gitignore : option str)
    (root : fsobj) : CallToolResult :=
  let filter := NewGitignoreFilter (BasePath s) gitignore in
  match buildFileTreeWithFilter s (BasePath s) 0 filter root with
  | Err _ => NewToolResultError FailedToReadStructure
  | Ok root =>
      NewToolResultText
        (StructurePayload (BasePath s) root
           "Filtered out .git directory and .gitignore patterns")
  end.

(** *** main.go *)

(** [validateFilePath] validates and resolves a file path relative to
    base path. *)
Definition validateFilePath (s : Config) (filePath : str)
  : result PathError str :=
  (* Clean the path *)
  let cleanPath := Clean filePath in
  (* Prevent directory traversal attacks *)
  if Contains cleanPath ".." then Err ErrPathTraversal
  else
    (* Build full path *)
    let fullPath := GoFilepath.Join [BasePath s; cleanPath] in
    (* Ensure the resolved path is still within base path *)
    match Rel (BasePath s) fullPath with
    | None => Err ErrOutsideBase
    | Some relPath =>
        if HasPrefix relPath ".." then Err ErrOutsideBase else Ok fullPath
    end.

(** [handleReadFileContents] handles the read_file_contents tool. *)
Definition handleReadFileContents (s : Config) (env : Env)
    (args : gmap str ArgValue) : IO CallToolResult :=
  match args !! ("file_path" : str) with
  | Some (AString filePath) =>
      (* Validate and resolve path *)
      match validateFilePath s filePath with
      | Err e => io_ret (NewToolResultError (InvalidFilePath e))
      | Ok fullPath =>
          (* Check file size *)
          st ←io os_Stat env fullPath ;;
          match st with
          | None => io_ret (NewToolResultError FileNotFound)
          | Some size =>
              if (MaxFileSize s <? size)%Z then
                io_ret (NewToolResultError (FileTooLarge size (MaxFileSize s)))
              else
                (* Read file contents *)
                rd ←io os_ReadFile env fullPath ;;
                match rd with
                | None => io_ret (NewToolResultError FailedToReadFile)
                | Some content =>
                    io_ret (NewToolResultText
                              (ContentsPayload filePath size content))
                end
          end
      end
  | _ => io_ret (NewToolResultError MissingParameter)
  end.

(** The longest prefix of [s] whose bytes satisfy [p], and the rest. *)
Fixpoint span (p : ascii → bool) (s : str) : str * str :=
  match s with
  | [] => ([], [])
  | c :: s' =>
      if p c then let '(a, b) := span p s' in (c :: a, b) else ([], s)
  end.

(** [lineRegex.FindStringSubmatch(line)]: the whole match and the four
    groups, or nil.  The regular expression is anchored at both ends and
    has four groups: one or more bytes other than a colon; after a
    colon, one or more decimal digits; one byte of the class [[:|-]];
    any number of bytes other than a newline.  So the first group ends
    at the first colon and the second is the whole run of digits that
    follows it. *)
Definition lineRegex_FindStringSubmatch (line : str) : list str :=
  let '(g1, r1) := span (λ c, negb (Ascii.eqb c ":")) line in
  match g1, r1 with
  | _ :: _, _ :: r2 =>
      let '(g2, r3) := span is_digit r2 in
      match g2, r3 with
      | _ :: _, sep :: g4 =>
          if (Ascii.eqb sep ":" || Ascii.eqb sep "|" || Ascii.eqb sep "-")
             && forallb (λ c, negb (Ascii.eqb c "010")) g4
          then [line; g1; g2; [sep]; g4]
          else []
      | _, _ => []
      end
  | _, _ => []
  end.

(** The body of the loop of [parseGrepOutput] over the lines. *)
Definition parse_line (s : Config) (matches : gmap str (list GrepLine))
    (line : str) : gmap str (list GrepLine) :=
  if decide (line = "--") then matches (* Skip separator lines *)
  else
    match lineRegex_FindStringSubmatch line with
    | [_; filePath; lineNumStr; separator; content] =>
        (* Convert absolute path to relative path *)
        let relPath :=
          match Rel (BasePath s) filePath with
          | Some r => r
          | None => filePath
          end in
        match Atoi lineNumStr with
        | None => matches
        | Some lineNum =>
            let isMatch := bool_decide (separator = ":") in
            let grepLine :=
              {| LineNumber := lineNum; Content := content;
                 IsMatch := isMatch |} in
            <[relPath := default [] (matches !! relPath) ++ [grepLine]]> matches
        end
    | _ => matches
    end.

(** [parseGrepOutput] parses grep output with context lines.  Its error
    result is always nil. *)
Definition parseGrepOutput (s : Config) (env : Env) (output : str)
  : list GrepMatchResult :=
  match output with
  | [] => []
  | _ :: _ =>
      let lines := Split (TrimSpace output) "010" in
      let matches := foldl (parse_line s) ∅ lines in
      (* Convert map to slice *)
      (λ '(filePath, lines), {| FilePath := filePath; Lines := lines |})
        <$> rangeOrder env matches
  end.

(** The arguments of the grep command built by [executeGrepQuery]. *)
Definition grep_args (s : Config) (query : GrepQuery) (contextLines : Z)
  : list str :=
  (if (0 <? contextLines)%Z then ["-C" : str; Itoa contextLines] else [])
  ++ ["-n" : str]
  ++ match IgnoreCase query with Some true => ["-i" : str] | _ => [] end
  ++ ["-r" : str]
  ++ [Pattern query]
  ++ match FilePattern query with
     | Some fp => ["--include=" ++ fp]
     | None => []
     end
  ++ [BasePath s].

(** [executeGrepQuery] executes a single grep query with context. *)
Definition executeGrepQuery (s : Config) (env : Env) (query : GrepQuery)
    (contextLines : Z) : IO (result str GrepResult) :=
  out ←io exec_grep env (grep_args s query contextLines) ;;
  match out with
  | ExitError code _ msg =>
      if decide (code = 1%Z) then
        (* No matches found, return empty result *)
        io_ret (Ok {| Query := Pattern query; Matches := []; Error := None |})
      else io_ret (Err ("grep command failed: " ++ msg))
  | StartError msg => io_ret (Err ("grep command failed: " ++ msg))
  | Exited0 output =>
      io_ret (Ok {| Query := Pattern query;
                    Matches := parseGrepOutput s env output;
                    Error := None |})
  end.

(** The zero value of [GrepResult], which fills
    [make([]GrepResult, len(queries))]. *)
Definition zeroGrepResult : GrepResult :=
  {| Query := []; Matches := []; Error := None |}.

(** The loop [for i, query := range queries] of [handleGrepSearch], from
    index [i] on, [queries] being what is left of the slice. *)
Fixpoint search_loop (s : Config) (env : Env) (contextLines : Z)
    (i : nat) (queries : list GrepQuery) (results : list GrepResult)
  : IO (list GrepResult) :=
  match queries with
  | [] => io_ret results
  | query :: rest =>
      r ←io executeGrepQuery s env query contextLines ;;
      let results :=
        match r with
        | Err errorMsg =>
            <[i := {| Query := Pattern query; Matches := [];
                      Error := Some errorMsg |}]> results
        | Ok result => <[i := result]> results
        end in
      search_loop s env contextLines (S i) rest results
  end.

(** [handleGrepSearch] handles the grep_search tool. *)
Definition handleGrepSearch (s : Config) (env : Env)
    (args : gmap str ArgValue) : IO CallToolResult :=
  (* Parse queries JSON string *)
  match args !! ("queries" : str) with
  | Some (AString queriesStr) =>
      match json_Unmarshal queriesStr with
      | None => io_ret (NewToolResultError InvalidQueriesJSON)
      | Some queries =>
          (* Validate number of queries *)
          if decide (length queries = 0) then
            io_ret (NewToolResultError NoQueries)
          else if decide (20 < length queries) then
            io_ret (NewToolResultError TooManyQueries)
          else
            (* Set default context lines *)
            let contextLines :=
              match args !! ("context_lines" : str) with
              | Some (ANumber cl) => cl
              | _ => 5%Z
              end in
            (* Execute searches *)
            results ←io
              search_loop s env contextLines 0 queries
                (replicate (length queries) zeroGrepResult) ;;
            io_ret (NewToolResultText
                      (SearchPayload (BasePath s) contextLines results))
      end
  | _ => io_ret (NewToolResultError QueriesNotString)
  end.

End Server.

(** ** The configuration (main.go) *)

(** How [os.Stat] ends, as far as [validateConfig] looks at it: without
    error, with an error for which [os.IsNotExist] holds, or with another
    error (a permission that is missing on the way to the path, say). *)
Inductive StatOutcome :=
| StatOk
| StatNotExist
| StatOtherError.

(** What [validateConfig] asks of the operating system: [os.Stat] on a
    path, and [os.Getwd] (the working directory, [None] on error), which
    [filepath.Abs] calls for a relative path. *)
Record ConfigEnv := {
  statPath : str → StatOutcome;
  getwd : option str;
}.

(** [filepath.IsAbs], on Unix. *)
Definition IsAbs (path : str) : bool := HasPrefix path "/".

(** [filepath.Abs], on Unix: an absolute path is cleaned, a relative one
    is joined to the working directory. *)
Definition Abs (env : ConfigEnv) (path : str) : option str :=
  if IsAbs path then Some (Clean path)
  else
    match getwd env with
    | None => None
    | Some wd => Some (GoFilepath.Join [wd; path])
    end.

(** The two errors of [validateConfig]: "base path does not exist: ..."
    and "failed to get absolute path: ...". *)
Inductive ConfigError :=
| BasePathDoesNotExist (path : str)
| AbsolutePathFailed.

(** [validateConfig] validates the server configuration.  The Go function
    works on the configuration in place: the result here is the
    configuration it leaves behind and the error it returns, [None] for
    nil. *)
Definition validateConfig (env : ConfigEnv) (config : Config)
  : Config * option ConfigError :=
  (* Check if base path exists and is readable *)
  match statPath env (BasePath config) with
  | StatNotExist => (config, Some (BasePathDoesNotExist (BasePath config)))
  | _ =>
      (* Convert to absolute path *)
      match Abs env (BasePath config) with
      | None => (config, Some AbsolutePathFailed)
      | Some absPath =>
          let config :=
            {| Port := Port config; BasePath := absPath;
               MaxFileSize := MaxFileSize config |} in
          (* Validate max file size *)
          let config :=
            if (MaxFileSize config <=? 0)%Z then
              {| Port := Port config; BasePath := BasePath config;
                 MaxFileSize := 10 * 1024 * 1024 |}
            else config in
          (config, None)
      end
  end.

(** The command line after [flag.Parse()]: for each of the three flags
    the value it was given, [None] when the flag is absent.  (A command
    line that [flag.Parse] rejects ends the process and does not come
    here.) *)
Record Flags := {
  flag_port : option str;
  flag_base_path : option str;
  flag_max_file_size : option Z;
}.

(** [loadConfig] loads configuration from command line flags: each field
    is the value of its flag or the default given to [flag.StringVar] and
    [flag.Int64Var]. *)
Definition loadConfig (env : ConfigEnv) (flags : Flags)
  : result ConfigError Config :=
  let config :=
    {| Port := default (":3001" : str) (flag_port flags);
       BasePath := default ("." : str) (flag_base_path flags);
       MaxFileSize := default (10 * 1024 * 1024)%Z (flag_max_file_size flags) |} in
  match validateConfig env config with
  | (_, Some err) => Err err
  | (config, None) => Ok config
  end.

(** ** Definitions for the statements *)

(** *** Paths *)

(** A name a directory entry can have: not empty, not [.] or [..], and
    without a slash. *)
Definition valid_name (n : str) : Prop :=
  n ≠ [] ∧ n ≠ "." ∧ n ≠ ".." ∧ Separator ∉ n.

(** [valid_name] as a test. *)
Definition is_name (n : str) : bool :=
  negb (bool_decide (n = [])) && negb (bool_decide (n = "."))
  && negb (bool_decide (n = "..")) && negb (bool_decide (Separator ∈ n)).

Definition dotdot : str := "..".

(** The elements of a cleaned path: parent-directory elements first, and
    none in a rooted path, then names. *)
Definition normal_elems (rooted : bool) (elems : list str) : Prop :=
  ∃ k body, elems = replicate k dotdot ++ body ∧ Forall valid_name body
            ∧ (rooted = true → k = 0).

(** The rootedness and the elements of the cleaned form of a path. *)
Definition norm (path : str) : bool * list str :=
  match path with
  | [] => (false, [])
  | c :: _ => (Ascii.eqb c Separator, clean_elems (Ascii.eqb c Separator) path)
  end.

(** The path reached from [path] through the directory entries [names],
    as [buildFileTreeWithFilter] computes it, one [filepath.Join] for each
    entry. *)
Definition descend (path : str) (names : list str) : str :=
  foldl (λ d n, GoFilepath.Join [d; n]) path names.

(** *** The file tree *)

(** Every directory entry of the tree has a name that an entry can have. *)
Fixpoint wf_fs (obj : fsobj) : bool :=
  match obj with
  | Directory entries =>
      (fix go (es : list (str * fsobj)) : bool :=
         match es with
         | [] => true
         | (n, o) :: es' => is_name n && wf_fs o && go es'
         end) entries
  | _ => true
  end.

(** The object found below [obj] by following directory entries with the
    names [names]. *)
Inductive fs_reach : fsobj → list str → fsobj → Prop :=
| reach_entry entries n o :
    (n, o) ∈ entries → fs_reach (Directory entries) [n] o
| reach_deeper entries n o names o' :
    (n, o) ∈ entries → fs_reach o names o' →
    fs_reach (Directory entries) (n :: names) o'.

(** The nodes below [node], each with the names of the nodes on the way
    down to it. *)
Fixpoint descendants (node : FileNode) : list (list str * FileNode) :=
  (fix go (cs : list FileNode) : list (list str * FileNode) :=
     match cs with
     | [] => []
     | c :: cs' =>
         ([Name c], c)
         :: ((λ '(names, d), (Name c :: names, d)) <$> descendants c)
         ++ go cs'
     end) (Children node).

(** The tree in the result of the structure operation. *)
Definition structure_of (r : CallToolResult) : option FileNode :=
  match r with
  | NewToolResultText (StructurePayload _ (Some tree) _) => Some tree
  | _ => None
  end.

(** The invariant of a node: a file has no children and has a size, a
    directory has no size. *)
Definition node_shape_ok (node : FileNode) : Prop :=
  (Type_ node = "file" ∧ Children node = [] ∧ is_Some (Size node))
  ∨ (Type_ node = "directory" ∧ Size node = None).

(** The node says what the object is: a file with its size, or a
    directory. *)
Definition describes (obj : fsobj) (node : FileNode) : Prop :=
  match obj with
  | RegularFile size => Type_ node = "file" ∧ Size node = Some size
  | Directory _ => Type_ node = "directory"
  | _ => False
  end.

(** What holds of a node of the tree built for [root], found by going
    down through the nodes named [names]. *)
Definition built_ok (root : fsobj) (names : list str) (node : FileNode) : Prop :=
  Forall valid_name names
  ∧ Path node = GoStrings.Join names "/"
  ∧ last names = Some (Name node)
  ∧ ((".git" : str) ∉ names)
  ∧ node_shape_ok node
  ∧ ∃ obj, fs_reach root names obj ∧ describes obj node.

(** The loop of [buildFileTreeWithFilter] over the entries of the
    directory [dirPath]: the children of its node. *)
Definition build_children (Match : str → str → bool) (s : Config)
    (dirPath : str) (currentDepth : Z) (filter : GitignoreFilter)
  : list (str * fsobj) → list FileNode :=
  fix loop (entries : list (str * fsobj)) : list FileNode :=
    match entries with
    | [] => []
    | (name, o) :: rest =>
        let childPath := GoFilepath.Join [dirPath; name] in
        if ShouldIgnore Match filter childPath then loop rest
        else
          match buildFileTreeWithFilter Match s childPath
                  (currentDepth + 1) filter o with
          | Err _ => loop rest
          | Ok None => loop rest
          | Ok (Some child) => child :: loop rest
          end
    end.

(** What [buildFileTreeWithFilter] returns for the object [obj] found at
    [names] below [root]. *)
Definition build_spec (Match : str → str → bool) (s : Config)
    (filter : GitignoreFilter) (root obj : fsobj) : Prop :=
  ∀ names depth node,
    wf_fs obj = true → Forall valid_name names →
    (names = [] ∧ root = obj) ∨ fs_reach root names obj →
    buildFileTreeWithFilter Match s (descend (BasePath s) names) depth
      filter obj = Ok (Some node) →
    Path node = GoStrings.Join names "/"
    ∧ (names ≠ [] → last names = Some (Name node))
    ∧ node_shape_ok node
    ∧ describes obj node
    ∧ Forall (λ '(ns, d), built_ok root (names ++ ns) d) (descendants node).

(** *** The ignore file *)

Definition newline : ascii := "010".

Definition bang : ascii := "!".

(** A line of an ignore file that is a negation pattern: trimmed as
    [NewGitignoreFilter] trims it, it begins with an exclamation mark. *)
Definition is_negation_line (line : str) : bool :=
  HasPrefix (TrimSpace (dropCR line)) "!".

(** Where a line can be added to a file: at its start or after a
    newline. *)
Definition line_start (pre : str) : Prop :=
  pre = [] ∨ ∃ pre', pre = pre' ++ [newline].

(** *** The search *)

(** The record a line of grep output stands for: the key under which
    [parse_line] files it and the line it appends there; [None] for a line
    that [parse_line] passes over. *)
Definition record_of (s : Config) (line : str) : option (str * GrepLine) :=
  if decide (line = "--") then None
  else
    match lineRegex_FindStringSubmatch line with
    | [_; filePath; lineNumStr; separator; content] =>
        match Atoi lineNumStr with
        | None => None
        | Some lineNum =>
            Some (match Rel (BasePath s) filePath with
                  | Some r => r
                  | None => filePath
                  end,
                  {| LineNumber := lineNum; Content := content;
                     IsMatch := bool_decide (separator = ":") |})
        end
    | _ => None
    end.

(** The records of a raw grep output, in the order of its lines. *)
Definition records (s : Config) (output : str) : list (str * GrepLine) :=
  match output with
  | [] => []
  | _ :: _ => omap (record_of s) (Split (TrimSpace output) newline)
  end.

(** The distinct keys of a list, each at the place of its first
    occurrence. *)
Definition first_seen_keys (keys : list str) : list str :=
  foldl (λ seen k, if decide (k ∈ seen) then seen else seen ++ [k]) [] keys.

(** The lines recorded under a key, in the order of the records. *)
Definition lines_of (recs : list (str * GrepLine)) (key : str) : list GrepLine :=
  (filter (λ r, r.1 = key) recs).*2.

(** One group per file, in the order in which the files are first met in
    the output. *)
Definition first_seen_groups (s : Config) (output : str) : list GrepMatchResult :=
  let recs := records s output in
  (λ key, {| FilePath := key; Lines := lines_of recs key |})
    <$> first_seen_keys (recs.*1).

(** The [GrepResult] the loop of [handleGrepSearch] stores for a query. *)
Definition query_result (s : Config) (env : Env) (contextLines : Z)
    (query : GrepQuery) : GrepResult :=
  match (executeGrepQuery s env query contextLines).1 with
  | Err errorMsg =>
      {| Query := Pattern query; Matches := []; Error := Some errorMsg |}
  | Ok result => result
  end.

(** The process failed in another way than by the exit status 1 of grep,
    which says that nothing matched. *)
Definition grep_failed (out : CmdOutcome) : bool :=
  match out with
  | Exited0 _ => false
  | ExitError code _ _ => negb (code =? 1)%Z
  | StartError _ => true
  end.

(** The value of [contextLines] in [handleGrepSearch]. *)
Definition context_lines_of (args : gmap str ArgValue) : Z :=
  match args !! ("context_lines" : str) with
  | Some (ANumber cl) => cl
  | _ => 5%Z
  end.

(** The trace of a search: grep is run once for each query, in order. *)
Definition search_trace (s : Config) (contextLines : Z)
    (queries : list GrepQuery) : list Event :=
  (λ query, EvExec "grep" (grep_args s query contextLines)) <$> queries.

(** *** Concrete inputs *)

(** [filepath.Match] on the patterns without metacharacters: the name is
    the pattern. *)
Definition literal_match : str → str → bool :=
  λ pattern name, bool_decide (pattern = name).

Definition srv : str := "/srv".

Definition srv_config : Config :=
  {| Port := ":3001"; BasePath := srv; MaxFileSize := 10485760 |}.

(** Two iteration orders over a map. *)
Definition forward_range (m : gmap str (list GrepLine))
  : list (str * list GrepLine) := map_to_list m.

Definition reverse_range (m : gmap str (list GrepLine))
  : list (str * list GrepLine) := reverse (map_to_list m).

(** An operating system with no file, where grep cannot be run. *)
Definition quiet_os
    (range : gmap str (list GrepLine) → list (str * list GrepLine)) : Env :=
  {| stat := λ _, None; readFile := λ _, None;
     runGrep := λ _, StartError []; rangeOrder := range |}.

(** An operating system with one file. *)
Definition one_file_os (path content : str) : Env :=
  {| stat := λ p, if decide (p = path)
                  then Some (Z.of_nat (length content)) else None;
     readFile := λ p, if decide (p = path) then Some content else None;
     runGrep := λ _, StartError [];
     rangeOrder := map_to_list |}.

(** The output of grep for a pattern found in two files. *)
Definition two_files_output : str :=
  "/srv/b.txt:1:alpha" ++ [newline] ++ "/srv/a.txt:3:alpha" ++ [newline].

(** An operating system where grep finds "alpha" in two files, finds
    "omega" nowhere, and fails on any other pattern. *)
Definition grep_os : Env :=
  {| stat := λ _, None; readFile := λ _, None;
     runGrep := λ args,
       if bool_decide (("alpha" : str) ∈ args) then Exited0 two_files_output
       else if bool_decide (("omega" : str) ∈ args)
            then ExitError 1 [] "exit status 1"
            else ExitError 2 [] "exit status 2";
     rangeOrder := map_to_list |}.

Definition query_for (pattern : str) : GrepQuery :=
  {| Pattern := pattern; FilePattern := None; IgnoreCase := None |}.

(** The arguments of a call of grep_search. *)
Definition search_args (queriesStr : str) : gmap str ArgValue :=
  {[ ("queries" : str) := AString queriesStr ]}.

(** A decoder that knows three query lists. *)
Definition decode_example (queriesStr : str) : option (list GrepQuery) :=
  if decide (queriesStr = "three") then
    Some [query_for "alpha"; query_for "["; query_for "omega"]
  else if decide (queriesStr = "none") then Some []
  else if decide (queriesStr = "twenty") then Some (replicate 20 (query_for "omega"))
  else if decide (queriesStr = "twenty-one") then Some (replicate 21 (query_for "omega"))
  else None.

(** The arguments of a call of read_file_contents for [filePath]. *)
Definition contents_args (filePath : str) : gmap str ArgValue :=
  {[ ("file_path" : str) := AString filePath ]}.

(** A negation line of 65536 bytes. *)
Definition long_negation_line : str :=
  "!" ++ replicate (N.to_nat 65535) ("x" : ascii).

(** A base directory with a metadata directory, an ignored directory, and
    an entry that cannot be stat'ed. *)
Definition example_fs : fsobj :=
  Directory
    [(".git" : str, Directory [("config" : str, RegularFile 92)]);
     ("a.txt" : str, RegularFile 17);
     ("secret" : str, Directory [("x.txt" : str, RegularFile 1)]);
     ("sub" : str,
      Directory [("c" : str, RegularFile 2);
                 (".git" : str, RegularFile 40);
                 ("gone" : str, NoEntry)])].

Definition example_gitignore : str :=
  "# local" ++ [newline] ++ "secret/" ++ [newline] ++ "!a.txt" ++ [newline].

(** The tree the structure operation builds for [example_fs]. *)
Definition example_tree : FileNode :=
  Eval vm_compute in
    default (mkFileNode [] [] None [] [])
      (structure_of
         (handleReadFileStructure literal_match srv_config
            (Some example_gitignore) example_fs)).

(** *** Further definitions for the statements *)

(** [fullPath] is the base directory of [s] or lies below it: the
    relative path from the base directory to it has no parent-directory
    element, and joined to the base directory it gives [fullPath] back. *)
Definition below_base (s : Config) (fullPath : str) : Prop :=
  ∃ relPath,
    Rel (BasePath s) fullPath = Some relPath
    ∧ ((".." : str) ∉ Split relPath "/")
    ∧ GoFilepath.Join [BasePath s; relPath] = fullPath.

(** An operating system for [validateConfig]: every path can be stat'ed,
    and the working directory is [/home/user]. *)
Definition home_os : ConfigEnv :=
  {| statPath := λ _, StatOk; getwd := Some ("/home/user" : str) |}.

(** An operating system where [os.Stat] fails for a reason other than a
    missing file, and [os.Getwd] fails. *)
Definition blind_os : ConfigEnv :=
  {| statPath := λ _, StatOtherError; getwd := None |}.

(** A command line with the flag [-base-path files/] alone. *)
Definition files_flags : Flags :=
  {| flag_port := None; flag_base_path := Some ("files/" : str);
     flag_max_file_size := None |}.

(** What the tree builder makes a node for: a file, or a directory that
    can be listed. *)
Definition can_be_listed (obj : fsobj) : Prop :=
  match obj with
  | RegularFile _ | Directory _ => True
  | NoEntry | UnreadableDirectory => False
  end.

(** The filter ignores neither the path reached from the base directory of
    [s] through the entries [names] nor any directory on the way to it. *)
Definition visible (Match : str → str → bool) (filter : GitignoreFilter)
    (s : Config) (names : list str) : Prop :=
  ∀ k, 0 < k ≤ length names →
       ShouldIgnore Match filter (descend (BasePath s) (take k names)) = false.

(** A line of the output of [grep -n] for a line that matches: the path
    of the file, the number of the line and its text, each followed by a
    colon. *)
Definition grep_match_line (path : str) (lineNum : Z) (content : str) : str :=
  path ++ ":" ++ Itoa lineNum ++ ":" ++ content.

(** A base directory with entries whose names begin with [.git], a
    directory [build] and a directory whose name ends in [build], a
    directory that cannot be listed, and sources. *)
Definition project_fs : fsobj :=
  Directory
    [(".github" : str, Directory [("ci.yml" : str, RegularFile 120)]);
     (".gitignore" : str, RegularFile 24);
     ("build" : str, Directory [("out.bin" : str, RegularFile 4096)]);
     ("docs" : str,
      Directory [(".gitkeep" : str, RegularFile 0);
                 ("guide.md" : str, RegularFile 300)]);
     ("locked" : str, UnreadableDirectory);
     ("rebuild" : str, Directory [("plan.txt" : str, RegularFile 12)]);
     ("src" : str,
      Directory [("debug.log" : str, RegularFile 7);
                 ("main.go" : str, RegularFile 900)])].

Definition project_gitignore : str :=
  "# build products" ++ [newline] ++ "build/" ++ [newline]
  ++ "debug.log" ++ [newline].

(** The tree the structure operation builds for [project_fs]. *)
Definition project_tree : FileNode :=
  Eval vm_compute in
    default (mkFileNode [] [] None [] [])
      (structure_of
         (handleReadFileStructure literal_match srv_config
            (Some project_gitignore) project_fs)).

(** The configuration [loadConfig] returns for [files_flags] under
    [home_os]. *)
Definition files_config : Config :=
  {| Port := ":3001"; BasePath := "/home/user/files";
     MaxFileSize := 10485760 |}.

(** A configuration as the flags [-base-path files/ -max-file-size 0]
    give it, before it is validated. *)
Definition raw_config : Config :=
  {| Port := ":3001"; BasePath := "files/"; MaxFileSize := 0 |}.

(** A line that grep reports as a match: the names that lead from the
    base directory to the file, the number of the line and its text. *)
Definition MatchRecord : Type := list str * Z * str.

(** The line of output that grep writes for it. *)
Definition record_line (s : Config) (r : MatchRecord) : str :=
  let '(names, n, content) := r in
  grep_match_line (descend (BasePath s) names) n content.

(** The output of grep for a sequence of matching lines: each line of
    output ends with a newline. *)
Definition grep_output (s : Config) (recs : list MatchRecord) : str :=
  concat ((λ r, record_line s r ++ [newline]) <$> recs).

(** What is to be recorded for it: under the path of the file relative
    to the base directory, a line marked as a match. *)
Definition expected_record (r : MatchRecord) : str * GrepLine :=
  let '(names, n, content) := r in
  (GoStrings.Join names "/",
   {| LineNumber := n; Content := content; IsMatch := true |}).

(** The path of the file has neither a colon nor a newline, the number is
    a number of [int] that is not negative, and the text has no
    newline. *)
Definition well_formed_record (s : Config) (r : MatchRecord) : Prop :=
  let '(names, n, content) := r in
  Forall valid_name names ∧ names ≠ []
  ∧ (":"%char ∉ descend (BasePath s) names)
  ∧ (newline ∉ descend (BasePath s) names)
  ∧ (0 ≤ n ≤ 2 ^ 63 - 1)%Z
  ∧ (newline ∉ content).

(** A byte of ASCII that is not a space. *)
Definition visible_byte (c : ascii) : bool :=
  (byteval c <? RuneSelf)%N && negb (asciiSpace c).

(** The text does not end with a space, nor with a byte that is not
    ASCII. *)
Definition ends_visible (content : str) : Prop :=
  match last content with
  | Some d => visible_byte d = true
  | None => True
  end.

(** * Facts about the [strings] functions *)

Lemma ascii_eqb_true (a b : ascii) : Ascii.eqb a b = true ↔ a = b.
Proof. apply Ascii.eqb_eq. Qed.

Lemma ascii_eqb_false (a b : ascii) : Ascii.eqb a b = false ↔ a ≠ b.
Proof. apply Ascii.eqb_neq. Qed.

Lemma HasPrefix_app (p r : str) : HasPrefix (p ++ r) p = true.
Proof.
  induction p as [|c p IH]; simpl; [done|].
  by rewrite Ascii.eqb_refl, IH.
Qed.

Lemma HasPrefix_true (s p : str) : HasPrefix s p = true ↔ ∃ r, s = p ++ r.
Proof.
  split.
  - revert s. induction p as [|c p IH]; intros s H; simpl in *.
    + by exists s.
    + destruct s as [|d s]; [done|].
      apply andb_true_iff in H as [Hc Hp].
      apply ascii_eqb_true in Hc as ->.
      destruct (IH _ Hp) as [r ->]. by exists r.
  - intros [r ->]. apply HasPrefix_app.
Qed.

Lemma HasPrefix_nil_l (p : str) : HasPrefix [] p = true → p = [].
Proof. by destruct p. Qed.

Lemma Contains_HasPrefix (s sub : str) :
  HasPrefix s sub = true → Contains s sub = true.
Proof. intros H. destruct s; simpl; by rewrite H. Qed.

Lemma Contains_true (s sub : str) :
  Contains s sub = true ↔ ∃ a b, s = a ++ sub ++ b.
Proof.
  split.
  - induction s as [|c s IH]; simpl; intros H.
    + apply orb_true_iff in H as [H|H]; [|discriminate].
      apply HasPrefix_nil_l in H as ->. by exists [], [].
    + apply orb_true_iff in H as [H|H].
      * apply HasPrefix_true in H as [r Hr]. exists [], r. by rewrite Hr.
      * destruct (IH H) as (a & b & ->). by exists (c :: a), b.
  - intros (a & b & ->). induction a as [|c a IH]; simpl.
    + apply Contains_HasPrefix, HasPrefix_app.
    + rewrite IH. apply orb_true_r.
Qed.

Lemma Contains_false_app (a sub b : str) :
  Contains (a ++ sub ++ b) sub = false → False.
Proof.
  intros H. assert (Contains (a ++ sub ++ b) sub = true); [|congruence].
  apply Contains_true. eauto.
Qed.

(** ** [Split] and [Join] *)

Lemma Split_nonempty (s : str) sep : Split s sep ≠ [].
Proof. destruct s as [|c s]; simpl; [done|]. by repeat case_match. Qed.

Lemma Split_no_sep (s : str) sep : sep ∉ s → Split s sep = [s].
Proof.
  induction s as [|c s IH]; simpl; intros H; [done|].
  apply not_elem_of_cons in H as [Hc Hs].
  destruct (Ascii.eqb c sep) eqn:E.
  - apply ascii_eqb_true in E. congruence.
  - by rewrite (IH Hs).
Qed.

Lemma Split_app (a b : str) sep :
  Split (a ++ sep :: b) sep = match Split a sep with
                              | [] => Split b sep
                              | _ => Split a sep ++ Split b sep
                              end.
Proof.
  induction a as [|c a IH]; simpl.
  - by rewrite Ascii.eqb_refl.
  - destruct (Ascii.eqb c sep); rewrite IH.
    + by destruct (Split a sep).
    + pose proof (Split_nonempty a sep).
      destruct (Split a sep) as [|f fs]; [done|]. done.
Qed.

Lemma Split_app' (a b : str) sep :
  Split (a ++ sep :: b) sep = Split a sep ++ Split b sep.
Proof.
  rewrite Split_app. pose proof (Split_nonempty a sep).
  by destruct (Split a sep).
Qed.

Lemma Split_app_sep (a b : str) sep :
  Split (a ++ [sep] ++ b) sep = Split a sep ++ Split b sep.
Proof. apply Split_app'. Qed.

Lemma Split_fields_no_sep (s : str) sep : Forall (λ f, sep ∉ f) (Split s sep).
Proof.
  induction s as [|c s IH]; simpl.
  - constructor; [|done]. apply not_elem_of_nil.
  - destruct (Ascii.eqb c sep) eqn:E.
    + constructor; [apply not_elem_of_nil|done].
    + destruct (Split s sep) as [|f fs].
      * constructor; [|done]. apply ascii_eqb_false in E.
        apply not_elem_of_cons. split; [done|apply not_elem_of_nil].
      * inversion IH; subst. constructor; [|done].
        apply ascii_eqb_false in E. by apply not_elem_of_cons.
Qed.

Lemma Join_cons (e : str) (rest : list str) sep :
  rest ≠ [] → GoStrings.Join (e :: rest) sep = e ++ sep ++ GoStrings.Join rest sep.
Proof. by destruct rest. Qed.

Lemma Join_snoc (l : list str) (e : str) sep :
  l ≠ [] → GoStrings.Join (l ++ [e]) sep = GoStrings.Join l sep ++ sep ++ e.
Proof.
  induction l as [|x l IH]; [done|]; intros _.
  destruct l as [|y l]; [done|].
  change ((x :: y :: l) ++ [e]) with (x :: ((y :: l) ++ [e])).
  rewrite !Join_cons by done. rewrite IH by done.
  by rewrite <- !app_assoc.
Qed.

Lemma Split_Join (l : list str) sep :
  l ≠ [] → Forall (λ f, sep ∉ f) l → Split (GoStrings.Join l [sep]) sep = l.
Proof.
  induction l as [|x l IH]; [done|]; intros _ Hl.
  inversion Hl as [|?? Hx Hl']; subst.
  destruct l as [|y l].
  - simpl. by apply Split_no_sep.
  - rewrite Join_cons by done.
    rewrite Split_app_sep, Split_no_sep by done.
    by rewrite IH.
Qed.

Lemma Join_cons_head c (f : str) (fs : list str) sep :
  GoStrings.Join ((c :: f) :: fs) sep = c :: GoStrings.Join (f :: fs) sep.
Proof. by destruct fs. Qed.

Lemma Join_Split (s : str) sep : GoStrings.Join (Split s sep) [sep] = s.
Proof.
  induction s as [|c s IH]; [done|]. simpl Split.
  destruct (Ascii.eqb c sep) eqn:E.
  - apply ascii_eqb_true in E as ->.
    rewrite Join_cons by apply Split_nonempty. by rewrite IH.
  - pose proof (Split_nonempty s sep).
    destruct (Split s sep) as [|f fs]; [done|].
    by rewrite Join_cons_head, IH.
Qed.

Lemma Join_app (a b : list str) sep :
  a ≠ [] → b ≠ [] →
  GoStrings.Join (a ++ b) sep = GoStrings.Join a sep ++ sep ++ GoStrings.Join b sep.
Proof.
  induction a as [|x a IH]; [done|]. intros _ Hb.
  destruct a as [|y a].
  - simpl app at 1. by rewrite Join_cons.
  - change ((x :: y :: a) ++ b) with (x :: ((y :: a) ++ b)).
    rewrite !Join_cons by done. rewrite IH by done.
    by rewrite <- !app_assoc.
Qed.

(** A field of [Split] occurs in the string. *)
Lemma elem_of_Join_Contains (l1 l2 : list str) (f sep : str) :
  Contains (GoStrings.Join (l1 ++ f :: l2) sep) f = true.
Proof.
  apply Contains_true.
  destruct l1 as [|x l1 _] using rev_ind; destruct l2 as [|y l2].
  - exists [], []. simpl. by rewrite app_nil_r.
  - exists [], (sep ++ GoStrings.Join (y :: l2) sep).
    simpl app at 1. by rewrite Join_cons.
  - exists (GoStrings.Join (l1 ++ [x]) sep ++ sep), [].
    rewrite Join_snoc by (by destruct l1). rewrite app_nil_r.
    by rewrite <- !app_assoc.
  - exists (GoStrings.Join (l1 ++ [x]) sep ++ sep),
      (sep ++ GoStrings.Join (y :: l2) sep).
    replace ((l1 ++ [x]) ++ f :: y :: l2) with (((l1 ++ [x]) ++ [f]) ++ (y :: l2))
      by (by rewrite <- !app_assoc).
    rewrite Join_app by (done || by destruct l1).
    rewrite Join_snoc by (by destruct l1).
    by rewrite <- !app_assoc.
Qed.

Lemma elem_of_Split_Contains (s f : str) sep :
  f ∈ Split s sep → Contains s f = true.
Proof.
  intros Hf.
  apply list_elem_of_split in Hf as (l1 & l2 & Hs).
  rewrite <- (Join_Split s sep), Hs. apply elem_of_Join_Contains.
Qed.

(** * Facts about the [filepath] functions *)

Lemma Clean_norm path : Clean path = render (norm path).1 (norm path).2.
Proof. by destruct path. Qed.

Lemma valid_name_not_dotdot n : valid_name n → n ≠ dotdot.
Proof. by intros (_ & _ & ? & _). Qed.

Lemma dotdot_no_sep : Separator ∉ dotdot.
Proof. unfold dotdot. simpl. rewrite !not_elem_of_cons. by repeat split; try apply not_elem_of_nil. Qed.

Lemma normal_elems_no_sep r elems :
  normal_elems r elems → Forall (λ e, Separator ∉ e) elems.
Proof.
  intros (k & body & -> & Hb & _). apply Forall_app; split.
  - apply Forall_replicate, dotdot_no_sep.
  - eapply Forall_impl; [done|]. by intros n (_ & _ & _ & ?).
Qed.

Lemma normal_elems_nil r : normal_elems r [].
Proof. exists 0, []. by repeat split. Qed.

Lemma normal_elems_snoc r elems n :
  normal_elems r elems → valid_name n → normal_elems r (elems ++ [n]).
Proof.
  intros (k & body & -> & Hb & Hr) Hn. exists k, (body ++ [n]).
  rewrite <- app_assoc. split; [done|]. split; [|done].
  apply Forall_app; split; [done|]. by constructor.
Qed.

Lemma clean_step_name r out n :
  valid_name n → clean_step r out n = n :: out.
Proof.
  intros (H1 & H2 & H3 & _). unfold clean_step.
  by rewrite !decide_False.
Qed.

Lemma clean_step_normal r out e :
  normal_elems r (reverse out) → Separator ∉ e →
  normal_elems r (reverse (clean_step r out e)).
Proof.
  intros Hn He. unfold clean_step.
  destruct (decide (e = [])) as [->|Hne]; [done|].
  destruct (decide (e = ".")) as [->|Hnd]; [done|].
  destruct (decide (e = "..")) as [->|Hndd].
  - destruct out as [|top out'].
    + destruct r; [apply normal_elems_nil|].
      exists 1, []. by repeat split.
    + destruct Hn as (k & body & Heq & Hb & Hr).
      rewrite reverse_cons in Heq.
      destruct (decide (top = "..")) as [->|Htop].
      * destruct body as [|b body _] using rev_ind.
        -- rewrite app_nil_r in Heq. exists (S k), [].
           rewrite !reverse_cons, Heq, app_nil_r.
           split; [by rewrite replicate_S_end|]. split; [done|].
           intros Hrt. specialize (Hr Hrt). subst k.
           by destruct (reverse out').
        -- rewrite app_assoc in Heq. apply app_inj_tail in Heq as [_ <-].
           apply Forall_app in Hb as [_ Hb]. inversion Hb; subst.
           by destruct (valid_name_not_dotdot dotdot).
      * destruct body as [|b body _] using rev_ind.
        -- rewrite app_nil_r in Heq. destruct k as [|k].
           ++ by destruct (reverse out').
           ++ rewrite replicate_S_end in Heq.
              apply app_inj_tail in Heq as [_ ->]. done.
        -- rewrite app_assoc in Heq. apply app_inj_tail in Heq as [Heq _].
           exists k, body. split; [done|]. split; [|done].
           by apply Forall_app in Hb as [Hb _].
  - rewrite reverse_cons. apply normal_elems_snoc; [done|]. done.
Qed.

Lemma clean_foldl_normal r elems out :
  Forall (λ e, Separator ∉ e) elems →
  normal_elems r (reverse out) →
  normal_elems r (reverse (foldl (clean_step r) out elems)).
Proof.
  intros He. revert out. induction He as [|e elems He _ IH]; intros out Hn; [done|].
  simpl. by apply IH, clean_step_normal.
Qed.

Lemma clean_elems_normal r path : normal_elems r (clean_elems r path).
Proof.
  unfold clean_elems. apply clean_foldl_normal.
  - apply Split_fields_no_sep.
  - apply normal_elems_nil.
Qed.

Lemma norm_normal path : normal_elems (norm path).1 (norm path).2.
Proof.
  destruct path as [|c path]; [apply normal_elems_nil|].
  apply clean_elems_normal.
Qed.

(** Cleaning the elements of a cleaned path keeps them all. *)
Lemma clean_foldl_names r names out :
  Forall valid_name names →
  foldl (clean_step r) out names = reverse names ++ out.
Proof.
  intros Hn. revert out. induction Hn as [|n names Hn _ IH]; intros out; [done|].
  simpl. rewrite clean_step_name, IH by done.
  by rewrite reverse_cons, <- app_assoc.
Qed.

Lemma clean_foldl_dotdots k out :
  Forall (λ e, e = dotdot) out →
  foldl (clean_step false) out (replicate k dotdot) = replicate k dotdot ++ out.
Proof.
  revert out. induction k as [|k IH]; intros out Hout; [done|].
  rewrite replicate_S at 1. simpl foldl.
  assert (clean_step false out dotdot = dotdot :: out) as ->.
  { unfold clean_step. simpl. destruct out as [|top out']; [done|].
    inversion Hout; subst. by rewrite decide_True. }
  rewrite IH by (by constructor).
  rewrite replicate_S_end, <- app_assoc. done.
Qed.

Lemma clean_foldl_of_normal r elems :
  normal_elems r elems → foldl (clean_step r) [] elems = reverse elems.
Proof.
  intros (k & body & -> & Hb & Hr). rewrite foldl_app.
  assert (foldl (clean_step r) [] (replicate k dotdot) = replicate k dotdot) as ->.
  { destruct r.
    - by rewrite Hr.
    - rewrite clean_foldl_dotdots by done. by rewrite app_nil_r. }
  rewrite clean_foldl_names by done.
  by rewrite reverse_app, reverse_replicate.
Qed.

Lemma sep_str : list_ascii_of_string "/" = [Separator].
Proof. done. Qed.

Lemma normal_head_not_sep r e elems :
  normal_elems r (e :: elems) → ∃ c e', e = c :: e' ∧ c ≠ Separator.
Proof.
  intros Hn. apply normal_elems_no_sep in Hn as Hs.
  inversion Hs as [|?? He _]; subst.
  destruct Hn as (k & body & Heq & Hb & _).
  assert (e ≠ []) as Hne.
  { destruct k; simpl in Heq.
    - destruct body; simplify_eq. inversion Hb as [|?? Hv _]; subst. apply Hv.
    - by simplify_eq. }
  destruct e as [|c e']; [done|]. exists c, e'. split; [done|].
  intros ->. apply He. by left.
Qed.

Lemma Split_render_Join elems r :
  elems ≠ [] → normal_elems r elems →
  Split (GoStrings.Join elems "/") Separator = elems.
Proof.
  intros Hne Hn. rewrite sep_str. apply Split_Join; [done|].
  by eapply normal_elems_no_sep.
Qed.

Lemma render_rooted e (elems : list str) :
  render true (e :: elems) = Separator :: GoStrings.Join (e :: elems) "/".
Proof. done. Qed.

Lemma render_relative e (elems : list str) :
  render false (e :: elems) = GoStrings.Join (e :: elems) "/".
Proof. done. Qed.

Lemma norm_render r elems :
  normal_elems r elems → norm (render r elems) = (r, elems).
Proof.
  intros Hn. destruct elems as [|e elems].
  { by destruct r. }
  destruct r.
  - rewrite render_rooted. unfold norm, clean_elems.
    rewrite Ascii.eqb_refl. f_equal.
    change (Separator :: ?x) with ([] ++ Separator :: x).
    rewrite Split_app'. rewrite (Split_render_Join _ true) by done.
    change (foldl (clean_step true) [] (Split [] Separator ++ e :: elems))
      with (foldl (clean_step true) [] (e :: elems)).
    rewrite clean_foldl_of_normal by done. apply reverse_involutive.
  - rewrite render_relative.
    destruct (normal_head_not_sep _ _ _ Hn) as (c & e' & -> & Hc).
    rewrite Join_cons_head. unfold norm, clean_elems.
    apply ascii_eqb_false in Hc. rewrite Hc. f_equal.
    rewrite <- Join_cons_head.
    rewrite (Split_render_Join _ false) by done.
    rewrite clean_foldl_of_normal by done. apply reverse_involutive.
Qed.

Lemma render_inj r elems1 elems2 :
  normal_elems r elems1 → normal_elems r elems2 →
  render r elems1 = render r elems2 → elems1 = elems2.
Proof.
  intros H1 H2 Heq. apply (f_equal norm) in Heq.
  rewrite !norm_render in Heq by done. by simplify_eq.
Qed.

Lemma Clean_render r elems :
  normal_elems r elems → Clean (render r elems) = render r elems.
Proof. intros Hn. by rewrite Clean_norm, norm_render. Qed.

Lemma Clean_idemp path : Clean (Clean path) = Clean path.
Proof. rewrite (Clean_norm path). apply Clean_render, norm_normal. Qed.

(** Joining a name to a path adds one element to its cleaned form. *)
Lemma Join_name path n :
  valid_name n →
  GoFilepath.Join [path; n] = render (norm path).1 ((norm path).2 ++ [n]).
Proof.
  intros Hn. pose proof Hn as (Hne & _ & _ & Hsep).
  assert (∀ r out, foldl (clean_step r) out (Split n Separator) = n :: out) as Hfold.
  { intros r out. rewrite Split_no_sep by done. simpl. by apply clean_step_name. }
  destruct n as [|c n']; [done|].
  assert (Ascii.eqb c Separator = false) as Hc.
  { apply ascii_eqb_false. intros ->. apply Hsep. by left. }
  destruct path as [|d path'].
  - simpl GoFilepath.Join. unfold Clean. rewrite Hc.
    unfold clean_elems. rewrite Hfold. done.
  - unfold GoFilepath.Join. rewrite Join_cons by done.
    change (GoStrings.Join [c :: n'] "/") with (c :: n').
    unfold Clean, norm. simpl app at 1. simpl fst. simpl snd. f_equal.
    unfold clean_elems.
    rewrite sep_str, Split_app_sep, foldl_app, Hfold.
    by rewrite reverse_cons.
Qed.

Lemma norm_Join_name path n :
  valid_name n →
  norm (GoFilepath.Join [path; n]) = ((norm path).1, (norm path).2 ++ [n]).
Proof.
  intros Hn. rewrite Join_name by done. apply norm_render.
  apply normal_elems_snoc; [apply norm_normal|done].
Qed.

Lemma norm_descend path names :
  Forall valid_name names → names ≠ [] →
  norm (descend path names) = ((norm path).1, (norm path).2 ++ names).
Proof.
  induction names as [|n names IH] using rev_ind; [done|].
  intros Hv _. apply Forall_app in Hv as [Hns Hn]. inversion Hn; subst.
  unfold descend in *. rewrite foldl_snoc.
  rewrite norm_Join_name by done.
  destruct names as [|m names']; [done|].
  rewrite IH by done. simpl. by rewrite <- app_assoc.
Qed.

Lemma descend_render path names :
  Forall valid_name names → names ≠ [] →
  descend path names = render (norm path).1 ((norm path).2 ++ names).
Proof.
  intros Hn Hne. destruct names as [|n names _] using rev_ind; [done|].
  apply Forall_app in Hn as [Hns Hn]. inversion Hn; subst.
  unfold descend. rewrite foldl_snoc. rewrite Join_name by done.
  destruct names as [|m names']; [done|].
  fold (descend path (m :: names')).
  rewrite norm_descend by done.
  simpl. by rewrite <- !app_assoc.
Qed.

(** ** [Rel] *)

Lemma cut_no_sep (w : str) : Separator ∉ w → cut w = (w, []).
Proof.
  induction w as [|c w IH]; [done|]. intros H.
  apply not_elem_of_cons in H as [Hc Hw]. simpl.
  apply not_eq_sym, ascii_eqb_false in Hc. rewrite Hc.
  by rewrite IH.
Qed.

Lemma cut_app (w rest : str) :
  Separator ∉ w → cut (w ++ "/" ++ rest) = (w, rest).
Proof.
  induction w as [|c w IH]; [done|]. intros H.
  apply not_elem_of_cons in H as [Hc Hw]. simpl.
  apply not_eq_sym, ascii_eqb_false in Hc. rewrite Hc.
  simpl in IH. by rewrite IH.
Qed.

Lemma cut_Join w (ws : list str) :
  Separator ∉ w → cut (GoStrings.Join (w :: ws) "/") = (w, GoStrings.Join ws "/").
Proof.
  intros Hw. destruct ws as [|x ws].
  - by apply cut_no_sep.
  - rewrite Join_cons by done. by apply cut_app.
Qed.

Lemma rel_scan_step fuel (b t : str) :
  b ≠ [] → t ≠ [] →
  rel_scan (S fuel) b t =
    let '(bw, b') := cut b in
    let '(tw, t') := cut t in
    if decide (tw = bw) then rel_scan fuel b' t' else (b, t, bw).
Proof. by destruct b, t. Qed.

Lemma rel_scan_nil_l fuel (t : str) : rel_scan fuel [] t = ([], t, []).
Proof. by destruct fuel. Qed.

Lemma cut_rest_length (s : str) : length (cut s).2 ≤ length s - 1.
Proof.
  induction s as [|c s IH]; [done|]. simpl.
  destruct (Ascii.eqb c Separator); [simpl; lia|].
  destruct (cut s) as [w r]. simpl in *. lia.
Qed.

(** The loop of [Rel] ends within the fuel that [Rel] gives it: more fuel
    does not change its result. *)
Lemma rel_scan_fuel fuel1 fuel2 (b t : str) :
  length b < fuel1 → length b < fuel2 →
  rel_scan fuel1 b t = rel_scan fuel2 b t.
Proof.
  revert fuel2 b t. induction fuel1 as [|fuel1 IH]; intros fuel2 b t H1 H2; [lia|].
  destruct fuel2 as [|fuel2]; [lia|].
  destruct b as [|c b]; [done|]. destruct t as [|d t]; [done|].
  rewrite !rel_scan_step by done.
  pose proof (cut_rest_length (c :: b)) as Hlen.
  destruct (cut (c :: b)) as [bw b'], (cut (d :: t)) as [tw t'].
  simpl in Hlen, H1, H2. destruct (decide (tw = bw)); [|done].
  apply IH; lia.
Qed.

Lemma Join_nonempty (w : str) (ws : list str) sep :
  w ≠ [] → GoStrings.Join (w :: ws) sep ≠ [].
Proof. intros Hw. destruct ws; [done|]. rewrite Join_cons by done. by destruct w. Qed.

Lemma rel_scan_words (ws ns : list str) fuel :
  Forall (λ w, w ≠ [] ∧ Separator ∉ w) ws → ns ≠ [] →
  Forall (λ w, w ≠ [] ∧ Separator ∉ w) ns →
  length (GoStrings.Join ws "/") < fuel →
  rel_scan fuel (GoStrings.Join ws "/") (GoStrings.Join (ws ++ ns) "/")
  = ([], GoStrings.Join ns "/", []).
Proof.
  intros Hws Hne Hns. revert fuel.
  induction Hws as [|w ws [Hw Hsep] Hws IH]; intros fuel Hf.
  - apply rel_scan_nil_l.
  - destruct fuel as [|fuel]; [lia|].
    rewrite rel_scan_step.
    + simpl app. rewrite !cut_Join by done. rewrite decide_True by done.
      apply IH. destruct w as [|c w']; [done|].
      destruct ws as [|x ws']; [simpl in *; lia|].
      rewrite Join_cons in Hf by done. rewrite !length_app in Hf.
      simpl in *. lia.
    + by apply Join_nonempty.
    + simpl app. by apply Join_nonempty.
Qed.

Lemma normal_elems_words r elems :
  normal_elems r elems → Forall (λ w, w ≠ [] ∧ Separator ∉ w) elems.
Proof.
  intros (k & body & -> & Hb & _). apply Forall_app; split.
  - apply Forall_replicate. split; [done|apply dotdot_no_sep].
  - eapply Forall_impl; [done|]. by intros n (? & _ & _ & ?).
Qed.

Lemma valid_names_words names :
  Forall valid_name names → Forall (λ w, w ≠ [] ∧ Separator ∉ w) names.
Proof. intros H. eapply Forall_impl; [done|]. by intros n (? & _ & _ & ?). Qed.

Lemma HasPrefix_single c (s : str) d : HasPrefix (c :: s) [d] = Ascii.eqb c d.
Proof. simpl. apply andb_true_r. Qed.

Lemma HasPrefix_sep_Join e (elems : list str) r :
  normal_elems r (e :: elems) →
  HasPrefix (GoStrings.Join (e :: elems) "/") "/" = false.
Proof.
  intros Hn. destruct (normal_head_not_sep _ _ _ Hn) as (c & e' & -> & Hc).
  rewrite Join_cons_head, sep_str, HasPrefix_single.
  by apply ascii_eqb_false.
Qed.

Lemma cut_sep (s : str) : cut (Separator :: s) = ([], s).
Proof. done. Qed.

(** The loop of [Rel] on a cleaned base path and a cleaned path below
    it. *)
Lemma rel_scan_render r elems names :
  normal_elems r elems → Forall valid_name names → names ≠ [] →
  let base := if decide (render r elems = ".") then [] else render r elems in
  rel_scan (S (length base)) base (render r (elems ++ names))
  = ([], GoStrings.Join names "/", []).
Proof.
  intros Hb Hv Hne.
  pose proof (valid_names_words _ Hv) as Hw.
  pose proof (normal_elems_words _ _ Hb) as Hwb.
  destruct elems as [|e sb].
  - destruct names as [|n names]; [done|]. destruct r.
    + change (render true []) with [Separator]. rewrite decide_False by done.
      cbv zeta. change ([] ++ n :: names) with (n :: names).
      rewrite render_rooted, rel_scan_step by done.
      rewrite !cut_sep. rewrite decide_True by done. apply rel_scan_nil_l.
    + rewrite decide_True by done. cbv zeta. apply rel_scan_nil_l.
  - assert (render r (e :: sb) ≠ ".") as Hnd.
    { intros Heq. apply (f_equal norm) in Heq.
      rewrite norm_render in Heq by done. by destruct r. }
    rewrite decide_False by done. cbv zeta.
    change ((e :: sb) ++ names) with (e :: (sb ++ names)).
    destruct r.
    + rewrite !render_rooted, rel_scan_step by done.
      rewrite !cut_sep. rewrite decide_True by done.
      apply (rel_scan_words (e :: sb)); [done..|simpl; lia].
    + rewrite !render_relative.
      apply (rel_scan_words (e :: sb)); [done..|lia].
Qed.

(** A path below [base] is, relative to it, the names that lead to it. *)
Lemma Rel_below base path names :
  Forall valid_name names → names ≠ [] →
  norm path = ((norm base).1, (norm base).2 ++ names) →
  Rel base path = Some (GoStrings.Join names "/").
Proof.
  intros Hv Hne Hp. unfold Rel. rewrite !Clean_norm, Hp. simpl fst. simpl snd.
  pose proof (norm_normal base) as Hb.
  destruct (norm base) as [r sb]. simpl fst in *. simpl snd in *.
  assert (normal_elems r (sb ++ names)) as Hbn.
  { clear Hne Hp. induction names as [|n names IH] using rev_ind;
      [by rewrite app_nil_r|].
    apply Forall_app in Hv as [Hv Hn]. inversion Hn; subst.
    rewrite app_assoc. apply normal_elems_snoc; [by apply IH|done]. }
  rewrite decide_False; last first.
  { intros Heq. apply render_inj in Heq; [|done..].
    apply (f_equal length) in Heq. rewrite length_app in Heq.
    destruct names; [done|]. simpl in Heq. lia. }
  cbv zeta. rewrite rel_scan_render by done.
  assert (HasPrefix (if decide (render r sb = ".") then [] else render r sb) "/"
          = HasPrefix (render r (sb ++ names)) "/") as ->.
  { destruct sb as [|e sb].
    - destruct names as [|n names]; [done|]. destruct r.
      + by rewrite decide_False.
      + rewrite decide_True by done. simpl app. rewrite render_relative.
        by rewrite (HasPrefix_sep_Join _ _ false).
    - assert (render r (e :: sb) ≠ ".") as Hnd.
      { intros Heq. apply (f_equal norm) in Heq.
        rewrite norm_render in Heq by done. by destruct r. }
      rewrite decide_False by done.
      change ((e :: sb) ++ names) with (e :: (sb ++ names)) in *.
      destruct r.
      + by rewrite !render_rooted.
      + rewrite !render_relative.
        by rewrite !(HasPrefix_sep_Join _ _ false). }
  rewrite Bool.eqb_reflx. simpl negb. cbv iota.
  unfold rel_finish. by rewrite decide_False.
Qed.

Lemma Rel_self base : Rel base base = Some (list_ascii_of_string ".").
Proof. unfold Rel. by rewrite decide_True. Qed.

Lemma Rel_descend base names :
  Forall valid_name names → names ≠ [] →
  Rel base (descend base names) = Some (GoStrings.Join names "/").
Proof. intros Hv Hne. apply Rel_below; [done..|]. by apply norm_descend. Qed.

(** ** [Base] *)

Lemma Base_nonempty (path : str) :
  path ≠ [] →
  Base path =
    match last (Split (reverse (strip_slashes (reverse path))) Separator) with
    | Some ((_ :: _) as e) => e
    | _ => list_ascii_of_string "/"
    end.
Proof. by destruct path. Qed.

Lemma Base_suffix (pre n : str) :
  valid_name n → (pre = [] ∨ ∃ pre', pre = pre' ++ [Separator]) →
  Base (pre ++ n) = n.
Proof.
  intros (Hne & _ & _ & Hsep) Hpre.
  rewrite Base_nonempty by (by destruct pre, n).
  assert (strip_slashes (reverse (pre ++ n)) = reverse (pre ++ n)) as ->.
  { rewrite reverse_app. destruct n as [|c n _] using rev_ind; [done|].
    rewrite reverse_snoc. simpl.
    assert (c ≠ Separator) as Hc.
    { intros ->. apply Hsep. apply elem_of_app. right. by left. }
    apply ascii_eqb_false in Hc. by rewrite Hc. }
  rewrite reverse_involutive.
  assert (last (Split (pre ++ n) Separator) = Some n) as ->.
  { destruct Hpre as [->|[pre' ->]].
    - simpl. by rewrite Split_no_sep.
    - rewrite <- app_assoc, Split_app_sep, (Split_no_sep n) by done.
      by rewrite last_snoc. }
  by destruct n.
Qed.

Lemma render_snoc r elems n :
  ∃ pre, render r (elems ++ [n]) = pre ++ n
         ∧ (pre = [] ∨ ∃ pre', pre = pre' ++ [Separator]).
Proof.
  destruct elems as [|e elems].
  - destruct r.
    + exists [Separator]. split; [done|]. right. by exists [].
    + exists []. split; [done|]. by left.
  - change ((e :: elems) ++ [n]) with (e :: (elems ++ [n])).
    assert (GoStrings.Join (e :: elems ++ [n]) "/"
            = (GoStrings.Join (e :: elems) "/" ++ [Separator]) ++ n) as HJ.
    { change (e :: elems ++ [n]) with ((e :: elems) ++ [n]).
      rewrite Join_snoc by done. by rewrite <- app_assoc. }
    destruct r.
    + rewrite render_rooted, HJ.
      exists (Separator :: GoStrings.Join (e :: elems) "/" ++ [Separator]).
      split; [done|]. right.
      by exists (Separator :: GoStrings.Join (e :: elems) "/").
    + rewrite render_relative, HJ.
      exists (GoStrings.Join (e :: elems) "/" ++ [Separator]).
      split; [done|]. right. by exists (GoStrings.Join (e :: elems) "/").
Qed.

Lemma Base_descend path names n :
  Forall valid_name names → valid_name n →
  Base (descend path (names ++ [n])) = n.
Proof.
  intros Hv Hn. rewrite descend_render; [| |by destruct names].
  - rewrite app_assoc.
    destruct (render_snoc (norm path).1 ((norm path).2 ++ names) n)
      as (pre & -> & Hpre).
    by apply Base_suffix.
  - apply Forall_app. split; [done|by constructor].
Qed.

(** ** The metadata directory *)

Lemma git_element_ignored (names : list str) :
  (".git" : str) ∈ names →
  HasPrefix (GoStrings.Join names "/") ".git"
  || Contains (GoStrings.Join names "/") "/.git" = true.
Proof.
  intros Hin. apply list_elem_of_split in Hin as (l1 & l2 & ->).
  apply orb_true_iff. destruct l1 as [|x l1].
  - left. destruct l2 as [|y l2]; [reflexivity|].
    simpl app. rewrite Join_cons by done. apply HasPrefix_app.
  - right. apply Contains_true.
    rewrite Join_app by done.
    destruct l2 as [|y l2].
    + exists (GoStrings.Join (x :: l1) "/"), []. rewrite app_nil_r. reflexivity.
    + exists (GoStrings.Join (x :: l1) "/"),
        ("/" ++ GoStrings.Join (y :: l2) "/").
      rewrite (Join_cons _ (y :: l2)) by done. reflexivity.
Qed.

(** Splitting the joined names of a path gives the names back. *)
Lemma Split_Join_names (names : list str) :
  Forall valid_name names → names ≠ [] →
  Split (GoStrings.Join names "/") Separator = names.
Proof.
  intros Hv Hne. rewrite sep_str. apply Split_Join; [done|].
  eapply Forall_impl; [done|]. by intros n (_ & _ & _ & ?).
Qed.

(** * Paths that [validateFilePath] accepts *)

Lemma HasPrefix_dotdot_app (x y : str) :
  HasPrefix (x ++ Separator :: y) ".." = HasPrefix x "..".
Proof.
  by destruct x as [|e [|f x]].
Qed.

Lemma Contains_dotdot_app (x y : str) :
  Contains (x ++ Separator :: y) ".." = Contains x ".." || Contains y "..".
Proof.
  induction x as [|e x IH].
  - simpl app. change (Contains [] "..") with false.
    change (Contains (Separator :: y) "..") with (false || Contains y "..").
    done.
  - change ((e :: x) ++ Separator :: y) with (e :: (x ++ Separator :: y)).
    change (Contains (e :: x ++ Separator :: y) "..")
      with (HasPrefix ((e :: x) ++ Separator :: y) ".."
            || Contains (x ++ Separator :: y) "..").
    change (Contains (e :: x) "..")
      with (HasPrefix (e :: x) ".." || Contains x "..").
    rewrite HasPrefix_dotdot_app, IH. by rewrite orb_assoc.
Qed.

Lemma Contains_dotdot_Join (names : list str) :
  Forall (λ n, Contains n ".." = false) names →
  Contains (GoStrings.Join names "/") ".." = false.
Proof.
  induction 1 as [|n names Hn Hns IH]; [done|].
  destruct names as [|m names]; [done|].
  rewrite Join_cons by done.
  change (n ++ "/" ++ ?x) with (n ++ Separator :: x).
  by rewrite Contains_dotdot_app, Hn, IH.
Qed.

Lemma normal_names names : Forall valid_name names → normal_elems false names.
Proof. intros Hv. by exists 0, names. Qed.

Lemma Clean_Join_names names :
  Forall valid_name names → names ≠ [] →
  Clean (GoStrings.Join names "/") = GoStrings.Join names "/".
Proof.
  intros Hv Hne. destruct names as [|n names]; [done|].
  rewrite <- render_relative. by apply Clean_render, normal_names.
Qed.

Lemma Join_empty_first (p : str) : p ≠ [] → GoFilepath.Join [[]; p] = Clean p.
Proof. by destruct p. Qed.

(** Joining a relative path made of names to a path adds its names to
    the cleaned form. *)
Lemma Join_names path names :
  Forall valid_name names → names ≠ [] →
  GoFilepath.Join [path; GoStrings.Join names "/"] = descend path names.
Proof.
  intros Hv Hne. rewrite descend_render by done.
  destruct names as [|n names]; [done|].
  assert (GoStrings.Join (n :: names) "/" ≠ []) as HJ.
  { apply Join_nonempty. inversion Hv as [|?? Hn _]; subst. apply Hn. }
  destruct path as [|d path'].
  - rewrite Join_empty_first, Clean_Join_names by done. done.
  - unfold GoFilepath.Join. rewrite Join_cons by done.
    change (GoStrings.Join [GoStrings.Join (n :: names) "/"] "/")
      with (GoStrings.Join (n :: names) "/").
    unfold Clean, norm. simpl app at 1. simpl fst. simpl snd. f_equal.
    unfold clean_elems.
    rewrite sep_str, Split_app_sep, foldl_app. rewrite <- sep_str.
    rewrite Split_Join_names by done.
    rewrite clean_foldl_names by done.
    by rewrite reverse_app, reverse_involutive.
Qed.

(** A relative path made of names without two dots in a row is accepted,
    and resolves to the path that these names lead to from the base
    directory. *)
Lemma validateFilePath_accepts (s : Config) (names : list str) :
  Forall valid_name names → names ≠ [] →
  Forall (λ n, Contains n ".." = false) names →
  validateFilePath s (GoStrings.Join names "/")
  = Ok (descend (BasePath s) names).
Proof.
  intros Hv Hne Hdd. unfold validateFilePath.
  rewrite Clean_Join_names by done.
  pose proof (Contains_dotdot_Join names Hdd) as Hc. rewrite Hc.
  rewrite Join_names, Rel_descend by done.
  destruct (HasPrefix (GoStrings.Join names "/") "..") eqn:Hp; [|done].
  apply Contains_HasPrefix in Hp. congruence.
Qed.

(** * The tree builder *)

Lemma node_shape_ok_file node :
  node_shape_ok node → Type_ node = "file" →
  Children node = [] ∧ is_Some (Size node).
Proof. intros [(_ & ? & ?)|[Hd _]] Hf; [done|]. rewrite Hd in Hf. done. Qed.

Lemma node_shape_ok_directory node :
  node_shape_ok node → Type_ node = "directory" → Size node = None.
Proof. intros [[Hf _]|[_ ?]] Hd; [|done]. rewrite Hf in Hd. done. Qed.

Lemma is_name_valid n : is_name n = true ↔ valid_name n.
Proof.
  unfold is_name, valid_name.
  rewrite !andb_true_iff, !negb_true_iff, !bool_decide_eq_false. tauto.
Qed.

Lemma wf_fs_Directory entries :
  wf_fs (Directory entries) = true ↔
  Forall (λ e, valid_name e.1 ∧ wf_fs e.2 = true) entries.
Proof.
  induction entries as [|[n o] es IH].
  - split; [constructor|done].
  - change (wf_fs (Directory ((n, o) :: es)))
      with (is_name n && wf_fs o && wf_fs (Directory es)).
    rewrite !andb_true_iff, is_name_valid, IH, Forall_cons. simpl. tauto.
Qed.

(** Induction on a file tree, with the property for every entry of a
    directory. *)
Lemma fsobj_tree_ind (P : fsobj → Prop) :
  P NoEntry → (∀ size, P (RegularFile size)) →
  (∀ entries, Forall (λ e, P e.2) entries → P (Directory entries)) →
  P UnreadableDirectory → ∀ obj, P obj.
Proof.
  intros H1 H2 H3 H4.
  fix IH 1. intros [| size | entries |]; [done|done| |done].
  apply H3. induction entries as [|[n o] es IHes]; constructor; [apply IH|done].
Qed.

Lemma descendants_cons name type size c cs path :
  descendants (mkFileNode name type size (c :: cs) path)
  = ([Name c], c)
    :: ((λ '(names, d), (Name c :: names, d)) <$> descendants c)
    ++ descendants (mkFileNode name type size cs path).
Proof. done. Qed.

Section Tree.
Variable Match : str → str → bool.
Variable s : Config.
Variable filter : GitignoreFilter.
Hypothesis filter_base : basePath filter = BasePath s.

Lemma build_Directory dirPath depth entries :
  buildFileTreeWithFilter Match s dirPath depth filter (Directory entries)
  = if ShouldIgnore Match filter dirPath then Ok None
    else Ok (Some (mkFileNode (Base dirPath) "directory" None
                     (build_children Match s dirPath depth filter entries)
                     match Rel (BasePath s) dirPath with
                     | Some r => if decide (r = ".") then [] else r
                     | None => []
                     end)).
Proof. done. Qed.

Lemma build_children_cons dirPath depth name o rest :
  build_children Match s dirPath depth filter ((name, o) :: rest)
  = let childPath := GoFilepath.Join [dirPath; name] in
    if ShouldIgnore Match filter childPath
    then build_children Match s dirPath depth filter rest
    else
      match buildFileTreeWithFilter Match s childPath (depth + 1) filter o with
      | Ok (Some child) =>
          child :: build_children Match s dirPath depth filter rest
      | _ => build_children Match s dirPath depth filter rest
      end.
Proof. simpl. repeat case_match; done. Qed.

Lemma relPath_descend names :
  Forall valid_name names →
  match Rel (BasePath s) (descend (BasePath s) names) with
  | Some r => if decide (r = ".") then [] else r
  | None => []
  end = GoStrings.Join names "/".
Proof.
  intros Hv. destruct names as [|n names].
  - simpl. rewrite Rel_self. by rewrite decide_True.
  - rewrite Rel_descend by done. rewrite decide_False; [done|].
    intros Heq. apply (f_equal (λ p, Split p Separator)) in Heq.
    rewrite Split_Join_names in Heq by done.
    inversion Hv as [|?? (_ & Hn & _) _]; subst.
    destruct names; simplify_eq. simpl in Heq. by simplify_eq.
Qed.

Lemma not_ignored_no_git names :
  Forall valid_name names → names ≠ [] →
  ShouldIgnore Match filter (descend (BasePath s) names) = false →
  (".git" : str) ∉ names.
Proof.
  intros Hv Hne Hig Hin. unfold ShouldIgnore in Hig.
  rewrite filter_base, Rel_descend in Hig by done.
  by rewrite git_element_ignored in Hig.
Qed.

Lemma fs_reach_snoc root names entries n o :
  (names = [] ∧ root = Directory entries)
  ∨ fs_reach root names (Directory entries) →
  (n, o) ∈ entries → fs_reach root (names ++ [n]) o.
Proof.
  intros [[-> ->]|Hr] Hin; [by constructor|].
  remember (Directory entries) as d eqn:Hd.
  induction Hr as [es m o' Hm|es m o' ms o'' Hm Hr IH]; subst.
  - change ([m] ++ [n]) with (m :: [n]).
    eapply reach_deeper; [done|]. by constructor.
  - change ((m :: ms) ++ [n]) with (m :: (ms ++ [n])).
    eapply reach_deeper; [done|]. by apply IH.
Qed.

Lemma build_children_ok root names depth all entries :
  Forall valid_name names →
  (names = [] ∧ root = Directory all) ∨ fs_reach root names (Directory all) →
  Forall (λ e, e ∈ all) entries →
  Forall (λ e, valid_name e.1 ∧ wf_fs e.2 = true) entries →
  Forall (λ e, build_spec Match s filter root e.2) entries →
  ∀ name type size path,
    Forall (λ '(ns, d), built_ok root (names ++ ns) d)
      (descendants
         (mkFileNode name type size
            (build_children Match s (descend (BasePath s) names) depth
               filter entries) path)).
Proof.
  intros Hv Hreach Hall Hwf IH name type size path.
  induction entries as [|[n o] es IHes]; [constructor|].
  inversion IH as [|?? IHo IHrest]; subst.
  inversion Hwf as [|?? [Hn Ho] Hwfes]; subst. simpl in Hn, Ho, IHo.
  inversion Hall as [|?? Hin Halles]; subst.
  specialize (IHes Halles Hwfes IHrest).
  rewrite build_children_cons. cbv zeta.
  assert (GoFilepath.Join [descend (BasePath s) names; n]
          = descend (BasePath s) (names ++ [n])) as ->.
  { unfold descend. by rewrite foldl_snoc. }
  destruct (ShouldIgnore Match filter (descend (BasePath s) (names ++ [n])))
    eqn:Hig; [done|].
  assert (Forall valid_name (names ++ [n])) as Hv'.
  { apply Forall_app. split; [done|by constructor]. }
  assert ((".git" : str) ∉ names ++ [n]) as Hng.
  { apply not_ignored_no_git; [done|by destruct names|done]. }
  assert (fs_reach root (names ++ [n]) o) as Hro.
  { by eapply fs_reach_snoc. }
  destruct (buildFileTreeWithFilter Match s
              (descend (BasePath s) (names ++ [n])) (depth + 1) filter o)
    as [[child|]|] eqn:Hbc; [|done..].
  apply IHo in Hbc as (Hp & Hl & Hs & Hdc & Hd); [|done|done|by right].
  rewrite last_snoc in Hl.
  assert (Name child = n) as Hname.
  { specialize (Hl ltac:(by destruct names)). by simplify_eq. }
  rewrite descendants_cons, Hname.
  constructor; [|apply Forall_app; split].
  - unfold built_ok. rewrite last_snoc, Hname. repeat split; [done..|].
    by exists o.
  - apply Forall_fmap. eapply Forall_impl; [exact Hd|].
    intros [ns d] Hok. simpl. by rewrite <- app_assoc in Hok.
  - exact IHes.
Qed.

Lemma build_descendants root obj : build_spec Match s filter root obj.
Proof.
  induction obj as [| size | entries IH |] using fsobj_tree_ind;
    intros names depth node Hwf Hv Hreach Hb.
  - simpl in Hb. by case_match.
  - (* a file *)
    simpl in Hb. case_match; [done|].
    rewrite relPath_descend in Hb by done.
    inversion Hb; subst; clear Hb. simpl. repeat split.
    + intros Hne. destruct names as [|n names _] using rev_ind; [done|].
      apply Forall_app in Hv as [Hv Hn]. inversion Hn; subst.
      by rewrite last_snoc, Base_descend.
    + left. by repeat split.
    + constructor.
  - (* a directory *)
    rewrite build_Directory in Hb. case_match; [done|].
    rewrite relPath_descend in Hb by done.
    inversion Hb; subst; clear Hb.
    split; [done|]. split; [|split; [|split]].
    + intros Hne. destruct names as [|n names _] using rev_ind; [done|].
      apply Forall_app in Hv as [Hv Hn]. inversion Hn; subst.
      simpl. by rewrite last_snoc, Base_descend.
    + right. by split.
    + done.
    + apply (build_children_ok root names depth entries entries);
        [done|done| |by apply wf_fs_Directory|done].
      by apply Forall_forall.
  - simpl in Hb. by case_match.
Qed.

End Tree.

(** C8: whatever the base directory and the ignore file are, no node
    below the root of the tree of the structure operation is named [.git],
    none is found by going down through a node named [.git], and no
    element of the [path] of a node is [.git].  The entries of the
    directories are assumed to have names that directory entries can
    have. *)
Theorem structure_never_lists_git (Match : str → str → bool) (s : Config)
    (gitignore : option str) (root : fsobj) (tree : FileNode) :
  wf_fs root = true →
  structure_of (handleReadFileStructure Match s gitignore root) = Some tree →
  Forall (λ '(names, node),
            ((".git" : str) ∉ names)
            ∧ Name node ≠ ".git"
            ∧ ((".git" : str) ∉ Split (Path node) "/"))
    (descendants tree).
Proof.
  intros Hwf Hs. unfold handleReadFileStructure in Hs.
  destruct (buildFileTreeWithFilter _ _ _ _ _ _) as [[node|]|] eqn:Hb;
    simpl in Hs; simplify_eq.
  apply (build_descendants Match s (NewGitignoreFilter (BasePath s) gitignore)
           eq_refl root root []) in Hb
    as (_ & _ & _ & _ & Hd); [|done|done|by left].
  eapply Forall_impl; [exact Hd|].
  intros [names node] (Hv & Hp & Hl & Hg & _). simpl in *.
  split; [done|]. split.
  - intros Hn. apply Hg. rewrite <- Hn. by apply last_Some_elem_of.
  - rewrite Hp, Split_Join_names; [done|done|]. by intros ->.
Qed.

(** C9: in the tree of the structure operation, the root has the empty
    [path], every node is either a file with no children and a size or a
    directory with no size, and every node below the root has for [path]
    the names that lead to it from the base directory, joined by slashes,
    the last of them being its [name]; this is the path of an object of
    the file tree, which the node describes. *)
Theorem structure_node_invariants (Match : str → str → bool) (s : Config)
    (gitignore : option str) (root : fsobj) (tree : FileNode) :
  wf_fs root = true →
  structure_of (handleReadFileStructure Match s gitignore root) = Some tree →
  Path tree = [] ∧ node_shape_ok tree ∧ describes root tree
  ∧ Forall (λ '(names, node),
              node_shape_ok node
              ∧ Path node = GoStrings.Join names "/"
              ∧ last names = Some (Name node)
              ∧ ∃ obj, fs_reach root names obj ∧ describes obj node)
      (descendants tree).
Proof.
  intros Hwf Hs. unfold handleReadFileStructure in Hs.
  destruct (buildFileTreeWithFilter _ _ _ _ _ _) as [[node|]|] eqn:Hb;
    simpl in Hs; simplify_eq.
  apply (build_descendants Match s (NewGitignoreFilter (BasePath s) gitignore)
           eq_refl root root []) in Hb
    as (Hp & _ & Hshape & Hdesc & Hd); [|done|done|by left].
  repeat split; [done..|].
  eapply Forall_impl; [exact Hd|].
  by intros [names node] (Hv & Hp' & Hl & Hg & Hs' & Hobj).
Qed.

(** C8 on a base directory with a metadata directory at two depths. *)
Lemma structure_never_lists_git_example :
  Forall (λ '(names, node),
            ((".git" : str) ∉ names)
            ∧ Name node ≠ ".git"
            ∧ ((".git" : str) ∉ Split (Path node) "/"))
    (descendants example_tree).
Proof.
  apply (structure_never_lists_git literal_match srv_config
           (Some example_gitignore) example_fs example_tree).
  - reflexivity.
  - reflexivity.
Defined.

(** C9 on the same base directory. *)
Lemma structure_node_invariants_example :
  Path example_tree = [] ∧ node_shape_ok example_tree
  ∧ describes example_fs example_tree
  ∧ Forall (λ '(names, node),
              node_shape_ok node
              ∧ Path node = GoStrings.Join names "/"
              ∧ last names = Some (Name node)
              ∧ ∃ obj, fs_reach example_fs names obj ∧ describes obj node)
      (descendants example_tree).
Proof.
  apply (structure_node_invariants literal_match srv_config
           (Some example_gitignore) example_fs example_tree).
  - reflexivity.
  - reflexivity.
Defined.

(** * Trimming keeps a leading exclamation mark *)

Lemma DecodeRune_size_pos (s : str) :
  s ≠ [] → 1 ≤ (DecodeRuneInString s).2.
Proof.
  intros Hs. destruct s as [|c0 s]; [done|].
  unfold DecodeRuneInString. repeat case_match; simpl; lia.
Qed.

Lemma last_rune_start_lt (s : str) : s ≠ [] → last_rune_start s < length s.
Proof.
  intros Hs. destruct s as [|c s]; [done|].
  unfold last_rune_start. simpl length. repeat case_match; lia.
Qed.

Lemma DecodeLast_size_pos (s : str) :
  s ≠ [] → 1 ≤ (DecodeLastRuneInString s).2.
Proof.
  intros Hs. unfold DecodeLastRuneInString.
  destruct (last s) as [c|] eqn:Hl; [|by apply last_None in Hl].
  destruct (byteval c <? RuneSelf)%N; [simpl; lia|].
  pose proof (last_rune_start_lt s Hs) as Hlt.
  destruct (DecodeRuneInString (drop (last_rune_start s) s)) as [r size].
  destruct (last_rune_start s + size =? length s) eqn:He; simpl; [|lia].
  apply Nat.eqb_eq in He. lia.
Qed.

(** The backward loop of [TrimRightFunc] ends within the fuel it is
    given. *)
Lemma lastIndexNotSpace_fuel fuel1 fuel2 (s : str) i :
  i ≤ length s → i ≤ fuel1 → i ≤ fuel2 →
  lastIndexNotSpace fuel1 s i = lastIndexNotSpace fuel2 s i.
Proof.
  revert fuel2 i. induction fuel1 as [|fuel1 IH]; intros fuel2 i Hi H1 H2.
  { replace i with 0 by lia. by destruct fuel2. }
  destruct fuel2 as [|fuel2].
  { replace i with 0 by lia. done. }
  destruct i as [|i]; [done|]. simpl.
  pose proof (DecodeLast_size_pos (take (S i) s)) as Hsz.
  destruct (DecodeLastRuneInString (take (S i) s)) as [r size]. simpl in Hsz.
  assert (1 ≤ size) as Hpos.
  { apply Hsz. destruct s; [simpl in Hi; lia|done]. }
  destruct (IsSpace r); [|done].
  apply IH; lia.
Qed.

Lemma DecodeLast_bang (t : str) :
  1 ≤ (DecodeLastRuneInString (bang :: t)).2
  ∧ (IsSpace (DecodeLastRuneInString (bang :: t)).1 = false
     ∨ (DecodeLastRuneInString (bang :: t)).2 < length (bang :: t)).
Proof.
  unfold DecodeLastRuneInString.
  destruct (last (bang :: t)) as [c|] eqn:Hl; [|by apply last_None in Hl].
  destruct (byteval c <? RuneSelf)%N eqn:Hc.
  - simpl. split; [lia|]. destruct t as [|d t]; [|right; simpl; lia].
    left. simpl in Hl. by simplify_eq.
  - pose proof (last_rune_start_lt (bang :: t) ltac:(done)) as Hlt.
    destruct (DecodeRuneInString (drop (last_rune_start (bang :: t)) (bang :: t)))
      as [r size] eqn:Hd.
    destruct (last_rune_start (bang :: t) + size =? length (bang :: t)) eqn:He.
    + apply Nat.eqb_eq in He. simpl fst. simpl snd. split; [lia|].
      destruct (last_rune_start (bang :: t)) as [|k] eqn:Hk; [|right; lia].
      left. rewrite drop_0 in Hd. simpl in Hd. by simplify_eq.
    + simpl. split; [lia|]. by left.
Qed.

Lemma lastIndexNotSpace_bang (t : str) fuel :
  ∀ i, 1 ≤ i ≤ length (bang :: t) → i ≤ fuel →
       ∃ j, lastIndexNotSpace fuel (bang :: t) i = Some j ∧ j < i.
Proof.
  induction fuel as [|fuel IH]; intros i Hi Hf; [lia|].
  simpl lastIndexNotSpace.
  destruct (i =? 0) eqn:Hi0; [apply Nat.eqb_eq in Hi0; lia|].
  destruct i as [|i']; [lia|]. rewrite firstn_cons.
  pose proof (DecodeLast_bang (take i' t)) as [Hsz Hsp].
  destruct (DecodeLastRuneInString (bang :: take i' t)) as [r size].
  simpl in Hsz, Hsp.
  destruct (IsSpace r) eqn:Hr.
  - destruct Hsp as [?|Hlt]; [done|].
    rewrite length_take in Hlt. simpl in Hi.
    destruct (IH (S i' - size)) as (j & Hj & Hlt'); [simpl; lia|lia|].
    exists j. split; [done|lia].
  - exists (S i' - size). split; [done|lia].
Qed.

Lemma take_bang n (t : str) : 1 ≤ n → take n (bang :: t) = bang :: take (n - 1) t.
Proof. intros Hn. destruct n; [lia|]. simpl. by rewrite Nat.sub_0_r. Qed.

Lemma TrimRightSpace_bang (t : str) :
  ∃ rest, TrimRightSpace (bang :: t) = bang :: rest.
Proof.
  unfold TrimRightSpace.
  destruct (lastIndexNotSpace_bang t (length (bang :: t)) (length (bang :: t)))
    as (j & -> & Hj); [simpl; lia|lia|].
  destruct ((bang :: t) !! j) as [c|] eqn:Hc.
  - destruct (RuneSelf <=? byteval c)%N eqn:Hrs.
    + destruct j as [|j]; [simpl in Hc; by simplify_eq|].
      eexists. apply take_bang. lia.
    + eexists. apply take_bang. lia.
  - eexists. apply take_bang. lia.
Qed.

Lemma trim_right_ascii_bang (rs : str) :
  ∀ t, reverse rs = bang :: t → ∃ rest, trim_right_ascii rs = bang :: rest.
Proof.
  induction rs as [|c rs IH]; intros t Hrev; [done|].
  simpl trim_right_ascii.
  destruct (RuneSelf <=? byteval c)%N.
  { rewrite Hrev. apply TrimRightSpace_bang. }
  destruct (asciiSpace c) eqn:Hsp; [|by eexists].
  rewrite reverse_cons in Hrev.
  destruct (reverse rs) as [|d rrs] eqn:Hr.
  - simpl in Hrev. by simplify_eq.
  - simpl in Hrev. simplify_eq. by apply (IH rrs).
Qed.

Lemma TrimSpace_bang (t : str) : ∃ rest, TrimSpace (bang :: t) = bang :: rest.
Proof.
  change (TrimSpace (bang :: t)) with (trim_right_ascii (reverse (bang :: t))).
  apply (trim_right_ascii_bang _ t). apply reverse_involutive.
Qed.

Lemma dropCR_bang (t : str) : ∃ rest, dropCR (bang :: t) = bang :: rest.
Proof.
  unfold dropCR. destruct (last (bang :: t)) as [c|] eqn:Hl; [|by eexists].
  destruct (Ascii.eqb c "013") eqn:Hc; [|by eexists].
  destruct t as [|d t]; [simpl in Hl; by simplify_eq|].
  eexists. apply take_bang. simpl. lia.
Qed.

(** A line that begins with an exclamation mark is a negation line. *)
Lemma bang_line_is_negation (line : str) :
  HasPrefix line "!" = true → is_negation_line line = true.
Proof.
  intros [t ->]%HasPrefix_true. unfold is_negation_line.
  change ("!" ++ t) with (bang :: t).
  destruct (dropCR_bang t) as [t1 ->].
  destruct (TrimSpace_bang t1) as [t2 ->]. done.
Qed.

(** * The ignore file *)

Lemma scan_fields_cons line rest :
  rest ≠ [] →
  scan_fields (line :: rest)
  = if fits line then dropCR line :: scan_fields rest else [].
Proof. by destruct rest. Qed.

Lemma add_pattern_negation pats text :
  HasPrefix (TrimSpace text) "!" = true → add_pattern pats text = pats.
Proof.
  intros H. unfold add_pattern. rewrite H.
  destruct (TrimSpace text) as [|c l]; [done|].
  simpl in H. apply andb_true_iff in H as [Hc _].
  apply ascii_eqb_true in Hc as ->. done.
Qed.

Lemma patterns_insert_field pats (A B : list str) neg :
  B ≠ [] → fits neg = true → is_negation_line neg = true →
  foldl add_pattern pats (scan_fields (A ++ neg :: B))
  = foldl add_pattern pats (scan_fields (A ++ B)).
Proof.
  intros HB Hfit Hneg. revert pats. induction A as [|a A IH]; intros pats.
  - simpl app. rewrite scan_fields_cons, Hfit by done. simpl.
    by rewrite add_pattern_negation.
  - change ((a :: A) ++ ?l) with (a :: (A ++ l)).
    rewrite !scan_fields_cons by (by destruct A).
    destruct (fits a); [|done]. simpl. apply IH.
Qed.

Lemma patterns_last_field pats (A : list str) neg :
  fits neg = true → is_negation_line neg = true →
  foldl add_pattern pats (scan_fields (A ++ [neg]))
  = foldl add_pattern pats (scan_fields (A ++ [[]])).
Proof.
  intros Hfit Hneg. revert pats. induction A as [|a A IH]; intros pats.
  - simpl. assert (neg ≠ []) by (intros ->; done).
    destruct neg; [done|]. rewrite Hfit. simpl.
    by rewrite add_pattern_negation.
  - change ((a :: A) ++ ?l) with (a :: (A ++ l)).
    rewrite !scan_fields_cons by (by destruct A).
    destruct (fits a); [|done]. simpl. apply IH.
Qed.

Lemma Split_insert_line pre neg post :
  line_start pre → newline ∉ neg →
  ∃ A, Split (pre ++ neg ++ [newline] ++ post) newline
         = A ++ neg :: Split post newline
       ∧ Split (pre ++ post) newline = A ++ Split post newline.
Proof.
  intros [->|[pre' ->]] Hneg.
  - exists []. rewrite !app_nil_l. by rewrite Split_app_sep, Split_no_sep.
  - exists (Split pre' newline). rewrite <- !app_assoc.
    rewrite (Split_app_sep pre'), (Split_app_sep neg), (Split_app_sep pre').
    by rewrite (Split_no_sep neg).
Qed.

Lemma Split_append_line pre neg :
  line_start pre → newline ∉ neg →
  ∃ A, Split (pre ++ neg) newline = A ++ [neg]
       ∧ Split pre newline = A ++ [[]].
Proof.
  intros [->|[pre' ->]] Hneg.
  - exists []. rewrite !app_nil_l. by rewrite Split_no_sep.
  - exists (Split pre' newline). rewrite <- !app_assoc.
    change [newline] with ([newline] ++ []) at 2.
    rewrite !(Split_app_sep pre'). by rewrite (Split_no_sep neg).
Qed.

Lemma patterns_of_file base data :
  patterns (NewGitignoreFilter base (Some data))
  = foldl add_pattern [".git" : str; ".git/" : str]
      (scan_fields (Split data newline)).
Proof. done. Qed.

(** Within the limit of the scanner, the claim of C7 holds: a negation
    line that fits the buffer, added at the start of a line (with its
    newline, or without one at the end of the file), changes neither the
    patterns of the filter nor any answer of [ShouldIgnore].  By
    [bang_line_is_negation] this covers every line that begins with an
    exclamation mark. *)
Theorem negation_line_is_inert (Match : str → str → bool)
    (base pre post neg path : str) :
  line_start pre → newline ∉ neg →
  is_negation_line neg = true →
  fits neg = true →
  (patterns (NewGitignoreFilter base (Some (pre ++ neg ++ [newline] ++ post)))
   = patterns (NewGitignoreFilter base (Some (pre ++ post)))
   ∧ ShouldIgnore Match
       (NewGitignoreFilter base (Some (pre ++ neg ++ [newline] ++ post))) path
     = ShouldIgnore Match (NewGitignoreFilter base (Some (pre ++ post))) path)
  ∧ (patterns (NewGitignoreFilter base (Some (pre ++ neg)))
     = patterns (NewGitignoreFilter base (Some pre))
     ∧ ShouldIgnore Match (NewGitignoreFilter base (Some (pre ++ neg))) path
       = ShouldIgnore Match (NewGitignoreFilter base (Some pre)) path).
Proof.
  intros Hpre Hnl Hneg Hfit.
  assert (patterns (NewGitignoreFilter base (Some (pre ++ neg ++ [newline] ++ post)))
          = patterns (NewGitignoreFilter base (Some (pre ++ post)))) as H1.
  { rewrite !patterns_of_file.
    destruct (Split_insert_line pre neg post Hpre Hnl) as (A & -> & ->).
    apply patterns_insert_field; [apply Split_nonempty|done..]. }
  assert (patterns (NewGitignoreFilter base (Some (pre ++ neg)))
          = patterns (NewGitignoreFilter base (Some pre))) as H2.
  { rewrite !patterns_of_file.
    destruct (Split_append_line pre neg Hpre Hnl) as (A & -> & ->).
    by apply patterns_last_field. }
  unfold ShouldIgnore. rewrite H1, H2. done.
Qed.

(** The line ["!keep.txt"] added between two lines of an ignore file. *)
Lemma negation_line_is_inert_example :
  ShouldIgnore literal_match
    (NewGitignoreFilter srv
       (Some (("build/" ++ [newline]) ++ "!keep.txt" ++ [newline]
              ++ ("secret/" ++ [newline]))))
    "/srv/secret/x.txt"
  = ShouldIgnore literal_match
      (NewGitignoreFilter srv
         (Some (("build/" ++ [newline]) ++ ("secret/" ++ [newline]))))
      "/srv/secret/x.txt".
Proof.
  apply (negation_line_is_inert literal_match srv ("build/" ++ [newline])
           ("secret/" ++ [newline]) "!keep.txt" "/srv/secret/x.txt").
  - right. by exists (list_ascii_of_string "build/").
  - apply (proj1 (bool_decide_eq_false (newline ∈ ("!keep.txt" : str)))).
    reflexivity.
  - reflexivity.
  - reflexivity.
Defined.

(** C7: the claim says that adding a negation line to the ignore file
    never makes an ignored path reappear.  The code drops the negation
    lines it reads, but it stops reading at a line of 65536 bytes or more
    and never looks at the error of the scanner: with the pattern
    [secret/] alone the file [secret/x.txt] is ignored, and it is no longer
    ignored once a negation line of 65536 bytes stands before that
    pattern. *)
Theorem long_negation_line_hides_patterns :
  line_start [] ∧ (newline ∉ long_negation_line)
  ∧ HasPrefix long_negation_line "!" = true
  ∧ ShouldIgnore literal_match
      (NewGitignoreFilter srv (Some ([] ++ ("secret/" ++ [newline]))))
      "/srv/secret/x.txt" = true
  ∧ ShouldIgnore literal_match
      (NewGitignoreFilter srv
         (Some ([] ++ long_negation_line ++ [newline]
                ++ ("secret/" ++ [newline]))))
      "/srv/secret/x.txt" = false.
Proof.
  split; [by left|]. split.
  - apply (proj1 (bool_decide_eq_false (newline ∈ long_negation_line))).
    vm_compute. reflexivity.
  - vm_compute. done.
Qed.

(** * The search *)

Lemma parse_line_record s m line :
  parse_line s m line
  = match record_of s line with
    | Some (key, gl) => <[key := default [] (m !! key) ++ [gl]]> m
    | None => m
    end.
Proof.
  unfold parse_line, record_of. repeat case_match; done.
Qed.

Lemma lines_of_app recs1 recs2 key :
  lines_of (recs1 ++ recs2) key = lines_of recs1 key ++ lines_of recs2 key.
Proof. unfold lines_of. by rewrite filter_app, fmap_app. Qed.

Lemma lines_of_nil_iff recs key : lines_of recs key = [] ↔ key ∉ recs.*1.
Proof.
  unfold lines_of. induction recs as [|[k gl] recs IH]; simpl.
  - split; [intros _; apply not_elem_of_nil|done].
  - rewrite filter_cons. simpl. rewrite not_elem_of_cons.
    destruct (decide (k = key)) as [->|Hne]; simpl.
    + split; [done|]. by intros [? _].
    + rewrite IH. split; [by intros ?; split|by intros [_ ?]].
Qed.

(** The map [parseGrepOutput] builds has, under each key, the lines
    recorded under it. *)
Lemma lines_of_singleton k gl key :
  lines_of [(k, gl)] key = if decide (k = key) then [gl] else [].
Proof.
  unfold lines_of. rewrite filter_cons, filter_nil. simpl.
  by destruct (decide (k = key)).
Qed.

Lemma parse_lines_lookup s (lines : list str) key :
  foldl (parse_line s) ∅ lines !! key
  = match lines_of (omap (record_of s) lines) key with
    | [] => None
    | l => Some l
    end.
Proof.
  induction lines as [|line lines IH] using rev_ind; [done|].
  rewrite foldl_snoc, parse_line_record, omap_app, lines_of_app.
  change (omap (record_of s) [line])
    with (match record_of s line with Some r => [r] | None => [] end).
  destruct (record_of s line) as [[k gl]|].
  - rewrite lines_of_singleton.
    destruct (decide (k = key)) as [->|Hne].
    + rewrite lookup_insert_eq, IH.
      by destruct (lines_of _ _).
    + rewrite lookup_insert_ne, IH by done. by rewrite app_nil_r.
  - change (lines_of [] key) with (@nil GrepLine). by rewrite app_nil_r.
Qed.

Lemma first_seen_keys_spec (keys : list str) :
  NoDup (first_seen_keys keys) ∧ ∀ k, k ∈ first_seen_keys keys ↔ k ∈ keys.
Proof.
  unfold first_seen_keys.
  assert (∀ seen, NoDup seen →
            NoDup (foldl (λ seen k, if decide (k ∈ seen) then seen else seen ++ [k]) seen keys)
            ∧ ∀ k, k ∈ foldl (λ seen k, if decide (k ∈ seen) then seen else seen ++ [k]) seen keys
                   ↔ k ∈ seen ∨ k ∈ keys) as H.
  { induction keys as [|x keys IH]; intros seen Hnd; simpl.
    - split; [done|]. intros k. rewrite elem_of_nil. tauto.
    - destruct (decide (x ∈ seen)) as [Hin|Hnin].
      + destruct (IH seen Hnd) as [H1 H2]. split; [done|].
        intros k. rewrite H2, elem_of_cons. split; [tauto|].
        intros [?|[->|?]]; tauto.
      + assert (NoDup (seen ++ [x])) as Hnd'.
        { apply NoDup_app. split; [done|]. split; [|apply NoDup_singleton].
          intros y Hy Hy'. apply list_elem_of_singleton in Hy' as ->. done. }
        destruct (IH _ Hnd') as [H1 H2]. split; [done|].
        intros k. rewrite H2, elem_of_app, list_elem_of_singleton, elem_of_cons.
        tauto. }
  destruct (H [] (NoDup_nil_2)) as [H1 H2]. split; [done|].
  intros k. rewrite H2, elem_of_nil. tauto.
Qed.

Lemma NoDup_first_seen_keys keys : NoDup (first_seen_keys keys).
Proof. apply first_seen_keys_spec. Qed.

Lemma elem_of_first_seen_keys keys k : k ∈ first_seen_keys keys ↔ k ∈ keys.
Proof. apply first_seen_keys_spec. Qed.

(** C1, amended: whatever order the runtime visits the map in, the
    [matches] sequence produced by output parsing is a permutation of the
    file groups in first-seen order: one group for each file path met in
    the raw output, holding the lines recorded for that path in the order
    of the output.  The order of the groups themselves is the order of the
    iteration over the map. *)
Theorem parseGrepOutput_groups (s : Config) (env : Env) (output : str) :
  range_permutes env →
  parseGrepOutput s env output ≡ₚ first_seen_groups s output.
Proof.
  intros Hrange. unfold parseGrepOutput, first_seen_groups, records.
  destruct output as [|c output']; [reflexivity|].
  set (lines := Split (TrimSpace (c :: output')) "010").
  change (Split (TrimSpace (c :: output')) newline) with lines.
  set (recs := omap (record_of s) lines).
  rewrite (Hrange (foldl (parse_line s) ∅ lines)).
  transitivity
    ((λ '(filePath, lines0), {| FilePath := filePath; Lines := lines0 |})
       <$> ((λ key, (key, lines_of recs key)) <$> first_seen_keys recs.*1)).
  - apply fmap_Permutation. apply NoDup_Permutation.
    + apply NoDup_map_to_list.
    + apply NoDup_fmap_2; [|apply NoDup_first_seen_keys].
      intros k1 k2 Heq. by simplify_eq.
    + intros [k v]. rewrite elem_of_map_to_list, parse_lines_lookup.
      fold recs. rewrite list_elem_of_fmap. split.
      * intros Hl. exists k.
        destruct (lines_of recs k) as [|gl l] eqn:El; [done|]. simplify_eq.
        split; [done|]. apply elem_of_first_seen_keys.
        destruct (decide (k ∈ recs.*1)) as [|Hn]; [done|].
        apply lines_of_nil_iff in Hn. congruence.
      * intros (k' & Heq & Hin). simplify_eq.
        apply (proj1 (elem_of_first_seen_keys _ _)) in Hin.
        destruct (lines_of recs k') as [|gl l] eqn:El; [|done].
        apply lines_of_nil_iff in El. contradiction.
  - rewrite <- list_fmap_compose. reflexivity.
Qed.

(** The amended C1 on the output for a pattern found in two files. *)
Lemma parseGrepOutput_groups_example :
  range_permutes (quiet_os forward_range)
  ∧ parseGrepOutput srv_config (quiet_os forward_range) two_files_output
    ≡ₚ first_seen_groups srv_config two_files_output.
Proof.
  assert (range_permutes (quiet_os forward_range)) as H.
  { intros m. reflexivity. }
  split; [exact H|].
  exact (parseGrepOutput_groups srv_config (quiet_os forward_range)
           two_files_output H).
Defined.

(** C1 as stated fails: [b.txt] is met first in the output and [a.txt]
    second, and with a runtime that visits the map in the order of
    [reverse_range], which visits each entry once, the groups come out as
    [a.txt] then [b.txt]. *)
Lemma reverse_range_breaks_first_seen_order :
  range_permutes (quiet_os reverse_range)
  ∧ FilePath <$> first_seen_groups srv_config two_files_output
    = ["b.txt" : str; "a.txt" : str]
  ∧ FilePath <$> parseGrepOutput srv_config (quiet_os reverse_range)
                   two_files_output
    = ["a.txt" : str; "b.txt" : str]
  ∧ parseGrepOutput srv_config (quiet_os reverse_range) two_files_output
    ≠ first_seen_groups srv_config two_files_output.
Proof.
  split; [|split; [|split]].
  - intros m. apply reverse_Permutation.
  - vm_compute. reflexivity.
  - vm_compute. reflexivity.
  - intros Heq. apply (f_equal (fmap FilePath)) in Heq.
    vm_compute in Heq. discriminate.
Qed.

(** The three ways a grep process can end, and under an exit error whether
    the status is 1. *)
Ltac grep_outcomes env :=
  unfold query_result, executeGrepQuery, io_bind, exec_grep;
  destruct (runGrep env _) as [?|code ? ?|?]; simpl;
  try destruct (decide (code = 1%Z)); simpl.

Lemma executeGrepQuery_trace s env query cl :
  (executeGrepQuery s env query cl).2 = [EvExec "grep" (grep_args s query cl)].
Proof.
  by grep_outcomes env.
Qed.

Lemma search_loop_cons s env cl i query rest results :
  search_loop s env cl i (query :: rest) results
  = let '(final, t) :=
      search_loop s env cl (S i) rest
        (<[i := query_result s env cl query]> results) in
    (final, EvExec "grep" (grep_args s query cl) :: t).
Proof.
  simpl search_loop. unfold io_bind at 1, query_result.
  pose proof (executeGrepQuery_trace s env query cl) as Ht.
  destruct (executeGrepQuery s env query cl) as [[r|e] t];
    simpl in Ht; subst t; simpl; by destruct (search_loop _ _ _ _ _ _).
Qed.

Lemma search_loop_spec s env cl queries :
  ∀ i results,
    i + length queries ≤ length results →
    search_loop s env cl i queries results
    = (take i results ++ (query_result s env cl <$> queries)
         ++ drop (i + length queries) results,
       search_trace s cl queries).
Proof.
  induction queries as [|query rest IH]; intros i results Hlen.
  - simpl. rewrite Nat.add_0_r, take_drop. done.
  - simpl in Hlen. rewrite search_loop_cons.
    rewrite IH by (rewrite length_insert; lia).
    set (x := query_result s env cl query).
    rewrite (take_S_r (<[i:=x]> results) i x)
      by (apply list_lookup_insert_eq; lia).
    rewrite take_insert_ge by lia.
    rewrite drop_insert_lt by lia.
    rewrite fmap_cons. fold x.
    replace (S i + length rest) with (i + length (query :: rest))
      by (simpl; lia).
    by rewrite <- app_assoc.
Qed.

Lemma query_result_Query s env cl query :
  Query (query_result s env cl query) = Pattern query.
Proof.
  by grep_outcomes env.
Qed.

Lemma query_result_Error s env cl query :
  is_Some (Error (query_result s env cl query))
  ↔ grep_failed (runGrep env (grep_args s query cl)) = true.
Proof.
  unfold query_result, executeGrepQuery, io_bind, exec_grep.
  destruct (runGrep env _) as [out|code out msg|msg]; simpl.
  - split; [by intros [? ?]|done].
  - destruct (decide (code = 1%Z)) as [->|Hne]; simpl.
    + split; [by intros [? ?]|done].
    + split; [|by eexists]. intros _. apply negb_true_iff. lia.
  - split; [done|by eexists].
Qed.

(** A call with a decoded list of 1 to 20 queries runs the loop and
    returns what it stored. *)
Lemma handleGrepSearch_runs
    (json_Unmarshal : str → option (list GrepQuery)) (s : Config) (env : Env)
    (args : gmap str ArgValue) (queriesStr : str) (queries : list GrepQuery) :
  args !! ("queries" : str) = Some (AString queriesStr) →
  json_Unmarshal queriesStr = Some queries →
  1 ≤ length queries ≤ 20 →
  handleGrepSearch json_Unmarshal s env args
  = (NewToolResultText
       (SearchPayload (BasePath s) (context_lines_of args)
          (query_result s env (context_lines_of args) <$> queries)),
     search_trace s (context_lines_of args) queries).
Proof.
  intros Hq Hj Hn. unfold handleGrepSearch. rewrite Hq, Hj.
  rewrite decide_False by lia. rewrite decide_False by lia.
  fold (context_lines_of args). unfold io_bind.
  rewrite search_loop_spec by (rewrite length_replicate; lia).
  simpl. rewrite drop_replicate, Nat.sub_diag. simpl.
  by rewrite !app_nil_r.
Qed.

(** C3: a search call with a decoded list of 1 to 20 queries runs grep
    once for each query, in order, and returns one result for each query,
    at the position of the query; the result at a position is the one of
    that query alone: it echoes its pattern, and it carries an error
    exactly when the process of that query failed, whatever the other
    queries do. *)
Theorem search_results_follow_queries
    (json_Unmarshal : str → option (list GrepQuery)) (s : Config) (env : Env)
    (args : gmap str ArgValue) (queriesStr : str) (queries : list GrepQuery) :
  args !! ("queries" : str) = Some (AString queriesStr) →
  json_Unmarshal queriesStr = Some queries →
  1 ≤ length queries ≤ 20 →
  ∃ results,
    handleGrepSearch json_Unmarshal s env args
    = (NewToolResultText
         (SearchPayload (BasePath s) (context_lines_of args) results),
       search_trace s (context_lines_of args) queries)
    ∧ length results = length queries
    ∧ ∀ i query,
        queries !! i = Some query →
        ∃ r, results !! i = Some r
             ∧ r = query_result s env (context_lines_of args) query
             ∧ Query r = Pattern query
             ∧ (is_Some (Error r)
                ↔ grep_failed
                    (runGrep env (grep_args s query (context_lines_of args)))
                  = true).
Proof.
  intros Hq Hj Hn.
  exists (query_result s env (context_lines_of args) <$> queries).
  split; [|split].
  - by apply (handleGrepSearch_runs _ _ _ _ queriesStr).
  - by rewrite length_fmap.
  - intros i query Hi. eexists. split; [|split; [done|split]].
    + by rewrite list_lookup_fmap, Hi.
    + apply query_result_Query.
    + apply query_result_Error.
Qed.

(** C3 on three queries: the second one is rejected by grep, the first
    and the third have their results. *)
Lemma search_results_follow_queries_example :
  ∃ results,
    handleGrepSearch decode_example srv_config grep_os (search_args "three")
    = (NewToolResultText
         (SearchPayload (BasePath srv_config)
            (context_lines_of (search_args "three")) results),
       search_trace srv_config (context_lines_of (search_args "three"))
         [query_for "alpha"; query_for "["; query_for "omega"])
    ∧ length results
      = length [query_for "alpha"; query_for "["; query_for "omega"]
    ∧ ∀ i query,
        [query_for "alpha"; query_for "["; query_for "omega"] !! i = Some query →
        ∃ r, results !! i = Some r
             ∧ r = query_result srv_config grep_os
                     (context_lines_of (search_args "three")) query
             ∧ Query r = Pattern query
             ∧ (is_Some (Error r)
                ↔ grep_failed
                    (runGrep grep_os
                       (grep_args srv_config query
                          (context_lines_of (search_args "three"))))
                  = true).
Proof.
  apply (search_results_follow_queries decode_example srv_config grep_os
           (search_args "three") "three").
  - reflexivity.
  - reflexivity.
  - simpl. lia.
Defined.

(** C4: the result stored for an executed query is decided by how the
    grep process ended.  With the exit status 1 it has the pattern, no
    match and no error; with any other exit status that is not 0, or when
    the process could not be run, it has no match and the error "grep
    command failed: ..."; with the exit status 0 it has no error and the
    matches parsed from the output.  So an error is set exactly when the
    process failed in another way than by the exit status 1. *)
Theorem grep_exit_status_decides_error (s : Config) (env : Env)
    (query : GrepQuery) (contextLines : Z) :
  let r := query_result s env contextLines query in
  match runGrep env (grep_args s query contextLines) with
  | Exited0 output =>
      r = {| Query := Pattern query;
             Matches := parseGrepOutput s env output; Error := None |}
  | ExitError code _ msg =>
      if decide (code = 1%Z)
      then r = {| Query := Pattern query; Matches := []; Error := None |}
      else r = {| Query := Pattern query; Matches := [];
                  Error := Some ("grep command failed: " ++ msg) |}
  | StartError msg =>
      r = {| Query := Pattern query; Matches := [];
             Error := Some ("grep command failed: " ++ msg) |}
  end
  ∧ (is_Some (Error r)
     ↔ grep_failed (runGrep env (grep_args s query contextLines)) = true).
Proof.
  split; [|apply query_result_Error].
  by grep_outcomes env.
Qed.

(** C5: once the queries are decoded, a call with no query fails with
    "At least one search query is required" and a call with more than 20
    queries fails with "Maximum 20 search queries allowed", both before
    any process is run (the trace is empty); a call with exactly 20
    queries passes the validation and returns 20 results. *)
Theorem query_count_is_validated_first
    (json_Unmarshal : str → option (list GrepQuery)) (s : Config) (env : Env)
    (args : gmap str ArgValue) (queriesStr : str) (queries : list GrepQuery) :
  args !! ("queries" : str) = Some (AString queriesStr) →
  json_Unmarshal queriesStr = Some queries →
  (length queries = 0 →
   handleGrepSearch json_Unmarshal s env args
   = (NewToolResultError NoQueries, []))
  ∧ (20 < length queries →
     handleGrepSearch json_Unmarshal s env args
     = (NewToolResultError TooManyQueries, []))
  ∧ (length queries = 20 →
     ∃ results,
       (handleGrepSearch json_Unmarshal s env args).1
       = NewToolResultText
           (SearchPayload (BasePath s) (context_lines_of args) results)
       ∧ length results = 20).
Proof.
  intros Hq Hj. split; [|split]; intros Hn.
  - unfold handleGrepSearch. rewrite Hq, Hj. by rewrite decide_True.
  - unfold handleGrepSearch. rewrite Hq, Hj.
    rewrite decide_False by lia. by rewrite decide_True.
  - rewrite (handleGrepSearch_runs json_Unmarshal s env args queriesStr queries)
      by (done || lia).
    eexists. split; [done|]. by rewrite length_fmap.
Qed.

(** C5 on a call with 21 queries. *)
Lemma query_count_is_validated_first_example :
  (length (replicate 21 (query_for "omega")) = 0 →
   handleGrepSearch decode_example srv_config grep_os (search_args "twenty-one")
   = (NewToolResultError NoQueries, []))
  ∧ (20 < length (replicate 21 (query_for "omega")) →
     handleGrepSearch decode_example srv_config grep_os
       (search_args "twenty-one")
     = (NewToolResultError TooManyQueries, []))
  ∧ (length (replicate 21 (query_for "omega")) = 20 →
     ∃ results,
       (handleGrepSearch decode_example srv_config grep_os
          (search_args "twenty-one")).1
       = NewToolResultText
           (SearchPayload (BasePath srv_config)
              (context_lines_of (search_args "twenty-one")) results)
       ∧ length results = 20).
Proof.
  apply (query_count_is_validated_first decode_example srv_config grep_os
           (search_args "twenty-one") "twenty-one").
  - reflexivity.
  - reflexivity.
Defined.

(** * Reading a file *)

Lemma handleReadFileContents_invalid s env args filePath e :
  args !! ("file_path" : str) = Some (AString filePath) →
  validateFilePath s filePath = Err e →
  handleReadFileContents s env args
  = (NewToolResultError (InvalidFilePath e), []).
Proof. intros Ha Hv. unfold handleReadFileContents. by rewrite Ha, Hv. Qed.

(** C10: path validation rejects as path traversal every input whose
    cleaned form has two dots in a row anywhere, and read_file_contents
    then fails with "Invalid file path" without touching the file system.
    This holds also when the input is a plain file name such as
    [notes..txt]: cleaning leaves it as it is, it has no parent-directory
    element, and the file it names lies directly in the base directory. *)
Theorem double_dot_anywhere_is_rejected (s : Config) (filePath : str) :
  Contains (Clean filePath) ".." = true →
  validateFilePath s filePath = Err ErrPathTraversal
  ∧ (∀ env args,
       args !! ("file_path" : str) = Some (AString filePath) →
       handleReadFileContents s env args
       = (NewToolResultError (InvalidFilePath ErrPathTraversal), []))
  ∧ (is_name filePath = true →
     Clean filePath = filePath
     ∧ ((".." : str) ∉ Split filePath "/")
     ∧ Rel (BasePath s) (GoFilepath.Join [BasePath s; filePath])
       = Some filePath).
Proof.
  intros Hc.
  assert (validateFilePath s filePath = Err ErrPathTraversal) as Hv.
  { unfold validateFilePath. by rewrite Hc. }
  split; [done|]. split.
  - intros env args Ha. by apply (handleReadFileContents_invalid _ _ _ filePath).
  - intros Hn. apply is_name_valid in Hn.
    assert (normal_elems false [filePath]) as Hnf.
    { exists 0, [filePath]. split; [done|]. split; [by constructor|done]. }
    split; [|split].
    + apply (Clean_render false [filePath] Hnf).
    + destruct Hn as (_ & _ & Hdd & Hsep).
      change (Split filePath "/") with (Split filePath Separator).
      rewrite Split_no_sep by done.
      intros Heq%list_elem_of_singleton. congruence.
    + change (GoFilepath.Join [BasePath s; filePath])
        with (descend (BasePath s) [filePath]).
      rewrite Rel_descend; [done| |done]. by constructor.
Qed.

(** C10 on the file name [notes..txt]. *)
Lemma double_dot_anywhere_is_rejected_example :
  validateFilePath srv_config "notes..txt" = Err ErrPathTraversal
  ∧ (∀ env args,
       args !! ("file_path" : str) = Some (AString "notes..txt") →
       handleReadFileContents srv_config env args
       = (NewToolResultError (InvalidFilePath ErrPathTraversal), []))
  ∧ (is_name "notes..txt" = true →
     Clean "notes..txt" = list_ascii_of_string "notes..txt"
     ∧ ((".." : str) ∉ Split ("notes..txt" : str) "/")
     ∧ Rel (BasePath srv_config)
         (GoFilepath.Join [BasePath srv_config; "notes..txt" : str])
       = Some (list_ascii_of_string "notes..txt")).
Proof.
  apply (double_dot_anywhere_is_rejected srv_config "notes..txt").
  reflexivity.
Defined.

(** C2, amended: when the cleaned form of the requested path has a
    parent-directory element, validation fails with "path traversal not
    allowed"; when the path recomputed relative to the base directory
    begins with two dots, it fails too, with that error or with "path
    outside of allowed directory".  In both cases read_file_contents
    returns "Invalid file path" and makes no call to the file system.
    Nothing is said of a parent-directory element that cleaning
    removes. *)
Theorem parent_segment_after_cleaning_is_rejected (s : Config) (env : Env)
    (args : gmap str ArgValue) (filePath : str) :
  args !! ("file_path" : str) = Some (AString filePath) →
  ((".." : str) ∈ Split (Clean filePath) "/"
   ∨ ∃ relPath,
       Rel (BasePath s) (GoFilepath.Join [BasePath s; Clean filePath])
       = Some relPath
       ∧ HasPrefix relPath ".." = true) →
  ∃ e, validateFilePath s filePath = Err e
       ∧ handleReadFileContents s env args
         = (NewToolResultError (InvalidFilePath e), [])
       ∧ ((".." : str) ∈ Split (Clean filePath) "/" → e = ErrPathTraversal).
Proof.
  intros Ha Hseg.
  assert (∃ e, validateFilePath s filePath = Err e
               ∧ ((".." : str) ∈ Split (Clean filePath) "/"
                  → e = ErrPathTraversal)) as (e & He & Hpt).
  { unfold validateFilePath.
    destruct (Contains (Clean filePath) "..") eqn:Hc.
    - by exists ErrPathTraversal.
    - destruct Hseg as [Hin|(relPath & Hrel & Hpre)].
      + apply elem_of_Split_Contains in Hin. congruence.
      + rewrite Hrel, Hpre. exists ErrOutsideBase. split; [done|].
        intros Hin. apply elem_of_Split_Contains in Hin. congruence. }
  exists e. split; [done|]. split; [|done].
  by apply (handleReadFileContents_invalid _ _ _ filePath).
Qed.

(** The amended C2 on the path [../etc/passwd]. *)
Lemma parent_segment_after_cleaning_is_rejected_example :
  ∃ e, validateFilePath srv_config "../etc/passwd" = Err e
       ∧ handleReadFileContents srv_config (one_file_os "/etc/passwd" "root")
           (contents_args "../etc/passwd")
         = (NewToolResultError (InvalidFilePath e), [])
       ∧ ((".." : str) ∈ Split (Clean "../etc/passwd") "/"
          → e = ErrPathTraversal).
Proof.
  apply (parent_segment_after_cleaning_is_rejected srv_config
           (one_file_os "/etc/passwd" "root") (contents_args "../etc/passwd")
           "../etc/passwd").
  - reflexivity.
  - left. apply (bool_decide_unpack _). reflexivity.
Defined.

(** C6, amended: for a requested path that passes validation and
    resolves to a file of size [size] that can be read, read_file_contents
    returns the path as requested, [size_bytes = size] and the whole
    content when the size is at most the configured maximum; when the size
    exceeds it, the call fails with "File too large", built from the size
    and from the maximum, after [os.Stat] alone: the file is not read. *)
Theorem contents_size_limit (s : Config) (env : Env)
    (args : gmap str ArgValue) (filePath fullPath : str) (size : Z)
    (content : str) :
  args !! ("file_path" : str) = Some (AString filePath) →
  validateFilePath s filePath = Ok fullPath →
  stat env fullPath = Some size →
  readFile env fullPath = Some content →
  ((size ≤ MaxFileSize s)%Z →
   handleReadFileContents s env args
   = (NewToolResultText (ContentsPayload filePath size content),
      [EvStat fullPath; EvReadFile fullPath]))
  ∧ ((MaxFileSize s < size)%Z →
     handleReadFileContents s env args
     = (NewToolResultError (FileTooLarge size (MaxFileSize s)),
        [EvStat fullPath])).
Proof.
  intros Ha Hv Hs Hr.
  unfold handleReadFileContents, io_bind, os_Stat, os_ReadFile.
  rewrite Ha, Hv, Hs, Hr. split; intros Hsz.
  - by rewrite (proj2 (Z.ltb_ge _ _) Hsz).
  - by rewrite (proj2 (Z.ltb_lt _ _) Hsz).
Qed.

(** The amended C6 on a file of five bytes. *)
Lemma contents_size_limit_example :
  ((5 ≤ MaxFileSize srv_config)%Z →
   handleReadFileContents srv_config (one_file_os "/srv/a.txt" "hello")
     (contents_args "a.txt")
   = (NewToolResultText (ContentsPayload "a.txt" 5 "hello"),
      [EvStat "/srv/a.txt"; EvReadFile "/srv/a.txt"]))
  ∧ ((MaxFileSize srv_config < 5)%Z →
     handleReadFileContents srv_config (one_file_os "/srv/a.txt" "hello")
       (contents_args "a.txt")
     = (NewToolResultError (FileTooLarge 5 (MaxFileSize srv_config)),
        [EvStat "/srv/a.txt"])).
Proof.
  apply (contents_size_limit srv_config (one_file_os "/srv/a.txt" "hello")
           (contents_args "a.txt") "a.txt" "/srv/a.txt" 5 "hello");
    reflexivity.
Defined.

(** C2 as stated fails: the path [a/../b] has a parent-directory element
    before cleaning, it is accepted, and the file it names is read. *)
Lemma cleaned_away_parent_segment_is_accepted :
  (".." : str) ∈ Split ("a/../b" : str) "/"
  ∧ validateFilePath srv_config "a/../b" = Ok (list_ascii_of_string "/srv/b")
  ∧ handleReadFileContents srv_config (one_file_os "/srv/b" "hello")
      (contents_args "a/../b")
    = (NewToolResultText (ContentsPayload "a/../b" 5 "hello"),
       [EvStat "/srv/b"; EvReadFile "/srv/b"]).
Proof.
  split; [|split].
  - apply (bool_decide_unpack _). by vm_compute.
  - by vm_compute.
  - by vm_compute.
Qed.

(** C6 as stated fails: the file [notes..txt] lies in the base
    directory, can be read and is smaller than the maximum, and the call
    fails with "Invalid file path". *)
Lemma file_with_double_dot_name_is_not_read :
  is_name "notes..txt" = true
  ∧ GoFilepath.Join [BasePath srv_config; "notes..txt" : str]
    = list_ascii_of_string "/srv/notes..txt"
  ∧ stat (one_file_os "/srv/notes..txt" "hello") "/srv/notes..txt" = Some 5%Z
  ∧ readFile (one_file_os "/srv/notes..txt" "hello") "/srv/notes..txt"
    = Some (list_ascii_of_string "hello")
  ∧ (5 ≤ MaxFileSize srv_config)%Z
  ∧ handleReadFileContents srv_config (one_file_os "/srv/notes..txt" "hello")
      (contents_args "notes..txt")
    = (NewToolResultError (InvalidFilePath ErrPathTraversal), []).
Proof. repeat split; by vm_compute. Qed.

(** * Path validation, for every requested path *)

Lemma render_normal_nonempty r (elems : list str) :
  normal_elems r elems → render r elems ≠ [].
Proof.
  intros Hn. destruct elems as [|e elems]; [by destruct r|].
  destruct r; [done|]. rewrite render_relative.
  destruct (normal_head_not_sep _ _ _ Hn) as (c & e' & -> & _).
  by rewrite Join_cons_head.
Qed.

Lemma Clean_nonempty path : Clean path ≠ [].
Proof. rewrite Clean_norm. apply render_normal_nonempty, norm_normal. Qed.

Lemma Clean_rooted (path : str) :
  HasPrefix path "/" = true → HasPrefix (Clean path) "/" = true.
Proof.
  destruct path as [|c path]; [done|]. rewrite sep_str, HasPrefix_single.
  intros Hc. unfold Clean. rewrite Hc.
  by destruct (clean_elems true (c :: path)).
Qed.

Lemma norm_rooted (path : str) : (norm path).1 = HasPrefix path "/".
Proof. destruct path as [|c path]; [done|]. by rewrite sep_str, HasPrefix_single. Qed.

(** The loop of [Clean] over the elements of a cleaned path without
    parent-directory elements keeps its names. *)
Lemma clean_foldl_render r r' out (names : list str) :
  Forall valid_name names →
  foldl (clean_step r) out (Split (render r' names) Separator)
  = reverse names ++ out.
Proof.
  intros Hv. destruct names as [|n names].
  { by destruct r'. }
  destruct r'.
  - rewrite render_rooted.
    change (Separator :: ?x) with ([] ++ Separator :: x).
    rewrite Split_app', Split_Join_names by done.
    change (Split [] Separator ++ ?l) with ([] :: l).
    change (foldl (clean_step r) out ([] :: ?l))
      with (foldl (clean_step r) out l).
    by apply clean_foldl_names.
  - rewrite render_relative, Split_Join_names by done.
    by apply clean_foldl_names.
Qed.

(** The elements of a cleaned path in which two dots never follow each
    other are names. *)
Lemma no_dotdot_names path :
  Contains (Clean path) ".." = false → Forall valid_name (norm path).2.
Proof.
  rewrite Clean_norm. pose proof (norm_normal path) as (k & body & Heq & Hb & Hk).
  destruct (norm path) as [r elems]. cbn [fst snd] in *. subst elems.
  destruct k as [|k]; [done|]. intros Hc. exfalso.
  destruct r; [by specialize (Hk eq_refl)|].
  change (replicate (S k) dotdot ++ body)
    with (dotdot :: replicate k dotdot ++ body) in Hc.
  rewrite render_relative in Hc.
  pose proof (elem_of_Join_Contains [] (replicate k dotdot ++ body) dotdot "/")
    as Hin.
  simpl app in Hin. unfold dotdot in *. congruence.
Qed.

(** Joining a cleaned path without parent-directory elements to a path
    that is not empty adds its names to the elements of that path. *)
Lemma Join_cleaned base path :
  base ≠ [] → Forall valid_name (norm path).2 →
  GoFilepath.Join [base; Clean path]
  = render (norm base).1 ((norm base).2 ++ (norm path).2).
Proof.
  intros Hb Hv. destruct base as [|d base']; [done|].
  unfold GoFilepath.Join. rewrite Join_cons by done.
  change (GoStrings.Join [Clean path] "/") with (Clean path).
  unfold Clean at 1, norm at 1 2. simpl app at 1. simpl fst. simpl snd. f_equal.
  unfold clean_elems.
  rewrite sep_str, Split_app_sep, foldl_app.
  rewrite (Clean_norm path), clean_foldl_render by done.
  by rewrite reverse_app, reverse_involutive.
Qed.

Lemma Rel_Clean base : Rel base (Clean base) = Some (list_ascii_of_string ".").
Proof. unfold Rel. rewrite Clean_idemp. by rewrite decide_True. Qed.

(** The relative path from a path to the one reached by adding names. *)
Lemma Rel_render base (names : list str) :
  Forall valid_name names →
  Rel base (render (norm base).1 ((norm base).2 ++ names))
  = Some (if decide (names = []) then list_ascii_of_string "."
          else GoStrings.Join names "/").
Proof.
  intros Hv. destruct (decide (names = [])) as [->|Hne].
  - rewrite app_nil_r, <- Clean_norm. apply Rel_Clean.
  - apply Rel_below; [done..|]. apply norm_render.
    pose proof (norm_normal base) as (k & body & Heq & Hbody & Hk).
    exists k, (body ++ names). rewrite Heq, <- app_assoc.
    split; [done|]. split; [by apply Forall_app|done].
Qed.

Lemma no_dotdot_prefix (names : list str) r :
  Contains (render r names) ".." = false →
  HasPrefix (if decide (names = []) then list_ascii_of_string "."
             else GoStrings.Join names "/") ".." = false.
Proof.
  intros Hc. destruct (decide (names = [])) as [->|Hne]; [done|].
  destruct (HasPrefix (GoStrings.Join names "/") "..") eqn:Hp; [|done].
  apply Contains_HasPrefix in Hp. destruct names as [|n names]; [done|].
  destruct r; [|by rewrite render_relative in Hc; congruence].
  rewrite render_rooted in Hc.
  change (Contains (Separator :: ?x) ?y)
    with (HasPrefix (Separator :: x) y || Contains x y) in Hc.
  apply orb_false_iff in Hc as [_ Hc]. congruence.
Qed.

(** X1: with a base path that is not empty, [validateFilePath] accepts a
    requested path exactly when its cleaned form nowhere has two dots in a
    row, and it then returns the cleaned path joined to the base path.  The
    second test of the function never fails: the error "path outside of
    allowed directory" is not returned. *)
Theorem validateFilePath_decides (s : Config) (filePath : str) :
  BasePath s ≠ [] →
  validateFilePath s filePath
  = if Contains (Clean filePath) ".." then Err ErrPathTraversal
    else Ok (GoFilepath.Join [BasePath s; Clean filePath]).
Proof.
  intros Hb. unfold validateFilePath.
  destruct (Contains (Clean filePath) "..") eqn:Hc; [done|].
  pose proof (no_dotdot_names _ Hc) as Hv.
  rewrite Join_cleaned, Rel_render by done.
  rewrite Clean_norm in Hc. by rewrite (no_dotdot_prefix _ _ Hc).
Qed.

Lemma normal_app_names path (names : list str) :
  Forall valid_name names →
  normal_elems (norm path).1 ((norm path).2 ++ names).
Proof.
  intros Hv. pose proof (norm_normal path) as (k & body & Heq & Hbody & Hk).
  exists k, (body ++ names). rewrite Heq, <- app_assoc.
  split; [done|]. split; [by apply Forall_app|done].
Qed.

(** The same for an empty base path and a cleaned path that is not
    rooted. *)
Lemma Join_cleaned_relative base path :
  base ≠ [] ∨ (norm path).1 = false → Forall valid_name (norm path).2 →
  GoFilepath.Join [base; Clean path]
  = render (norm base).1 ((norm base).2 ++ (norm path).2).
Proof.
  intros [Hb|Hr] Hv; [by apply Join_cleaned|].
  destruct base as [|d base']; [|by apply Join_cleaned].
  rewrite Join_empty_first by apply Clean_nonempty.
  by rewrite Clean_idemp, Clean_norm, Hr.
Qed.

(** No path is relative to the empty base path and rooted. *)
Lemma Rel_empty_rooted (names : list str) :
  normal_elems true names → Rel [] (render true names) = None.
Proof.
  intros Hn. unfold Rel. rewrite Clean_render by done.
  change (Clean []) with (list_ascii_of_string ".").
  rewrite decide_False; [|by destruct names].
  rewrite decide_True by done. by destruct names.
Qed.

(** What an accepted path is made of. *)
Lemma validateFilePath_Ok (s : Config) (filePath fullPath : str) :
  validateFilePath s filePath = Ok fullPath →
  ∃ names,
    Forall valid_name names
    ∧ fullPath = render (norm (BasePath s)).1 ((norm (BasePath s)).2 ++ names)
    ∧ Clean filePath = render (norm filePath).1 names
    ∧ Contains (Clean filePath) ".." = false.
Proof.
  unfold validateFilePath.
  destruct (Contains (Clean filePath) "..") eqn:Hc; [done|].
  pose proof (no_dotdot_names _ Hc) as Hv. intros Hok.
  exists (norm filePath).2. split; [done|].
  rewrite <- Clean_norm. split; [|done].
  assert (BasePath s ≠ [] ∨ (norm filePath).1 = false) as Hcase.
  { destruct (BasePath s) as [|d b] eqn:Hb; [|by left]. right.
    destruct (norm filePath).1 eqn:Hr; [|done]. exfalso.
    rewrite Join_empty_first in Hok by apply Clean_nonempty.
    rewrite Clean_idemp, Clean_norm, Hr in Hok.
    rewrite Rel_empty_rooted in Hok; [done|].
    rewrite <- Hr. apply norm_normal. }
  rewrite Join_cleaned_relative in Hok by done.
  rewrite Rel_render in Hok by done.
  rewrite Clean_norm in Hc. rewrite (no_dotdot_prefix _ _ Hc) in Hok.
  by simplify_eq.
Qed.

(** An accepted path is the base directory or lies below it. *)
Lemma accepted_below_base (s : Config) (filePath fullPath : str) :
  validateFilePath s filePath = Ok fullPath → below_base s fullPath.
Proof.
  intros (names & Hv & -> & _ & _)%validateFilePath_Ok.
  exists (if decide (names = []) then list_ascii_of_string "."
          else GoStrings.Join names "/").
  split; [by apply Rel_render|]. split.
  - destruct (decide (names = [])) as [->|Hne].
    + cbv. by intros [?|[]%elem_of_nil]%elem_of_cons.
    + change ("/"%char) with Separator.
      rewrite Split_Join_names by done. intros Hin.
      apply (Forall_forall (A:=str)) with (x := "..") in Hv; [|done].
      by destruct Hv as (_ & _ & ? & _).
  - destruct (decide (names = [])) as [->|Hne].
    + change (list_ascii_of_string ".") with (Clean ".").
      rewrite Join_cleaned_relative; [done|by right|done].
    + rewrite Join_names by done. by apply descend_render.
Qed.

(** X2: a path that [validateFilePath] returns is the base directory or
    lies below it, whatever the configuration and the request are: the
    relative path from the base directory to it has no parent-directory
    element and leads back to it from the base directory.  The path
    returned is a cleaned path, the cleaned request joined to the base
    path. *)
Theorem accepted_path_is_below_base (s : Config) (filePath fullPath : str) :
  validateFilePath s filePath = Ok fullPath →
  below_base s fullPath
  ∧ Clean fullPath = fullPath
  ∧ fullPath = GoFilepath.Join [BasePath s; Clean filePath].
Proof.
  intros Hok. split; [by eapply accepted_below_base|].
  split.
  - apply validateFilePath_Ok in Hok as (names & Hv & -> & _ & _).
    by apply Clean_render, normal_app_names.
  - unfold validateFilePath in Hok.
    destruct (Contains (Clean filePath) ".."); [done|].
    destruct (Rel _ _) as [rel|]; [|done].
    destruct (HasPrefix rel ".."); by simplify_eq.
Qed.

(** X1 on the request [/etc/passwd]: it is accepted and resolved below
    the base directory. *)
Lemma validateFilePath_decides_example :
  validateFilePath srv_config "/etc/passwd"
  = Ok (list_ascii_of_string "/srv/etc/passwd").
Proof.
  apply (validateFilePath_decides srv_config "/etc/passwd").
  discriminate.
Defined.

(** X2 on the same request. *)
Lemma accepted_path_is_below_base_example :
  below_base srv_config "/srv/etc/passwd"
  ∧ Clean "/srv/etc/passwd" = list_ascii_of_string "/srv/etc/passwd"
  ∧ list_ascii_of_string "/srv/etc/passwd"
    = GoFilepath.Join [BasePath srv_config; Clean "/etc/passwd"].
Proof.
  apply (accepted_path_is_below_base srv_config "/etc/passwd" "/srv/etc/passwd").
  reflexivity.
Defined.


(** * What the handlers reach outside the process *)

(** X3: whatever the arguments of a call of read_file_contents are, the
    handler reaches the file system at one path at most, which is the base
    directory or lies below it: it calls [os.Stat] on it, and
    [os.ReadFile] only after [os.Stat] has succeeded with a size that does
    not exceed the configured maximum.  It runs no command. *)
Theorem contents_access_is_confined (s : Config) (env : Env)
    (args : gmap str ArgValue) :
  let trace := (handleReadFileContents s env args).2 in
  trace = []
  ∨ ∃ fullPath,
      below_base s fullPath
      ∧ (trace = [EvStat fullPath]
         ∨ (trace = [EvStat fullPath; EvReadFile fullPath]
            ∧ ∃ size, stat env fullPath = Some size
                      ∧ (size ≤ MaxFileSize s)%Z)).
Proof.
  unfold handleReadFileContents.
  destruct (args !! _) as [[|filePath| |]|]; try by left.
  destruct (validateFilePath s filePath) as [fullPath|e] eqn:Hv; [|by left].
  right. exists fullPath. split; [by eapply accepted_below_base|].
  unfold io_bind, os_Stat, os_ReadFile.
  destruct (stat env fullPath) as [size|] eqn:Hst; [|by left].
  destruct (MaxFileSize s <? size)%Z eqn:Hsz; [by left|].
  right. apply Z.ltb_ge in Hsz.
  split; [|by exists size].
  by destruct (readFile env fullPath).
Qed.

Lemma last_grep_args s query cl : last (grep_args s query cl) = Some (BasePath s).
Proof. unfold grep_args. by rewrite !app_assoc, last_snoc. Qed.

(** X4: whatever the arguments of a call of grep_search are, the handler
    runs at most 20 commands, each of them [grep] with the base path as
    its last argument, and it neither stats nor reads a file itself.  A
    call that fails has run no command. *)
Theorem search_runs_only_grep
    (json_Unmarshal : str → option (list GrepQuery)) (s : Config) (env : Env)
    (args : gmap str ArgValue) :
  let trace := (handleGrepSearch json_Unmarshal s env args).2 in
  length trace ≤ 20
  ∧ Forall (λ ev, ∃ a, ev = EvExec "grep" a ∧ last a = Some (BasePath s)) trace
  ∧ (∀ e, (handleGrepSearch json_Unmarshal s env args).1 = NewToolResultError e
          → trace = []).
Proof.
  destruct (args !! ("queries" : str)) as [v|] eqn:Hq.
  2:{ unfold handleGrepSearch. rewrite Hq. simpl. by repeat split; [lia|..]. }
  destruct v as [|queriesStr| |];
    try (unfold handleGrepSearch; rewrite Hq; simpl; by repeat split; [lia|..]).
  destruct (json_Unmarshal queriesStr) as [queries|] eqn:Hj.
  2:{ unfold handleGrepSearch. rewrite Hq, Hj. simpl. by repeat split; [lia|..]. }
  destruct (decide (length queries = 0)) as [H0|H0].
  { unfold handleGrepSearch. rewrite Hq, Hj, decide_True by done.
    simpl. by repeat split; [lia|..]. }
  destruct (decide (20 < length queries)) as [H20|H20].
  { unfold handleGrepSearch.
    rewrite Hq, Hj, decide_False, decide_True by done.
    simpl. by repeat split; [lia|..]. }
  rewrite (handleGrepSearch_runs _ _ _ _ _ _ Hq Hj) by lia. simpl.
  split; [|split].
  - unfold search_trace. rewrite length_fmap. lia.
  - unfold search_trace. apply Forall_fmap, Forall_forall. intros query _.
    eexists. split; [done|]. apply last_grep_args.
  - done.
Qed.

(** * The configuration *)

Lemma IsAbs_cons (c : ascii) (path : str) :
  IsAbs (c :: path) = Ascii.eqb c Separator.
Proof. unfold IsAbs. by rewrite sep_str, HasPrefix_single. Qed.

Lemma Join_rooted (wd path : str) :
  IsAbs wd = true → IsAbs (GoFilepath.Join [wd; path]) = true.
Proof.
  intros Hwd. destruct wd as [|c wd]; [done|].
  unfold GoFilepath.Join. apply Clean_rooted.
  rewrite Join_cons by done. rewrite IsAbs_cons in Hwd.
  simpl app. by rewrite sep_str, HasPrefix_single.
Qed.

Lemma Join_is_clean (wd path : str) :
  wd ≠ [] → Clean (GoFilepath.Join [wd; path]) = GoFilepath.Join [wd; path].
Proof. intros Hwd. destruct wd; [done|]. apply Clean_idemp. Qed.

(** With a working directory that is an absolute path, which is what
    [os.Getwd] returns, [filepath.Abs] gives an absolute, cleaned path. *)
Lemma Abs_absolute env (path absPath : str) :
  (∀ wd, getwd env = Some wd → IsAbs wd = true) →
  Abs env path = Some absPath →
  IsAbs absPath = true ∧ Clean absPath = absPath.
Proof.
  intros Hwd. unfold Abs. destruct (IsAbs path) eqn:Hp.
  - intros [= <-]. split; [by apply Clean_rooted|apply Clean_idemp].
  - destruct (getwd env) as [wd|] eqn:Hg; [|done]. intros [= <-].
    specialize (Hwd wd eq_refl). split; [by apply Join_rooted|].
    apply Join_is_clean. by destruct wd.
Qed.

Lemma Abs_fixed env (path : str) :
  IsAbs path = true → Clean path = path → Abs env path = Some path.
Proof. intros Hp Hc. unfold Abs. by rewrite Hp, Hc. Qed.

(** What [validateConfig] leaves when it returns no error. *)
Lemma validateConfig_None env config :
  (validateConfig env config).2 = None →
  ∃ absPath,
    statPath env (BasePath config) ≠ StatNotExist
    ∧ Abs env (BasePath config) = Some absPath
    ∧ (validateConfig env config).1
      = {| Port := Port config; BasePath := absPath;
           MaxFileSize := if (MaxFileSize config <=? 0)%Z
                          then 10 * 1024 * 1024 else MaxFileSize config |}.
Proof.
  unfold validateConfig.
  destruct (statPath env (BasePath config)) eqn:Hs; [|done|];
    (destruct (Abs env (BasePath config)) as [a|]; [|done]); intros _;
    exists a; (split; [done|]); (split; [done|]); simpl;
    by destruct (MaxFileSize config <=? 0)%Z.
Qed.

Lemma Join_dot (wd : str) : wd ≠ [] → GoFilepath.Join [wd; "." : str] = Clean wd.
Proof.
  intros Hwd. change (list_ascii_of_string ".") with (Clean ".").
  rewrite Join_cleaned by done. simpl. by rewrite app_nil_r, <- Clean_norm.
Qed.

(** What [loadConfig] returns without error. *)
Lemma loadConfig_Ok env flags config :
  loadConfig env flags = Ok config →
  ∃ absPath,
    Abs env (default ("." : str) (flag_base_path flags)) = Some absPath
    ∧ config
      = {| Port := default (":3001" : str) (flag_port flags);
           BasePath := absPath;
           MaxFileSize :=
             if (default (10 * 1024 * 1024) (flag_max_file_size flags) <=? 0)%Z
             then 10 * 1024 * 1024
             else default (10 * 1024 * 1024)%Z (flag_max_file_size flags) |}.
Proof.
  unfold loadConfig.
  set (c0 := {| Port := _; BasePath := _; MaxFileSize := _ |}).
  pose proof (validateConfig_None env c0) as Hnone.
  destruct (validateConfig env c0) as [c [err|]]; [done|]. intros [= <-].
  simpl in Hnone. destruct (Hnone eq_refl) as (absPath & _ & Habs & ->).
  by exists absPath.
Qed.

(** X5: with a working directory that is an absolute path, the
    configuration [loadConfig] returns has an absolute, cleaned base path
    and a positive maximum file size, whatever the flags are: the port is
    the flag or [:3001], the maximum is the flag when it is positive and
    10 MiB otherwise, and without [-base-path] the base path is the
    working directory, cleaned. *)
Theorem loaded_config_is_normalised env flags config :
  (∀ wd, getwd env = Some wd → IsAbs wd = true) →
  loadConfig env flags = Ok config →
  IsAbs (BasePath config) = true
  ∧ Clean (BasePath config) = BasePath config
  ∧ (0 < MaxFileSize config)%Z
  ∧ Port config = default (":3001" : str) (flag_port flags)
  ∧ MaxFileSize config
    = match flag_max_file_size flags with
      | Some m => if (0 <? m)%Z then m else (10 * 1024 * 1024)%Z
      | None => (10 * 1024 * 1024)%Z
      end
  ∧ (flag_base_path flags = None →
     ∀ wd, getwd env = Some wd → BasePath config = Clean wd).
Proof.
  intros Hwd (absPath & Habs & ->)%loadConfig_Ok. simpl.
  destruct (Abs_absolute _ _ _ Hwd Habs) as [Ha Hc].
  repeat split; try done.
  - destruct (default _ (flag_max_file_size flags) <=? 0)%Z eqn:Hm; [done|].
    by apply Z.leb_gt in Hm.
  - destruct (flag_max_file_size flags) as [m|]; [|done]. simpl.
    destruct (0 <? m)%Z eqn:Hpos.
    + apply Z.ltb_lt, Z.leb_gt in Hpos. by rewrite Hpos.
    + apply Z.ltb_ge, Z.leb_le in Hpos. by rewrite Hpos.
  - intros Hnone' wd Hg. rewrite Hnone' in Habs.
    simpl in Habs. unfold Abs in Habs. simpl in Habs. rewrite Hg in Habs.
    injection Habs as <-. apply Join_dot.
    specialize (Hwd wd Hg). by destruct wd.
Qed.

(** X6: [validateConfig] is idempotent: a configuration that it has
    accepted (with a working directory that is an absolute path) is left
    as it is by a second call, in any state of the operating system. *)
Theorem validateConfig_idempotent env env' config :
  (∀ wd, getwd env = Some wd → IsAbs wd = true) →
  (validateConfig env config).2 = None →
  (validateConfig env' (validateConfig env config).1).1
  = (validateConfig env config).1.
Proof.
  intros Hwd (absPath & _ & Habs & Heq)%validateConfig_None.
  rewrite Heq. destruct (Abs_absolute _ _ _ Hwd Habs) as [Ha Hc].
  unfold validateConfig at 1. simpl.
  destruct (statPath env' absPath); [|done|];
    rewrite (Abs_fixed env' absPath Ha Hc); simpl;
    destruct (MaxFileSize config <=? 0)%Z eqn:Hm; simpl; try done;
    by rewrite Hm.
Qed.

(** The string of a rooted cleaned path to which names are added. *)
Lemma render_rooted_app (elems names : list str) :
  normal_elems true elems → Forall valid_name names → names ≠ [] →
  render true (elems ++ names)
  = (if decide (render true elems = "/") then [] else render true elems)
    ++ "/" ++ GoStrings.Join names "/".
Proof.
  intros Hn Hv Hne. destruct elems as [|e elems].
  { change ([] ++ names) with names. rewrite decide_True by done.
    by destruct names. }
  rewrite decide_False.
  - rewrite render_rooted. simpl app at 1. rewrite render_rooted.
    rewrite (Join_app (e :: elems) names) by done. done.
  - rewrite render_rooted.
    destruct (normal_head_not_sep _ _ _ Hn) as (c & e' & -> & _).
    by rewrite Join_cons_head.
Qed.

(** X7: under a configuration that [loadConfig] has returned,
    [validateFilePath] either rejects a request as a path traversal,
    because its cleaned form has two dots in a row, or returns an absolute
    path that is the base path itself or the base path followed by a
    slash and by names joined with slashes (for the base path [/], a
    slash followed by these names). *)
Theorem loaded_config_confines_paths env flags config (filePath : str) :
  (∀ wd, getwd env = Some wd → IsAbs wd = true) →
  loadConfig env flags = Ok config →
  match validateFilePath config filePath with
  | Ok fullPath =>
      IsAbs fullPath = true
      ∧ (fullPath = BasePath config
         ∨ ∃ names,
             Forall valid_name names ∧ names ≠ []
             ∧ fullPath
               = (if decide (BasePath config = "/") then []
                  else BasePath config)
                 ++ "/" ++ GoStrings.Join names "/")
  | Err e => e = ErrPathTraversal ∧ Contains (Clean filePath) ".." = true
  end.
Proof.
  intros Hwd (absPath & Habs & ->)%loadConfig_Ok.
  destruct (Abs_absolute _ _ _ Hwd Habs) as [Ha Hc].
  set (config := {| Port := _; BasePath := absPath; MaxFileSize := _ |}).
  assert (BasePath config ≠ []) as Hne by (by destruct absPath).
  destruct (validateFilePath config filePath) as [fullPath|e] eqn:Hv.
  - apply validateFilePath_Ok in Hv as (names & Hvalid & -> & _ & _).
    simpl BasePath. rewrite norm_rooted. unfold IsAbs in Ha. rewrite Ha.
    assert (absPath = render true (norm absPath).2) as Hrender.
    { rewrite <- Hc at 1. by rewrite Clean_norm, norm_rooted, Ha. }
    assert (normal_elems true (norm absPath).2) as Hnormal.
    { pose proof (norm_normal absPath) as Hn. by rewrite norm_rooted, Ha in Hn. }
    split.
    + unfold IsAbs. by destruct ((norm absPath).2 ++ names).
    + destruct (decide (names = [])) as [->|Hnames].
      * left. by rewrite app_nil_r.
      * right. exists names. split; [done|]. split; [done|].
        rewrite render_rooted_app by done. by rewrite <- Hrender.
  - rewrite validateFilePath_decides in Hv by done.
    destruct (Contains (Clean filePath) ".."); by simplify_eq.
Qed.

Lemma home_os_absolute : ∀ wd, getwd home_os = Some wd → IsAbs wd = true.
Proof. intros wd [= <-]. reflexivity. Defined.

(** X5 on the command line [-base-path files/], run in [/home/user]. *)
Lemma loaded_config_is_normalised_example :
  IsAbs (BasePath files_config) = true
  ∧ Clean (BasePath files_config) = BasePath files_config
  ∧ (0 < MaxFileSize files_config)%Z
  ∧ Port files_config = default (":3001" : str) (flag_port files_flags)
  ∧ MaxFileSize files_config
    = match flag_max_file_size files_flags with
      | Some m => if (0 <? m)%Z then m else (10 * 1024 * 1024)%Z
      | None => (10 * 1024 * 1024)%Z
      end
  ∧ (flag_base_path files_flags = None →
     ∀ wd, getwd home_os = Some wd → BasePath files_config = Clean wd).
Proof.
  apply (loaded_config_is_normalised home_os files_flags files_config).
  - exact home_os_absolute.
  - reflexivity.
Defined.

(** X6 on a configuration with a relative base path and no maximum,
    validated again where nothing can be stat'ed and there is no working
    directory. *)
Lemma validateConfig_idempotent_example :
  (validateConfig blind_os (validateConfig home_os raw_config).1).1
  = (validateConfig home_os raw_config).1.
Proof.
  apply (validateConfig_idempotent home_os blind_os raw_config).
  - exact home_os_absolute.
  - reflexivity.
Defined.

(** X7 on the request [/etc/passwd] under the same command line. *)
Lemma loaded_config_confines_paths_example :
  match validateFilePath files_config "/etc/passwd" with
  | Ok fullPath =>
      IsAbs fullPath = true
      ∧ (fullPath = BasePath files_config
         ∨ ∃ names,
             Forall valid_name names ∧ names ≠ []
             ∧ fullPath
               = (if decide (BasePath files_config = "/") then []
                  else BasePath files_config)
                 ++ "/" ++ GoStrings.Join names "/")
  | Err e => e = ErrPathTraversal ∧ Contains (Clean "/etc/passwd") ".." = true
  end.
Proof.
  apply (loaded_config_confines_paths home_os files_flags files_config
           "/etc/passwd").
  - exact home_os_absolute.
  - reflexivity.
Defined.

(** * The tree builder: what is listed *)

Lemma elem_of_descendants (ns : list str) (d node : FileNode) :
  (ns, d) ∈ descendants node ↔
  ∃ c, c ∈ Children node
       ∧ ((ns = [Name c] ∧ d = c)
          ∨ ∃ ns', ns = Name c :: ns' ∧ (ns', d) ∈ descendants c).
Proof.
  destruct node as [name type size cs path]. simpl Children.
  induction cs as [|c cs IH].
  { split; [by intros ?%elem_of_nil|]. by intros (c & ?%elem_of_nil & _). }
  rewrite descendants_cons, elem_of_cons, elem_of_app, IH, list_elem_of_fmap.
  split.
  - intros [[= -> ->]|[([ns' d'] & [= -> ->] & Hin)|(c' & Hin & H)]].
    + exists c. split; [by left|by left].
    + exists c. split; [by left|]. right. by exists ns'.
    + exists c'. split; [by right|done].
  - intros (c' & [->|Hin]%elem_of_cons & H).
    + destruct H as [[-> ->]|(ns' & -> & Hin)]; [by left|].
      right. left. by exists (ns', d).
    + right. right. by exists c'.
Qed.

Lemma fs_reach_nonempty root names obj : fs_reach root names obj → names ≠ [].
Proof. by intros []. Qed.

Lemma descend_snoc path names (n : str) :
  GoFilepath.Join [descend path names; n] = descend path (names ++ [n]).
Proof. unfold descend. by rewrite foldl_snoc. Qed.

Section Listing.

Variable Match : str → str → bool.
Variable s : Config.
Variable filter : GitignoreFilter.

(** The tree builder passes [currentDepth] on and never looks at it. *)
Lemma build_any_depth obj :
  ∀ dirPath depth depth',
    buildFileTreeWithFilter Match s dirPath depth filter obj
    = buildFileTreeWithFilter Match s dirPath depth' filter obj.
Proof.
  induction obj as [| size | entries IH |] using fsobj_tree_ind;
    intros dirPath depth depth'; [done|done| |done].
  rewrite !build_Directory. case_match; [done|]. do 3 f_equal.
  induction entries as [|[n o] es IHes]; [done|].
  inversion IH as [|?? IHo IHrest]; subst. simpl in IHo.
  rewrite !build_children_cons. cbv zeta.
  rewrite (IHo _ (depth + 1)%Z (depth' + 1)%Z), (IHes IHrest). done.
Qed.

Lemma build_not_ignored dirPath depth obj node :
  buildFileTreeWithFilter Match s dirPath depth filter obj = Ok (Some node) →
  ShouldIgnore Match filter dirPath = false.
Proof. destruct obj; simpl; by case_match. Qed.

(** The children of a directory node are the nodes built for its
    entries. *)
Lemma elem_of_build_children dirPath depth entries c :
  c ∈ build_children Match s dirPath depth filter entries ↔
  ∃ n o, (n, o) ∈ entries
         ∧ buildFileTreeWithFilter Match s (GoFilepath.Join [dirPath; n])
             depth filter o = Ok (Some c).
Proof.
  induction entries as [|[n o] es IH].
  { split; [by intros ?%elem_of_nil|]. by intros (? & ? & ?%elem_of_nil & _). }
  rewrite build_children_cons. cbv zeta.
  rewrite (build_any_depth o _ (depth + 1)%Z depth).
  destruct (ShouldIgnore Match filter (GoFilepath.Join [dirPath; n])) eqn:Hig.
  { rewrite IH. split.
    - intros (n' & o' & Hin & Hb). exists n', o'. split; [by right|done].
    - intros (n' & o' & [[= -> ->]|Hin]%elem_of_cons & Hb).
      + apply build_not_ignored in Hb. congruence.
      + by exists n', o'. }
  destruct (buildFileTreeWithFilter Match s (GoFilepath.Join [dirPath; n])
              depth filter o) as [[child|]|] eqn:Hb.
  - rewrite elem_of_cons, IH. split.
    + intros [->|(n' & o' & Hin & Hb')].
      * exists n, o. split; [by left|done].
      * exists n', o'. split; [by right|done].
    + intros (n' & o' & [[= -> ->]|Hin]%elem_of_cons & Hb').
      * left. congruence.
      * right. by exists n', o'.
  - rewrite IH. split.
    + intros (n' & o' & Hin & Hb'). exists n', o'. split; [by right|done].
    + intros (n' & o' & [[= -> ->]|Hin]%elem_of_cons & Hb').
      * congruence.
      * by exists n', o'.
  - rewrite IH. split.
    + intros (n' & o' & Hin & Hb'). exists n', o'. split; [by right|done].
    + intros (n' & o' & [[= -> ->]|Hin]%elem_of_cons & Hb').
      * congruence.
      * by exists n', o'.
Qed.

(** The node built for an entry bears the name of the entry. *)
Lemma build_Name names n depth obj node :
  Forall valid_name names → valid_name n →
  buildFileTreeWithFilter Match s (descend (BasePath s) (names ++ [n])) depth
    filter obj = Ok (Some node) →
  Name node = n.
Proof.
  intros Hv Hn Hb. destruct obj; simpl in Hb; case_match; simplify_eq;
    simpl; by apply Base_descend.
Qed.

(** The node built for a file or for a directory that can be listed and
    that is not ignored. *)
Lemma build_listable names depth obj :
  Forall valid_name names →
  ShouldIgnore Match filter (descend (BasePath s) names) = false →
  can_be_listed obj →
  ∃ node,
    buildFileTreeWithFilter Match s (descend (BasePath s) names) depth filter obj
    = Ok (Some node)
    ∧ describes obj node ∧ Path node = GoStrings.Join names "/".
Proof.
  intros Hv Hig Hobj. destruct obj as [|size|entries|]; [done| | |done].
  - eexists. simpl. rewrite Hig. split; [done|]. simpl.
    split; [done|]. by apply relPath_descend.
  - eexists. rewrite build_Directory, Hig. split; [done|]. simpl.
    split; [done|]. by apply relPath_descend.
Qed.

(** The nodes below the node built for a path are the nodes built for
    the objects that are reached from it through directories that can be
    listed and that are not ignored. *)
Lemma descendants_built obj0 :
  ∀ names0 depth node0 ns node,
    wf_fs obj0 = true → Forall valid_name names0 →
    buildFileTreeWithFilter Match s (descend (BasePath s) names0) depth
      filter obj0 = Ok (Some node0) →
    (ns, node) ∈ descendants node0 ↔
    ∃ obj,
      fs_reach obj0 ns obj
      ∧ Forall valid_name ns
      ∧ buildFileTreeWithFilter Match s (descend (BasePath s) (names0 ++ ns))
          depth filter obj = Ok (Some node)
      ∧ ∀ k, 0 < k < length ns →
             ShouldIgnore Match filter
               (descend (BasePath s) (names0 ++ take k ns)) = false.
Proof.
  induction obj0 as [| size | entries IH |] using fsobj_tree_ind;
    intros names0 depth node0 ns node Hwf Hv Hb.
  - simpl in Hb. by case_match.
  - simpl in Hb. case_match; [done|]. simplify_eq. simpl. split.
    + by intros ?%elem_of_nil.
    + intros (obj & Hr & _). inversion Hr.
  - rewrite build_Directory in Hb. case_match; [done|]. simplify_eq.
    apply wf_fs_Directory in Hwf.
    rewrite elem_of_descendants. simpl Children.
    setoid_rewrite elem_of_build_children.
    setoid_rewrite descend_snoc.
    split.
    + intros (c & (n & o & Hin & Hbc) & Hcase).
      pose proof Hin as Hin'.
      apply (proj1 (Forall_forall _ _) Hwf) in Hin' as [Hn Hwfo].
      simpl in Hn, Hwfo.
      pose proof (build_Name _ _ _ _ _ Hv Hn Hbc) as Hname.
      assert (Forall valid_name (names0 ++ [n])) as Hv'.
      { apply Forall_app. split; [done|by constructor]. }
      destruct Hcase as [[-> ->]|(ns' & -> & Hd)].
      * exists o. rewrite Hname. split; [by constructor|].
        split; [by constructor|]. split; [done|]. simpl. intros k Hk. lia.
      * apply (proj1 (Forall_forall _ _) IH (n, o) Hin _ _ _ _ _ Hwfo Hv' Hbc)
          in Hd as (obj & Hr & Hvns & Hbo & Hpre).
        exists obj. rewrite Hname. split; [by eapply reach_deeper|].
        split; [by constructor|].
        rewrite <- app_assoc in Hbo. split; [done|].
        intros k Hk. destruct k as [|k]; [lia|]. simpl take.
        destruct (decide (k = 0)) as [->|Hk0].
        -- rewrite take_0. by eapply build_not_ignored.
        -- specialize (Hpre k). rewrite <- app_assoc in Hpre. apply Hpre.
           simpl in Hk. lia.
    + intros (obj & Hr & Hvns & Hbo & Hpre).
      inversion Hr as [es n o Hin|es n o ns' o' Hin Hr']; subst.
      * pose proof Hin as Hin'.
        apply (proj1 (Forall_forall _ _) Hwf) in Hin' as [Hn Hwfo].
        simpl in Hn.
        pose proof (build_Name _ _ _ _ _ Hv Hn Hbo) as Hname.
        exists node. split; [by exists n, obj|]. left. by rewrite Hname.
      * pose proof Hin as Hin'.
        apply (proj1 (Forall_forall _ _) Hwf) in Hin' as [Hn Hwfo].
        simpl in Hn, Hwfo.
        assert (Forall valid_name (names0 ++ [n])) as Hv'.
        { apply Forall_app. split; [done|by constructor]. }
        pose proof (fs_reach_nonempty _ _ _ Hr') as Hne.
        assert (ShouldIgnore Match filter
                  (descend (BasePath s) (names0 ++ [n])) = false) as Hig.
        { specialize (Hpre 1). simpl in Hpre. rewrite take_0 in Hpre.
          apply Hpre. destruct ns'; [done|simpl; lia]. }
        destruct o as [| |es'|]; try by inversion Hr'.
        destruct (build_listable (names0 ++ [n]) depth (Directory es') Hv' Hig I)
          as (c & Hbc & _ & _).
        pose proof (build_Name _ _ _ _ _ Hv Hn Hbc) as Hname.
        exists c. split; [by exists n, (Directory es')|].
        right. exists ns'. rewrite Hname. split; [done|].
        apply (proj1 (Forall_forall _ _) IH (n, Directory es') Hin
                 _ _ _ _ _ Hwfo Hv' Hbc).
        exists obj. split; [done|]. inversion Hvns; subst.
        split; [done|]. rewrite <- app_assoc. split; [done|].
        intros k Hk. specialize (Hpre (S k)). simpl in Hpre.
        rewrite <- app_assoc. apply Hpre. lia.
  - simpl in Hb. by case_match.
Qed.

(** The children of a directory node come in the order of the entries
    of the directory. *)
Lemma build_children_sublist names depth entries :
  Forall valid_name names → Forall (λ e, valid_name e.1) entries →
  sublist (Name <$> build_children Match s (descend (BasePath s) names) depth
                      filter entries) entries.*1.
Proof.
  intros Hv Hes. induction Hes as [|[n o] es Hn Hes IH]; [done|].
  rewrite build_children_cons. cbv zeta. rewrite descend_snoc.
  rewrite fmap_cons. simpl fst.
  destruct (ShouldIgnore Match filter _); [by apply sublist_cons|].
  destruct (buildFileTreeWithFilter _ _ _ _ _ _) as [[c|]|] eqn:Hb;
    try by apply sublist_cons.
  rewrite fmap_cons, (build_Name _ _ _ _ _ Hv Hn Hb). by apply sublist_skip.
Qed.

End Listing.

Lemma fs_reach_valid root names obj :
  wf_fs root = true → fs_reach root names obj →
  Forall valid_name names ∧ wf_fs obj = true.
Proof.
  intros Hwf Hr. induction Hr as [es n o Hin|es n o ns o' Hin Hr IH].
  - apply wf_fs_Directory in Hwf.
    apply (proj1 (Forall_forall _ _) Hwf) in Hin as [Hn Ho].
    split; [by constructor|done].
  - apply wf_fs_Directory in Hwf.
    apply (proj1 (Forall_forall _ _) Hwf) in Hin as [Hn Ho].
    destruct (IH Ho) as [Hv Ho']. split; [by constructor|done].
Qed.

(** The tree of the structure operation is the one built for the base
    directory. *)
Lemma structure_of_built Match s gitignore root tree :
  structure_of (handleReadFileStructure Match s gitignore root) = Some tree →
  buildFileTreeWithFilter Match s (descend (BasePath s) []) 0
    (NewGitignoreFilter (BasePath s) gitignore) root = Ok (Some tree).
Proof.
  unfold handleReadFileStructure. simpl descend.
  destruct (buildFileTreeWithFilter _ _ _ _ _ _) as [[node|]|];
    simpl; by intros; simplify_eq.
Qed.

(** X9: the structure operation lists every file and every directory
    that can be listed, at any depth, provided that it is reached from the
    base directory through directories that can be listed and that the
    filter ignores neither its path nor a directory on the way to it: the
    tree has a node for it at the place its names lead to, which says what
    it is and whose [path] is these names joined by slashes.  The entries
    of the directories are assumed to have names that directory entries
    can have. *)
Theorem structure_lists_every_visible_entry (Match : str → str → bool)
    (s : Config) (gitignore : option str) (root : fsobj) (tree : FileNode)
    (names : list str) (obj : fsobj) :
  wf_fs root = true →
  structure_of (handleReadFileStructure Match s gitignore root) = Some tree →
  fs_reach root names obj →
  can_be_listed obj →
  visible Match (NewGitignoreFilter (BasePath s) gitignore) s names →
  ∃ node,
    (names, node) ∈ descendants tree
    ∧ describes obj node
    ∧ Path node = GoStrings.Join names "/".
Proof.
  intros Hwf Hb%structure_of_built Hr Hobj Hvis.
  destruct (fs_reach_valid _ _ _ Hwf Hr) as [Hv _].
  destruct (build_listable Match s (NewGitignoreFilter (BasePath s) gitignore)
              names 0 obj Hv) as (node & Hbn & Hd & Hp); [|done|].
  { specialize (Hvis (length names)). rewrite firstn_all in Hvis.
    apply Hvis. apply fs_reach_nonempty in Hr. destruct names; [done|simpl; lia]. }
  exists node. split; [|done].
  apply (descendants_built Match s _ root [] 0 tree names node Hwf
           (Forall_nil_2 _) Hb).
  exists obj. repeat split; [done..|].
  intros k Hk. apply Hvis. lia.
Qed.

(** X10: the structure operation lists nothing that the filter ignores
    and nothing below a directory that the filter ignores: for every node
    below the root, [ShouldIgnore] answers false on its path and on the
    path of every directory on the way to it. *)
Theorem structure_lists_nothing_ignored (Match : str → str → bool)
    (s : Config) (gitignore : option str) (root : fsobj) (tree : FileNode) :
  wf_fs root = true →
  structure_of (handleReadFileStructure Match s gitignore root) = Some tree →
  Forall (λ '(names, node),
            visible Match (NewGitignoreFilter (BasePath s) gitignore) s names)
    (descendants tree).
Proof.
  intros Hwf Hb%structure_of_built. apply Forall_forall. intros [names node] Hin.
  apply (descendants_built Match s _ root [] 0 tree names node Hwf
           (Forall_nil_2 _) Hb) in Hin as (obj & Hr & Hv & Hbn & Hpre).
  intros k Hk. destruct (decide (k = length names)) as [->|Hne].
  - rewrite firstn_all. by eapply build_not_ignored.
  - apply Hpre. lia.
Qed.

(** X11: the children of every directory node of the tree, the root
    included, bear names of entries of the directory, each entry giving
    one child at most, in the order of the listing of the directory; a
    file node has no children. *)
Theorem children_follow_listing (Match : str → str → bool)
    (s : Config) (gitignore : option str) (root : fsobj) (tree : FileNode) :
  wf_fs root = true →
  structure_of (handleReadFileStructure Match s gitignore root) = Some tree →
  (∀ entries, root = Directory entries →
              sublist (Name <$> Children tree) entries.*1)
  ∧ Forall (λ '(names, node),
              ∃ obj, fs_reach root names obj
                     ∧ match obj with
                       | Directory entries =>
                           sublist (Name <$> Children node) entries.*1
                       | _ => Children node = []
                       end)
      (descendants tree).
Proof.
  intros Hwf Hb%structure_of_built. split.
  - intros entries ->. rewrite build_Directory in Hb.
    case_match; [done|]. simplify_eq. simpl Children.
    apply (build_children_sublist Match s _ []); [done|].
    apply wf_fs_Directory in Hwf. eapply Forall_impl; [exact Hwf|].
    by intros e [? _].
  - apply Forall_forall. intros [names node] Hin.
    apply (descendants_built Match s _ root [] 0 tree names node Hwf
             (Forall_nil_2 _) Hb) in Hin as (obj & Hr & Hv & Hbn & _).
    exists obj. split; [done|].
    destruct (fs_reach_valid _ _ _ Hwf Hr) as [_ Hwfo].
    simpl app in Hbn. destruct obj as [|size|entries|].
    + simpl in Hbn. by case_match.
    + simpl in Hbn. case_match; by simplify_eq.
    + rewrite build_Directory in Hbn. case_match; [done|]. simplify_eq.
      simpl Children. apply build_children_sublist; [done|].
      apply wf_fs_Directory in Hwfo. eapply Forall_impl; [exact Hwfo|].
      by intros e [? _].
    + simpl in Hbn. by case_match.
Qed.

(** X8: [buildFileTreeWithFilter] never looks at [currentDepth]: the
    tree it builds is the same at any depth, and no depth limit cuts
    it. *)
Theorem tree_depth_is_unlimited (Match : str → str → bool) (s : Config)
    (filter : GitignoreFilter) (dirPath : str) (obj : fsobj)
    (depth depth' : Z) :
  buildFileTreeWithFilter Match s dirPath depth filter obj
  = buildFileTreeWithFilter Match s dirPath depth' filter obj.
Proof.
  revert dirPath depth depth'.
  induction obj as [| size | entries IH |] using fsobj_tree_ind;
    intros dirPath depth depth'; [done|done| |done].
  rewrite !build_Directory. case_match; [done|]. do 3 f_equal.
  induction entries as [|[n o] es IHes]; [done|].
  inversion IH as [|?? IHo IHrest]; subst. simpl in IHo.
  rewrite !build_children_cons. cbv zeta.
  by rewrite (IHo _ (depth + 1)%Z (depth' + 1)%Z), (IHes IHrest).
Qed.

(** X12: the test of the filter comes before anything else.  When a
    pattern of the filter, its trailing slash removed, matches the name of
    the base directory itself, the structure operation succeeds with a nil
    structure, whatever is found on disk.  When the filter does not ignore
    the base directory, the operation fails exactly when the base path
    cannot be stat'ed or is a directory that cannot be listed: an error
    deeper in the tree never fails the call. *)
Theorem structure_outcome_at_base (Match : str → str → bool) (s : Config)
    (gitignore : option str) (root : fsobj) :
  let filter := NewGitignoreFilter (BasePath s) gitignore in
  (∀ pattern,
     pattern ∈ patterns filter →
     Match (TrimSuffix pattern "/") (Base (BasePath s)) = true →
     handleReadFileStructure Match s gitignore root
     = NewToolResultText
         (StructurePayload (BasePath s) None
            "Filtered out .git directory and .gitignore patterns"))
  ∧ (ShouldIgnore Match filter (BasePath s) = false →
     handleReadFileStructure Match s gitignore root
     = NewToolResultError FailedToReadStructure
     ↔ ¬ can_be_listed root).
Proof.
  intros filter. split.
  - intros pattern Hin Hm.
    assert (ShouldIgnore Match filter (BasePath s) = true) as Hig.
    { unfold ShouldIgnore. change (basePath filter) with (BasePath s).
      rewrite Rel_self.
      change (HasPrefix "." ".git" || Contains "." "/.git") with false.
      cbv iota. apply existsb_exists. exists pattern.
      split; [by apply list_elem_of_In|].
      unfold pattern_ignores. unfold TrimSuffix in *.
      destruct (HasSuffix pattern "/"); by rewrite Hm. }
    unfold handleReadFileStructure. fold filter.
    by destruct root; simpl; rewrite Hig.
  - intros Hig. unfold handleReadFileStructure. fold filter.
    destruct root; simpl; rewrite Hig; simpl; split; try done; tauto.
Qed.

(** * The names that are listed *)

Lemma build_Name_Base (Match : str → str → bool) (s : Config)
    (filter : GitignoreFilter) dirPath depth obj node :
  buildFileTreeWithFilter Match s dirPath depth filter obj = Ok (Some node) →
  Name node = Base dirPath.
Proof. destruct obj; simpl; case_match; by intros; simplify_eq. Qed.

(** A path with an element that begins with [.git] is taken for a part of
    the metadata directory. *)
Lemma git_prefix_ignored (names : list str) :
  Exists (λ n, HasPrefix n ".git" = true) names →
  HasPrefix (GoStrings.Join names "/") ".git"
  || Contains (GoStrings.Join names "/") "/.git" = true.
Proof.
  intros (n & Hin & [r ->]%HasPrefix_true)%Exists_exists.
  apply list_elem_of_split in Hin as (l1 & l2 & ->).
  apply orb_true_iff. destruct l1 as [|x l1].
  - left. apply HasPrefix_true. destruct l2 as [|y l2].
    + by exists r.
    + change ([] ++ ?l) with l. rewrite Join_cons by done.
      exists (r ++ "/" ++ GoStrings.Join (y :: l2) "/").
      by rewrite <- !app_assoc.
  - right. apply Contains_true.
    change (?a ++ ?b :: l2) with (a ++ [b] ++ l2).
    rewrite app_assoc. destruct l2 as [|y l2].
    + rewrite app_nil_r, Join_snoc by done.
      by exists (GoStrings.Join (x :: l1) "/"), r.
    + rewrite Join_app by (done || by destruct l1).
      rewrite Join_snoc by done.
      exists (GoStrings.Join (x :: l1) "/"),
        (r ++ "/" ++ GoStrings.Join (y :: l2) "/").
      rewrite <- !app_assoc. done.
Qed.

(** What it means that [ShouldIgnore] does not ignore a path below the
    base directory. *)
Lemma not_ignored_inv (Match : str → str → bool) (f : GitignoreFilter)
    (names : list str) :
  Forall valid_name names → names ≠ [] →
  ShouldIgnore Match f (descend (basePath f) names) = false →
  Forall (λ n, HasPrefix n ".git" = false) names
  ∧ ∀ pattern, pattern ∈ patterns f →
               Match (TrimSuffix pattern "/")
                 (Base (descend (basePath f) names)) = false.
Proof.
  intros Hv Hne. unfold ShouldIgnore. rewrite Rel_descend by done.
  destruct (_ || _) eqn:Hgit; [done|]. intros Hex. split.
  - apply Forall_forall. intros n Hin.
    destruct (HasPrefix n ".git") eqn:Hp; [|done].
    rewrite git_prefix_ignored in Hgit; [done|].
    apply Exists_exists. by exists n.
  - intros pattern Hin.
    destruct (Match (TrimSuffix pattern "/") _) eqn:Hm; [|done].
    assert (existsb
              (pattern_ignores Match (GoStrings.Join names "/")
                 (Base (descend (basePath f) names))) (patterns f) = true)
      as Hex'; [|congruence].
    apply existsb_exists. exists pattern. split; [by apply list_elem_of_In|].
    unfold pattern_ignores. unfold TrimSuffix in *.
    destruct (HasSuffix pattern "/"); by rewrite Hm.
Qed.

(** X13: no node below the root of the tree has a name that a pattern
    of the filter matches, the trailing slash of a directory pattern
    removed: this holds of the patterns of the ignore file and of files as
    well as directories. *)
Theorem listed_names_match_no_pattern (Match : str → str → bool)
    (s : Config) (gitignore : option str) (root : fsobj) (tree : FileNode) :
  wf_fs root = true →
  structure_of (handleReadFileStructure Match s gitignore root) = Some tree →
  Forall (λ '(names, node),
            ∀ pattern,
              pattern ∈ patterns (NewGitignoreFilter (BasePath s) gitignore) →
              Match (TrimSuffix pattern "/") (Name node) = false)
    (descendants tree).
Proof.
  intros Hwf Hb%structure_of_built. apply Forall_forall. intros [names node] Hin.
  apply (descendants_built Match s _ root [] 0 tree names node Hwf
           (Forall_nil_2 _) Hb) in Hin as (obj & Hr & Hv & Hbn & _).
  simpl app in Hbn. rewrite (build_Name_Base _ _ _ _ _ _ _ Hbn).
  apply build_not_ignored in Hbn.
  apply (not_ignored_inv Match (NewGitignoreFilter (BasePath s) gitignore))
    in Hbn as [_ Hpat]; [done|done|].
  by eapply fs_reach_nonempty.
Qed.

(** X14: the test for the metadata directory is a test on the first
    bytes of names: no node of the tree is found at or below an entry
    whose name begins with [.git], such as [.gitignore] or [.github];
    such entries are hidden at any depth, whatever the ignore file
    says. *)
Theorem names_starting_with_git_are_hidden (Match : str → str → bool)
    (s : Config) (gitignore : option str) (root : fsobj) (tree : FileNode) :
  wf_fs root = true →
  structure_of (handleReadFileStructure Match s gitignore root) = Some tree →
  Forall (λ '(names, node),
            Forall (λ n, HasPrefix n ".git" = false) names
            ∧ HasPrefix (Name node) ".git" = false)
    (descendants tree).
Proof.
  intros Hwf Hb%structure_of_built. apply Forall_forall. intros [names node] Hin.
  apply (descendants_built Match s _ root [] 0 tree names node Hwf
           (Forall_nil_2 _) Hb) in Hin as (obj & Hr & Hv & Hbn & _).
  simpl app in Hbn. pose proof (fs_reach_nonempty _ _ _ Hr) as Hne.
  pose proof (build_Name_Base _ _ _ _ _ _ _ Hbn) as Hname.
  apply build_not_ignored in Hbn.
  apply (not_ignored_inv Match (NewGitignoreFilter (BasePath s) gitignore))
    in Hbn as [Hgit _]; [|done|done].
  split; [done|]. rewrite Hname.
  destruct names as [|n names _] using rev_ind; [done|].
  apply Forall_app in Hv as [Hv Hn]. inversion Hn; subst.
  rewrite Base_descend by done.
  apply Forall_app in Hgit as [_ Hg]. by inversion Hg.
Qed.

Lemma build_Path (Match : str → str → bool) (s : Config)
    (filter : GitignoreFilter) names depth obj node :
  Forall valid_name names →
  buildFileTreeWithFilter Match s (descend (BasePath s) names) depth filter obj
  = Ok (Some node) →
  Path node = GoStrings.Join names "/".
Proof.
  intros Hv Hb. destruct obj; simpl in Hb; case_match; simplify_eq; simpl;
    by apply relPath_descend.
Qed.

(** X15: the [path] of a node of the tree is accepted by the path
    validation of read_file_contents and resolves to the very path the
    node was built for, provided that none of the names that lead to the
    node has two dots in a row. *)
Theorem listed_paths_are_accepted (Match : str → str → bool)
    (s : Config) (gitignore : option str) (root : fsobj) (tree : FileNode) :
  wf_fs root = true →
  structure_of (handleReadFileStructure Match s gitignore root) = Some tree →
  Forall (λ '(names, node),
            Forall (λ n, Contains n ".." = false) names →
            validateFilePath s (Path node) = Ok (descend (BasePath s) names))
    (descendants tree).
Proof.
  intros Hwf Hb%structure_of_built. apply Forall_forall. intros [names node] Hin.
  apply (descendants_built Match s _ root [] 0 tree names node Hwf
           (Forall_nil_2 _) Hb) in Hin as (obj & Hr & Hv & Hbn & _).
  simpl app in Hbn. intros Hdots.
  rewrite (build_Path _ _ _ _ _ _ _ Hv Hbn).
  apply validateFilePath_accepts; [done| |done].
  by eapply fs_reach_nonempty.
Qed.

(** X9 on the file [src/main.go] of [project_fs]. *)
Lemma structure_lists_every_visible_entry_example :
  ∃ node,
    (["src" : str; "main.go" : str], node) ∈ descendants project_tree
    ∧ describes (RegularFile 900) node
    ∧ Path node = GoStrings.Join ["src" : str; "main.go" : str] "/".
Proof.
  apply (structure_lists_every_visible_entry literal_match srv_config
           (Some project_gitignore) project_fs project_tree
           ["src" : str; "main.go" : str] (RegularFile 900)).
  - reflexivity.
  - reflexivity.
  - apply (reach_deeper _ _
             (Directory [("debug.log" : str, RegularFile 7);
                         ("main.go" : str, RegularFile 900)])).
    + do 6 apply list_elem_of_further. apply list_elem_of_here.
    + apply reach_entry. apply list_elem_of_further, list_elem_of_here.
  - exact I.
  - intros k Hk. destruct k as [|[|[|k]]]; [lia|reflexivity|reflexivity|].
    simpl in Hk. lia.
Defined.

(** X10 on [project_fs]: [build] and [src/debug.log] are not listed. *)
Lemma structure_lists_nothing_ignored_example :
  Forall (λ '(names, node),
            visible literal_match
              (NewGitignoreFilter (BasePath srv_config) (Some project_gitignore))
              srv_config names)
    (descendants project_tree).
Proof.
  apply (structure_lists_nothing_ignored literal_match srv_config
           (Some project_gitignore) project_fs project_tree).
  - reflexivity.
  - reflexivity.
Defined.

(** X11 on [project_fs]. *)
Lemma children_follow_listing_example :
  (∀ entries, project_fs = Directory entries →
              sublist (Name <$> Children project_tree) entries.*1)
  ∧ Forall (λ '(names, node),
              ∃ obj, fs_reach project_fs names obj
                     ∧ match obj with
                       | Directory entries =>
                           sublist (Name <$> Children node) entries.*1
                       | _ => Children node = []
                       end)
      (descendants project_tree).
Proof.
  apply (children_follow_listing literal_match srv_config
           (Some project_gitignore) project_fs project_tree).
  - reflexivity.
  - reflexivity.
Defined.

(** X13 on [project_fs]. *)
Lemma listed_names_match_no_pattern_example :
  Forall (λ '(names, node),
            ∀ pattern,
              pattern ∈ patterns (NewGitignoreFilter (BasePath srv_config)
                                    (Some project_gitignore)) →
              literal_match (TrimSuffix pattern "/") (Name node) = false)
    (descendants project_tree).
Proof.
  apply (listed_names_match_no_pattern literal_match srv_config
           (Some project_gitignore) project_fs project_tree).
  - reflexivity.
  - reflexivity.
Defined.

(** X14 on [project_fs]: [.github], [.gitignore] and [docs/.gitkeep] are
    not listed. *)
Lemma names_starting_with_git_are_hidden_example :
  Forall (λ '(names, node),
            Forall (λ n, HasPrefix n ".git" = false) names
            ∧ HasPrefix (Name node) ".git" = false)
    (descendants project_tree).
Proof.
  apply (names_starting_with_git_are_hidden literal_match srv_config
           (Some project_gitignore) project_fs project_tree).
  - reflexivity.
  - reflexivity.
Defined.

(** X15 on [project_fs]. *)
Lemma listed_paths_are_accepted_example :
  Forall (λ '(names, node),
            Forall (λ n, Contains n ".." = false) names →
            validateFilePath srv_config (Path node)
            = Ok (descend (BasePath srv_config) names))
    (descendants project_tree).
Proof.
  apply (listed_paths_are_accepted literal_match srv_config
           (Some project_gitignore) project_fs project_tree).
  - reflexivity.
  - reflexivity.
Defined.

(** X12 on an ignore file with the line [srv], the name of the base
    directory [/srv]. *)
Lemma structure_outcome_at_base_example :
  handleReadFileStructure literal_match srv_config
    (Some ("srv" ++ [newline])) project_fs
  = NewToolResultText
      (StructurePayload (BasePath srv_config) None
         "Filtered out .git directory and .gitignore patterns").
Proof.
  apply (proj1 (structure_outcome_at_base literal_match srv_config
                  (Some ("srv" ++ [newline])) project_fs) "srv").
  - do 2 apply list_elem_of_further. apply list_elem_of_here.
  - reflexivity.
Defined.

(** * The ignore file: lines that are added *)

Lemma add_pattern_grows pats text (x : str) :
  x ∈ pats → x ∈ add_pattern pats text.
Proof.
  intros Hin. unfold add_pattern.
  destruct (_ || _); [done|].
  destruct (negb _); [|done]. apply elem_of_app. by left.
Qed.

Lemma foldl_add_pattern_grows (lines : list str) pats (x : str) :
  x ∈ pats → x ∈ foldl add_pattern pats lines.
Proof.
  revert pats. induction lines as [|l lines IH]; intros pats Hin; [done|].
  simpl. by apply IH, add_pattern_grows.
Qed.

(** What the scanner yields for a file is the start of what it yields when
    lines are added at its end. *)
Lemma scan_fields_extend (A B : list str) :
  B ≠ [] → ∃ l, scan_fields (A ++ B) = scan_fields (A ++ [[]]) ++ l.
Proof.
  intros HB. induction A as [|a A [l IH]].
  - by exists (scan_fields B).
  - change ((a :: A) ++ ?l) with (a :: (A ++ l)).
    rewrite !scan_fields_cons by (by destruct A).
    destruct (fits a); [|by exists []].
    exists l. by rewrite IH.
Qed.

Lemma patterns_extend base (data more x : str) :
  line_start data →
  x ∈ patterns (NewGitignoreFilter base (Some data)) →
  x ∈ patterns (NewGitignoreFilter base (Some (data ++ more))).
Proof.
  rewrite !patterns_of_file. intros [->|[pre ->]].
  - simpl. apply foldl_add_pattern_grows.
  - rewrite <- app_assoc, (Split_app_sep pre).
    change [newline] with ([newline] ++ []) at 1.
    rewrite (Split_app_sep pre).
    change (Split [] newline) with [[] : str].
    destruct (scan_fields_extend (Split pre newline) (Split more newline))
      as [l ->]; [apply Split_nonempty|].
    rewrite foldl_app. apply foldl_add_pattern_grows.
Qed.

(** A filter with more patterns ignores more. *)
Lemma ShouldIgnore_mono (Match : str → str → bool) (f g : GitignoreFilter)
    (path : str) :
  basePath f = basePath g → (∀ x, x ∈ patterns f → x ∈ patterns g) →
  ShouldIgnore Match f path = true → ShouldIgnore Match g path = true.
Proof.
  intros Hb Hsub. unfold ShouldIgnore. rewrite Hb.
  destruct (Rel (basePath g) path) as [rel|]; [|done].
  destruct (_ || _); [done|].
  rewrite !existsb_exists. intros (x & Hin & Hx). exists x.
  split; [|done]. apply list_elem_of_In, Hsub. by apply list_elem_of_In.
Qed.

(** X16: text added at the end of an ignore file that is empty or ends
    with a newline never takes a pattern away, so a path that
    [ShouldIgnore] ignores stays ignored.  (Text added before a line is
    another matter: the scanner stops at a line that does not fit its
    buffer, and the patterns after it are lost.) *)
Theorem appended_lines_never_unhide (Match : str → str → bool)
    (base data more path : str) :
  line_start data →
  (∀ x, x ∈ patterns (NewGitignoreFilter base (Some data)) →
        x ∈ patterns (NewGitignoreFilter base (Some (data ++ more))))
  ∧ (ShouldIgnore Match (NewGitignoreFilter base (Some data)) path = true →
     ShouldIgnore Match (NewGitignoreFilter base (Some (data ++ more))) path
     = true).
Proof.
  intros Hs. split.
  - intros x. by apply patterns_extend.
  - apply ShouldIgnore_mono; [done|]. intros x. by apply patterns_extend.
Qed.

Lemma HasSuffix_true (s suffix : str) :
  HasSuffix s suffix = true ↔ ∃ r, s = r ++ suffix.
Proof.
  unfold HasSuffix. rewrite HasPrefix_true. split.
  - intros [r Hr]. exists (reverse r).
    apply (f_equal reverse) in Hr.
    by rewrite reverse_involutive, reverse_app, reverse_involutive in Hr.
  - intros [r ->]. exists (reverse r). by rewrite reverse_app.
Qed.

Lemma TrimSuffix_app (s suffix : str) : TrimSuffix (s ++ suffix) suffix = s.
Proof.
  unfold TrimSuffix.
  rewrite (proj2 (HasSuffix_true (s ++ suffix) suffix)) by by exists s.
  rewrite length_app, Nat.add_sub. by rewrite take_app_length.
Qed.

(** X17: a directory pattern is looked for as a piece of text in the
    relative path: the pattern [dir/] makes [ShouldIgnore] ignore every
    path that goes through an entry whose name ends with [dir], whatever
    the glob matcher says, so that [build/] hides what is below
    [rebuild]. *)
Theorem directory_pattern_matches_name_endings (Match : str → str → bool)
    (f : GitignoreFilter) (dir d : str) (names1 names2 : list str) :
  dir ++ "/" ∈ patterns f →
  Forall valid_name (names1 ++ d :: names2) → names2 ≠ [] →
  HasSuffix d dir = true →
  ShouldIgnore Match f (descend (basePath f) (names1 ++ d :: names2)) = true.
Proof.
  intros Hin Hv Hne [x ->]%HasSuffix_true. unfold ShouldIgnore.
  rewrite Rel_descend by (done || by destruct names1).
  destruct (_ || _); [done|].
  apply existsb_exists. exists (dir ++ "/"). split; [by apply list_elem_of_In|].
  unfold pattern_ignores. rewrite TrimSuffix_app.
  rewrite (proj2 (HasSuffix_true (dir ++ "/") "/")) by by exists dir.
  apply orb_true_iff. right. apply Contains_true.
  destruct names2 as [|m names2]; [done|].
  change (names1 ++ (x ++ dir) :: m :: names2)
    with (names1 ++ [x ++ dir] ++ m :: names2).
  rewrite app_assoc, Join_app by (done || by destruct names1).
  destruct names1 as [|n names1].
  - exists x, (GoStrings.Join (m :: names2) "/").
    simpl app at 2. change (GoStrings.Join [?y] "/") with y.
    by rewrite <- !app_assoc.
  - rewrite (Join_snoc (n :: names1)) by done.
    exists (GoStrings.Join (n :: names1) "/" ++ "/" ++ x),
      (GoStrings.Join (m :: names2) "/").
    by rewrite <- !app_assoc.
Qed.

(** X16 on the ignore file [build/] to which the line [secret/] is
    added. *)
Lemma appended_lines_never_unhide_example :
  (∀ x, x ∈ patterns (NewGitignoreFilter srv (Some ("build/" ++ [newline]))) →
        x ∈ patterns (NewGitignoreFilter srv
                        (Some (("build/" ++ [newline])
                               ++ ("secret/" ++ [newline])))))
  ∧ (ShouldIgnore literal_match
       (NewGitignoreFilter srv (Some ("build/" ++ [newline])))
       "/srv/build/out.bin" = true →
     ShouldIgnore literal_match
       (NewGitignoreFilter srv
          (Some (("build/" ++ [newline]) ++ ("secret/" ++ [newline]))))
       "/srv/build/out.bin" = true).
Proof.
  apply (appended_lines_never_unhide literal_match srv ("build/" ++ [newline])
           ("secret/" ++ [newline]) "/srv/build/out.bin").
  right. by exists (list_ascii_of_string "build/").
Defined.

(** X17 on [project_fs]: the pattern [build/] hides [rebuild/plan.txt]. *)
Lemma directory_pattern_matches_name_endings_example :
  ShouldIgnore literal_match (NewGitignoreFilter srv (Some project_gitignore))
    "/srv/rebuild/plan.txt" = true.
Proof.
  apply (directory_pattern_matches_name_endings literal_match
           (NewGitignoreFilter srv (Some project_gitignore))
           "build" "rebuild" [] ["plan.txt" : str]).
  - do 2 apply list_elem_of_further. apply list_elem_of_here.
  - repeat constructor; apply (proj1 (is_name_valid _)); reflexivity.
  - discriminate.
  - reflexivity.
Defined.


(** * The ignore file: comments and empty lines *)

Section VisibleHead.

(** A byte of ASCII that is not a space. *)
Variable c : ascii.
Hypothesis c_ascii : (byteval c <? RuneSelf)%N = true.
Hypothesis c_visible : asciiSpace c = false.

Lemma visible_not_space : IsSpace (byteval c) = false.
Proof.
  pose proof c_visible as Hv. pose proof c_ascii as Ha.
  unfold asciiSpace in Hv. unfold IsSpace. unfold RuneSelf in Ha.
  apply N.ltb_lt in Ha.
  destruct (byteval c <=? 255)%N eqn:H255; [|apply N.leb_gt in H255; lia].
  apply orb_false_iff in Hv as [H1 H2].
  rewrite H1, H2. simpl.
  destruct (byteval c =? 133)%N eqn:H85; [apply N.eqb_eq in H85; lia|].
  destruct (byteval c =? 160)%N eqn:HA0; [apply N.eqb_eq in HA0; lia|].
  done.
Qed.

Lemma DecodeRune_visible (t : str) : DecodeRuneInString (c :: t) = (byteval c, 1).
Proof. unfold DecodeRuneInString. by rewrite c_ascii. Qed.

Lemma DecodeLast_visible (t : str) :
  1 ≤ (DecodeLastRuneInString (c :: t)).2
  ∧ (IsSpace (DecodeLastRuneInString (c :: t)).1 = false
     ∨ (DecodeLastRuneInString (c :: t)).2 < length (c :: t)).
Proof.
  unfold DecodeLastRuneInString.
  destruct (last (c :: t)) as [d|] eqn:Hl; [|by apply last_None in Hl].
  destruct (byteval d <? RuneSelf)%N eqn:Hd.
  - simpl. split; [lia|]. destruct t as [|e t]; [|right; simpl; lia].
    left. simpl in Hl. injection Hl as Hcd. subst d. apply visible_not_space.
  - pose proof (last_rune_start_lt (c :: t) ltac:(done)) as Hlt.
    destruct (DecodeRuneInString (drop (last_rune_start (c :: t)) (c :: t)))
      as [r size] eqn:Hdec.
    destruct (last_rune_start (c :: t) + size =? length (c :: t)) eqn:He.
    + apply Nat.eqb_eq in He. simpl fst. simpl snd. split; [lia|].
      destruct (last_rune_start (c :: t)) as [|k] eqn:Hk; [|right; lia].
      left. rewrite drop_0, DecodeRune_visible in Hdec.
      injection Hdec as Hr _. subst r. apply visible_not_space.
    + simpl. split; [lia|]. left. done.
Qed.

Lemma lastIndexNotSpace_visible (t : str) fuel :
  ∀ i, 1 ≤ i ≤ length (c :: t) → i ≤ fuel →
       ∃ j, lastIndexNotSpace fuel (c :: t) i = Some j ∧ j < i.
Proof.
  induction fuel as [|fuel IH]; intros i Hi Hf; [lia|].
  simpl lastIndexNotSpace.
  destruct (i =? 0) eqn:Hi0; [apply Nat.eqb_eq in Hi0; lia|].
  destruct i as [|i']; [lia|]. rewrite firstn_cons.
  pose proof (DecodeLast_visible (take i' t)) as [Hsz Hsp].
  destruct (DecodeLastRuneInString (c :: take i' t)) as [r size].
  simpl in Hsz, Hsp.
  destruct (IsSpace r) eqn:Hr.
  - destruct Hsp as [?|Hlt]; [done|].
    rewrite length_take in Hlt. simpl in Hi.
    destruct (IH (S i' - size)) as (j & Hj & Hlt'); [simpl; lia|lia|].
    exists j. split; [done|lia].
  - exists (S i' - size). split; [done|lia].
Qed.

Lemma take_head n (t : str) : 1 ≤ n → take n (c :: t) = c :: take (n - 1) t.
Proof. intros Hn. destruct n; [lia|]. simpl. by rewrite Nat.sub_0_r. Qed.

Lemma TrimRightSpace_visible (t : str) :
  ∃ rest, TrimRightSpace (c :: t) = c :: rest.
Proof.
  unfold TrimRightSpace.
  destruct (lastIndexNotSpace_visible t (length (c :: t)) (length (c :: t)))
    as (j & -> & Hj); [simpl; lia|lia|].
  destruct ((c :: t) !! j) as [d|] eqn:Hd.
  - destruct (RuneSelf <=? byteval d)%N eqn:Hrs.
    + destruct j as [|j].
      * simpl in Hd. injection Hd as Hcd. subst d. apply N.leb_le in Hrs.
        pose proof c_ascii as Ha. apply N.ltb_lt in Ha. lia.
      * eexists. apply take_head. lia.
    + eexists. apply take_head. lia.
  - eexists. apply take_head. lia.
Qed.

Lemma trim_right_ascii_visible (rs : str) :
  ∀ t, reverse rs = c :: t → ∃ rest, trim_right_ascii rs = c :: rest.
Proof.
  induction rs as [|d rs IH]; intros t Hrev; [done|].
  simpl trim_right_ascii.
  destruct (RuneSelf <=? byteval d)%N.
  { rewrite Hrev. apply TrimRightSpace_visible. }
  destruct (asciiSpace d) eqn:Hsp; [|by eexists].
  rewrite reverse_cons in Hrev.
  destruct (reverse rs) as [|e rrs] eqn:Hr.
  - simpl in Hrev. injection Hrev as Hdc _. subst d.
    pose proof c_visible. congruence.
  - simpl in Hrev. injection Hrev as He Ht. subst e.
    by apply (IH rrs).
Qed.

(** Trimming a string that begins with a byte of ASCII that is not a
    space keeps this byte at its start. *)
Lemma TrimSpace_visible (t : str) : ∃ rest, TrimSpace (c :: t) = c :: rest.
Proof.
  assert (TrimSpace (c :: t) = trim_right_ascii (reverse (c :: t))) as ->.
  { simpl TrimSpace. pose proof c_ascii as Ha. apply N.ltb_lt in Ha.
    destruct (RuneSelf <=? byteval c)%N eqn:H; [apply N.leb_le in H; lia|].
    by rewrite c_visible. }
  apply (trim_right_ascii_visible _ t). apply reverse_involutive.
Qed.

Lemma dropCR_visible (t : str) : ∃ rest, dropCR (c :: t) = c :: rest.
Proof.
  unfold dropCR. destruct (last (c :: t)) as [d|] eqn:Hl; [|by eexists].
  destruct (Ascii.eqb d "013") eqn:Hd; [|by eexists].
  destruct t as [|e t].
  - simpl in Hl. injection Hl as Hcd. subst d. apply ascii_eqb_true in Hd.
    pose proof c_visible as Hv. by rewrite Hd in Hv.
  - eexists. apply take_head. simpl. lia.
Qed.

End VisibleHead.

(** The loop of [NewGitignoreFilter] passes over a comment, with or
    without a carriage return at its end. *)
Lemma add_pattern_comment pats (line : str) :
  HasPrefix line "#" = true → add_pattern pats (dropCR line) = pats.
Proof.
  intros [t ->]%HasPrefix_true. change ("#" ++ t) with ("#"%char :: t).
  destruct (dropCR_visible "#" eq_refl t) as [t1 ->].
  destruct (TrimSpace_visible "#" eq_refl eq_refl t1) as [t2 Ht].
  unfold add_pattern. rewrite Ht. done.
Qed.

Lemma patterns_insert_skipped pats (A B : list str) line :
  B ≠ [] → fits line = true →
  (∀ pats, add_pattern pats (dropCR line) = pats) →
  foldl add_pattern pats (scan_fields (A ++ line :: B))
  = foldl add_pattern pats (scan_fields (A ++ B)).
Proof.
  intros HB Hfit Hskip. revert pats. induction A as [|a A IH]; intros pats.
  - simpl app. rewrite scan_fields_cons, Hfit by done. simpl.
    by rewrite Hskip.
  - change ((a :: A) ++ ?l) with (a :: (A ++ l)).
    rewrite !scan_fields_cons by (by destruct A).
    destruct (fits a); [|done]. simpl. apply IH.
Qed.

(** X18: an empty line and a line that begins with [#], shorter than
    the buffer of the scanner and added with its newline at the start of
    a line of the ignore file, change neither the patterns of the filter
    nor any answer of [ShouldIgnore]. *)
Theorem comment_and_empty_lines_are_inert (Match : str → str → bool)
    (base pre post line path : str) :
  line_start pre → newline ∉ line → fits line = true →
  line = [] ∨ HasPrefix line "#" = true →
  patterns (NewGitignoreFilter base (Some (pre ++ line ++ [newline] ++ post)))
  = patterns (NewGitignoreFilter base (Some (pre ++ post)))
  ∧ ShouldIgnore Match
      (NewGitignoreFilter base (Some (pre ++ line ++ [newline] ++ post))) path
    = ShouldIgnore Match (NewGitignoreFilter base (Some (pre ++ post))) path.
Proof.
  intros Hpre Hnl Hfit Hline.
  assert (patterns
            (NewGitignoreFilter base (Some (pre ++ line ++ [newline] ++ post)))
          = patterns (NewGitignoreFilter base (Some (pre ++ post)))) as Heq.
  { rewrite !patterns_of_file.
    destruct (Split_insert_line pre line post Hpre Hnl) as (A & -> & ->).
    apply patterns_insert_skipped; [apply Split_nonempty|done|].
    intros pats. destruct Hline as [->|Hc]; [done|].
    by apply add_pattern_comment. }
  split; [done|]. unfold ShouldIgnore. by rewrite Heq.
Qed.

(** X18 on the comment at the start of [project_gitignore]. *)
Lemma comment_and_empty_lines_are_inert_example :
  patterns (NewGitignoreFilter srv (Some project_gitignore))
  = patterns (NewGitignoreFilter srv
                (Some ("build/" ++ [newline] ++ "debug.log" ++ [newline])))
  ∧ ShouldIgnore literal_match (NewGitignoreFilter srv (Some project_gitignore))
      "/srv/src/debug.log"
    = ShouldIgnore literal_match
        (NewGitignoreFilter srv
           (Some ("build/" ++ [newline] ++ "debug.log" ++ [newline])))
        "/srv/src/debug.log".
Proof.
  apply (comment_and_empty_lines_are_inert literal_match srv []
           ("build/" ++ [newline] ++ "debug.log" ++ [newline])
           "# build products" "/srv/src/debug.log").
  - by left.
  - apply (proj1 (bool_decide_eq_false (newline ∈ ("# build products" : str)))).
    reflexivity.
  - reflexivity.
  - right. reflexivity.
Defined.

(** * Decimal numbers *)

Lemma parse_digits_acc (d : Decimal.uint) (acc : positive) :
  parse_digits (Z.pos acc) (list_ascii_of_string (NilEmpty.string_of_uint d))
  = Some (Z.pos (Pos.of_uint_acc d acc)).
Proof.
  revert acc. induction d; intros acc; [done|..];
    simpl; rewrite <- IHd; f_equal; lia.
Qed.

Lemma parse_digits_uint (d : Decimal.uint) :
  parse_digits 0 (list_ascii_of_string (NilEmpty.string_of_uint d))
  = Some (Z.of_N (Pos.of_uint d)).
Proof.
  induction d; [done|..]; simpl; try done;
    by rewrite <- parse_digits_acc.
Qed.

Lemma parse_digits_digits (s : str) acc v :
  parse_digits acc s = Some v → forallb is_digit s = true.
Proof.
  revert acc. induction s as [|c s IH]; intros acc; [done|]. simpl.
  destruct (is_digit c); [|done]. apply IH.
Qed.

Lemma to_uint_not_Nil p : Pos.to_uint p ≠ Decimal.Nil.
Proof.
  intros H. pose proof (DecimalPos.Unsigned.of_to p) as Hp.
  by rewrite H in Hp.
Qed.

(** The decimal digits that [Itoa] writes for a number that is not
    negative are read back by [parse_digits]. *)
Lemma parse_digits_Itoa (n : Z) :
  (0 ≤ n)%Z → Itoa n ≠ [] ∧ parse_digits 0 (Itoa n) = Some n.
Proof.
  intros Hn. unfold Itoa. destruct n as [|p|p]; [done| |lia].
  simpl. pose proof (to_uint_not_Nil p) as Hnil.
  assert (NilZero.string_of_uint (Pos.to_uint p)
          = NilEmpty.string_of_uint (Pos.to_uint p)) as ->.
  { by destruct (Pos.to_uint p). }
  rewrite parse_digits_uint, DecimalPos.Unsigned.of_to.
  split; [|done]. by destruct (Pos.to_uint p).
Qed.

Lemma Atoi_digits (ds : str) (v : Z) :
  ds ≠ [] → parse_digits 0 ds = Some v → (v ≤ 2 ^ 63 - 1)%Z → (0 ≤ v)%Z →
  Atoi ds = Some v.
Proof.
  intros Hne Hp Hmax Hmin. unfold Atoi.
  destruct ds as [|c ds]; [done|].
  pose proof (parse_digits_digits _ _ _ Hp) as Hd.
  simpl in Hd. apply andb_true_iff in Hd as [Hc _].
  assert (Ascii.eqb c "-" = false) as ->.
  { apply ascii_eqb_false. by intros ->. }
  assert (Ascii.eqb c "+" = false) as ->.
  { apply ascii_eqb_false. by intros ->. }
  rewrite Hp.
  assert ((- 2 ^ 63 <=? v)%Z && (v <=? 2 ^ 63 - 1)%Z = true) as ->; [|done].
  apply andb_true_iff. split; apply Z.leb_le; lia.
Qed.

(** [Atoi] reads back what [Itoa] writes: the round trip of [strconv], for
    the numbers of [int] that are not negative. *)
Lemma Atoi_Itoa (n : Z) : (0 ≤ n ≤ 2 ^ 63 - 1)%Z → Atoi (Itoa n) = Some n.
Proof.
  intros [Hmin Hmax]. destruct (parse_digits_Itoa n Hmin) as [Hne Hp].
  by apply Atoi_digits.
Qed.

(** * Lines of grep output *)

Lemma span_stop (p : ascii → bool) (a : str) (c : ascii) (rest : str) :
  forallb p a = true → p c = false → span p (a ++ c :: rest) = (a, c :: rest).
Proof.
  intros Ha Hc. induction a as [|x a IH]; simpl.
  - by rewrite Hc.
  - simpl in Ha. apply andb_true_iff in Ha as [-> Ha]. by rewrite IH.
Qed.

Lemma span_all (p : ascii → bool) (a : str) :
  forallb p a = true → span p a = (a, []).
Proof.
  intros Ha. induction a as [|x a IH]; [done|]. simpl.
  simpl in Ha. apply andb_true_iff in Ha as [-> Ha]. by rewrite IH.
Qed.

Lemma forallb_not_elem (c : ascii) (a : str) :
  c ∉ a → forallb (λ x, negb (Ascii.eqb x c)) a = true.
Proof.
  intros Hc. apply forallb_forall. intros x Hx%list_elem_of_In.
  apply negb_true_iff, ascii_eqb_false. by intros ->.
Qed.

(** The groups that the regular expression finds in a line written as
    grep writes the lines that match. *)
Lemma lineRegex_match_line (path content : str) (n : Z) :
  path ≠ [] → (":"%char ∉ path) → (0 ≤ n)%Z → (newline ∉ content) →
  lineRegex_FindStringSubmatch (grep_match_line path n content)
  = [grep_match_line path n content; path; Itoa n; ":" : str; content].
Proof.
  intros Hne Hcolon Hn Hnl. unfold lineRegex_FindStringSubmatch, grep_match_line.
  destruct (parse_digits_Itoa n Hn) as [Hi Hp].
  apply parse_digits_digits in Hp.
  change (path ++ ":" ++ ?x) with (path ++ ":"%char :: x).
  rewrite span_stop; [|by apply forallb_not_elem|done].
  destruct path as [|c path]; [done|].
  change (Itoa n ++ ":" ++ content) with (Itoa n ++ ":"%char :: content).
  rewrite span_stop by done.
  destruct (Itoa n) as [|d ds] eqn:HI; [done|].
  rewrite <- HI.
  change (Ascii.eqb ":" ":" || Ascii.eqb ":" "|" || Ascii.eqb ":" "-") with true.
  change newline with "010"%char in Hnl.
  by rewrite (forallb_not_elem _ _ Hnl).
Qed.

Lemma match_line_not_separator (path content : str) (n : Z) :
  grep_match_line path n content ≠ "--".
Proof.
  intros Heq.
  assert (":"%char ∈ grep_match_line path n content) as Hin.
  { unfold grep_match_line. apply elem_of_app. right. by left. }
  rewrite Heq in Hin.
  apply elem_of_cons in Hin as [?|Hin]; [done|].
  apply elem_of_cons in Hin as [?|Hin]; [done|].
  by apply elem_of_nil in Hin.
Qed.

(** X19: the loop of [parseGrepOutput] reads back a line written as
    grep writes the lines that match: for a file below the base directory
    whose path has no colon, a line number of the range of [int] that is
    not negative and a text without newline, [parse_line] adds to the
    lines recorded for the path relative to the base directory one line
    with this number and this text, marked as a match. *)
Theorem match_line_round_trip (s : Config) (m : gmap str (list GrepLine))
    (names : list str) (n : Z) (content : str) :
  Forall valid_name names → names ≠ [] →
  (":"%char ∉ descend (BasePath s) names) →
  (0 ≤ n ≤ 2 ^ 63 - 1)%Z →
  (newline ∉ content) →
  parse_line s m (grep_match_line (descend (BasePath s) names) n content)
  = <[GoStrings.Join names "/" :=
        default [] (m !! GoStrings.Join names "/")
        ++ [{| LineNumber := n; Content := content; IsMatch := true |}]]> m.
Proof.
  intros Hv Hne Hcolon Hn Hnl. unfold parse_line.
  rewrite decide_False by apply match_line_not_separator.
  rewrite lineRegex_match_line; [|..|done|lia|done].
  - rewrite Rel_descend by done. rewrite (Atoi_Itoa n Hn).
    by rewrite bool_decide_eq_true_2.
  - rewrite descend_render by done.
    apply render_normal_nonempty, normal_app_names. done.
Qed.

(** * Output in which nothing can be decoded *)

Lemma TrimLeftSpace_suffix (s : str) : ∀ skip, ∃ a, s = a ++ TrimLeftSpace skip s.
Proof.
  induction s as [|c s IH]; intros skip; [by exists []|].
  destruct skip as [|k].
  - change (TrimLeftSpace 0 (c :: s))
      with (let '(r, size) := DecodeRuneInString (c :: s) in
            if IsSpace r then TrimLeftSpace (size - 1) s else c :: s).
    destruct (DecodeRuneInString (c :: s)) as [r size].
    destruct (IsSpace r); [|by exists []].
    destruct (IH (size - 1)) as [a Ha]. exists (c :: a). simpl. by f_equal.
  - change (TrimLeftSpace (S k) (c :: s)) with (TrimLeftSpace k s).
    destruct (IH k) as [a Ha]. exists (c :: a). simpl. by f_equal.
Qed.

Lemma TrimRightSpace_prefix (s : str) : ∃ b, s = TrimRightSpace s ++ b.
Proof.
  unfold TrimRightSpace.
  destruct (lastIndexNotSpace _ _ _) as [i|]; [|by exists s].
  destruct (s !! i) as [c|]; [destruct (_ <=? _)%N|];
    eexists; symmetry; apply take_drop.
Qed.

Lemma trim_right_ascii_prefix (rs : str) :
  ∃ b, reverse rs = trim_right_ascii rs ++ b.
Proof.
  induction rs as [|c rs [b IH]]; [by exists []|].
  change (trim_right_ascii (c :: rs))
    with (if (RuneSelf <=? byteval c)%N then TrimRightSpace (reverse (c :: rs))
          else if asciiSpace c then trim_right_ascii rs
               else reverse (c :: rs)).
  destruct (_ <=? _)%N; [apply TrimRightSpace_prefix|].
  destruct (asciiSpace c); [|exists []; by rewrite app_nil_r].
  exists (b ++ [c]). by rewrite reverse_cons, IH, app_assoc.
Qed.

(** [TrimSpace] returns a part of its argument. *)
Lemma TrimSpace_infix (s : str) : ∃ a b, s = a ++ TrimSpace s ++ b.
Proof.
  induction s as [|c s (a & b & IH)]; [by exists [], []|].
  change (TrimSpace (c :: s))
    with (if (RuneSelf <=? byteval c)%N
          then TrimRightSpace (TrimLeftSpace 0 (c :: s))
          else if asciiSpace c then TrimSpace s
               else trim_right_ascii (reverse (c :: s))).
  destruct (_ <=? _)%N.
  - destruct (TrimLeftSpace_suffix (c :: s) 0) as [a' Ha].
    destruct (TrimRightSpace_prefix (TrimLeftSpace 0 (c :: s))) as [b' Hb].
    exists a', b'. by rewrite <- Hb.
  - destruct (asciiSpace c).
    + exists (c :: a), b. simpl. by f_equal.
    + destruct (trim_right_ascii_prefix (reverse (c :: s))) as [b' Hb].
      rewrite reverse_involutive in Hb. by exists [], b'.
Qed.

Lemma record_of_no_colon (s : Config) (line : str) :
  (":"%char ∉ line) → record_of s line = None.
Proof.
  intros Hc. unfold record_of. case_decide; [done|].
  unfold lineRegex_FindStringSubmatch.
  rewrite span_all by by apply forallb_not_elem.
  by destruct line.
Qed.

(** X20: an output of grep in which there is no colon gives no match at
    all: every line is passed over.  This is the case of the context
    lines of grep, which are written [path-number-text], when neither the
    path nor the text has a colon. *)
Theorem output_without_colon_gives_no_match (s : Config) (env : Env)
    (output : str) :
  range_permutes env → (":"%char ∉ output) →
  parseGrepOutput s env output = [].
Proof.
  intros Hperm Hc. unfold parseGrepOutput. destruct output as [|c output]; [done|].
  set (lines := Split (TrimSpace (c :: output)) "010").
  assert (foldl (parse_line s) ∅ lines = ∅) as ->.
  { assert (Forall (λ line, ":"%char ∉ line) lines) as Hlines.
    { apply Forall_forall. intros line Hin%elem_of_Split_Contains.
      apply Contains_true in Hin as (a & b & Heq).
      destruct (TrimSpace_infix (c :: output)) as (a' & b' & Hout).
      intros Hl. apply Hc. rewrite Hout, Heq.
      rewrite !elem_of_app. right. left. right. by left. }
    generalize (∅ : gmap str (list GrepLine)).
    induction Hlines as [|line lines' Hl _ IH]; intros m; [done|].
    simpl. rewrite parse_line_record, record_of_no_colon by done. apply IH. }
  specialize (Hperm ∅). rewrite map_to_list_empty in Hperm.
  apply Permutation_nil_r in Hperm. by rewrite Hperm.
Qed.

(** X19 on line 7 of [src/main.go]. *)
Lemma match_line_round_trip_example :
  parse_line srv_config ∅
    (grep_match_line (descend (BasePath srv_config) ["src" : str; "main.go" : str])
       7 "func main() {")
  = <[GoStrings.Join ["src" : str; "main.go" : str] "/" :=
        default [] ((∅ : gmap str (list GrepLine))
                    !! GoStrings.Join ["src" : str; "main.go" : str] "/")
        ++ [{| LineNumber := 7; Content := "func main() {";
               IsMatch := true |}]]> ∅.
Proof.
  apply (match_line_round_trip srv_config ∅ ["src" : str; "main.go" : str] 7
           "func main() {").
  - repeat constructor; apply (proj1 (is_name_valid _)); reflexivity.
  - discriminate.
  - apply (proj1 (bool_decide_eq_false
                    (":"%char ∈ descend (BasePath srv_config)
                                 ["src" : str; "main.go" : str]))).
    reflexivity.
  - lia.
  - apply (proj1 (bool_decide_eq_false (newline ∈ ("func main() {" : str)))).
    reflexivity.
Defined.

(** X20 on a context line of grep. *)
Lemma output_without_colon_gives_no_match_example :
  parseGrepOutput srv_config (quiet_os forward_range)
    ("/srv/src/main.go-6-import fmt" ++ [newline]) = [].
Proof.
  apply (output_without_colon_gives_no_match srv_config (quiet_os forward_range)
           ("/srv/src/main.go-6-import fmt" ++ [newline])).
  - intros m. reflexivity.
  - apply (proj1 (bool_decide_eq_false
                    (":"%char ∈ "/srv/src/main.go-6-import fmt" ++ [newline]))).
    reflexivity.
Defined.

(** * The lines that are decoded *)

Lemma span_fst_forallb (p : ascii → bool) (s a b : str) :
  span p s = (a, b) → forallb p a = true.
Proof.
  revert a b. induction s as [|c s IH]; intros a b; simpl.
  - by intros [= <- <-].
  - destruct (p c) eqn:Hc; [|by intros [= <- <-]].
    destruct (span p s) as [a' b']. intros [= <- <-]. simpl.
    rewrite Hc. by apply (IH a' b').
Qed.

Lemma parse_digits_nonneg (s : str) (acc v : Z) :
  (0 ≤ acc)%Z → parse_digits acc s = Some v → (0 ≤ v)%Z.
Proof.
  revert acc. induction s as [|c s IH]; intros acc Hacc; simpl.
  - by intros [= <-].
  - destruct (is_digit c) eqn:Hc; [|done]. apply IH.
    unfold is_digit in Hc. apply andb_true_iff in Hc as [H1 _].
    apply N.leb_le in H1. lia.
Qed.

(** A number that [Atoi] reads from decimal digits is a number of [int]
    that is not negative. *)
Lemma Atoi_digits_range (ds : str) (v : Z) :
  forallb is_digit ds = true → Atoi ds = Some v → (0 ≤ v ≤ 2 ^ 63 - 1)%Z.
Proof.
  intros Hd. unfold Atoi. destruct ds as [|c ds]; [done|].
  simpl in Hd. apply andb_true_iff in Hd as [Hc _].
  assert (Ascii.eqb c "-" = false) as ->.
  { apply ascii_eqb_false. by intros ->. }
  assert (Ascii.eqb c "+" = false) as ->.
  { apply ascii_eqb_false. by intros ->. }
  destruct (parse_digits 0 (c :: ds)) as [v'|] eqn:Hp; [|done].
  apply parse_digits_nonneg in Hp; [|done].
  destruct (_ && _) eqn:Hr; [|done]. intros [= <-].
  apply andb_true_iff in Hr as [_ Hmax]. apply Z.leb_le in Hmax. lia.
Qed.

(** What [parse_line] records for a line. *)
Lemma record_of_well_formed (s : Config) (line key : str) (gl : GrepLine) :
  record_of s line = Some (key, gl) →
  (0 ≤ LineNumber gl ≤ 2 ^ 63 - 1)%Z ∧ (newline ∉ Content gl).
Proof.
  unfold record_of. case_decide; [done|].
  unfold lineRegex_FindStringSubmatch.
  destruct (span _ line) as [g1 r1].
  destruct g1 as [|c1 g1]; [done|]. destruct r1 as [|colon r2]; [done|].
  destruct (span is_digit r2) as [g2 r3] eqn:Hspan.
  apply span_fst_forallb in Hspan.
  destruct g2 as [|d g2]; [done|]. destruct r3 as [|sep g4]; [done|].
  destruct (_ && _) eqn:Hclass; [|done].
  apply andb_true_iff in Hclass as [_ Hnl].
  destruct (Atoi (d :: g2)) as [v|] eqn:Hatoi; [|done].
  intros [= <- <-]. simpl. split; [by eapply Atoi_digits_range|].
  intros Hin. rewrite forallb_forall in Hnl.
  specialize (Hnl newline (proj1 (list_elem_of_In _ _) Hin)). done.
Qed.

(** X21: every group that [parseGrepOutput] returns has at least one
    line, and every line in it has a line number of the range of [int]
    that is not negative and a text without newline: a line of output
    whose number does not fit [int] is passed over. *)
Theorem decoded_lines_are_well_formed (s : Config) (env : Env) (output : str) :
  range_permutes env →
  Forall (λ g,
            Lines g ≠ []
            ∧ Forall (λ l, (0 ≤ LineNumber l ≤ 2 ^ 63 - 1)%Z
                           ∧ (newline ∉ Content l)) (Lines g))
    (parseGrepOutput s env output).
Proof.
  intros Hperm. unfold parseGrepOutput.
  destruct output as [|c output]; [constructor|].
  set (lines := Split (TrimSpace (c :: output)) "010").
  apply Forall_fmap, Forall_forall. intros [key ls] Hin.
  rewrite (Hperm _) in Hin. apply elem_of_map_to_list in Hin.
  rewrite parse_lines_lookup in Hin. simpl.
  destruct (lines_of (omap (record_of s) lines) key) as [|l ls'] eqn:Hls;
    [done|]. injection Hin as <-. split; [done|].
  rewrite <- Hls. apply Forall_forall. intros gl Hgl.
  unfold lines_of in Hgl.
  apply list_elem_of_fmap in Hgl as ([k gl'] & -> & Hgl).
  apply list_elem_of_filter in Hgl as [_ Hgl].
  apply list_elem_of_omap in Hgl as (line & _ & Hrec).
  by eapply record_of_well_formed.
Qed.

(** X21 on the output for a pattern found in two files. *)
Lemma decoded_lines_are_well_formed_example :
  Forall (λ g,
            Lines g ≠ []
            ∧ Forall (λ l, (0 ≤ LineNumber l ≤ 2 ^ 63 - 1)%Z
                           ∧ (newline ∉ Content l)) (Lines g))
    (parseGrepOutput srv_config (quiet_os forward_range) two_files_output).
Proof.
  apply (decoded_lines_are_well_formed srv_config (quiet_os forward_range)
           two_files_output).
  intros m. reflexivity.
Defined.

(** * Whole outputs of grep *)

(** Trimming takes the newline at the end of a string, and nothing else,
    when the string begins and ends with bytes of ASCII that are not
    spaces. *)
Lemma TrimSpace_line (c d : ascii) (mid : str) :
  visible_byte c = true → visible_byte d = true →
  TrimSpace (c :: mid ++ [d] ++ [newline]) = c :: mid ++ [d].
Proof.
  intros [Hc1 Hc2]%andb_true_iff [Hd1 Hd2]%andb_true_iff.
  apply negb_true_iff in Hc2, Hd2.
  apply N.ltb_lt in Hc1, Hd1.
  assert (∀ x, (byteval x < RuneSelf)%N → (RuneSelf <=? byteval x)%N = false)
    as Hlow.
  { intros x Hx. apply N.leb_gt. lia. }
  change (TrimSpace (c :: ?t))
    with (if (RuneSelf <=? byteval c)%N
          then TrimRightSpace (TrimLeftSpace 0%nat (c :: t))
          else if asciiSpace c then TrimSpace t
               else trim_right_ascii (reverse (c :: t))).
  rewrite (Hlow c Hc1), Hc2.
  rewrite app_comm_cons, app_assoc, reverse_snoc.
  change (trim_right_ascii (newline :: ?rs)) with (trim_right_ascii rs).
  rewrite reverse_snoc.
  change (trim_right_ascii (d :: ?rs))
    with (if (RuneSelf <=? byteval d)%N then TrimRightSpace (reverse (d :: rs))
          else if asciiSpace d then trim_right_ascii rs
               else reverse (d :: rs)).
  rewrite (Hlow d Hd1), Hd2.
  by rewrite reverse_cons, reverse_involutive.
Qed.

Lemma TrimSpace_visible_ends (X : str) (c d : ascii) :
  head X = Some c → last X = Some d →
  visible_byte c = true → visible_byte d = true →
  TrimSpace (X ++ [newline]) = X.
Proof.
  intros Hhead Hlast Hc Hd.
  destruct X as [|d' Y _] using rev_ind; [done|].
  rewrite last_snoc in Hlast. injection Hlast as ->.
  destruct Y as [|c'' mid].
  - simpl in Hhead. injection Hhead as ->.
    apply andb_true_iff in Hc as [Hc1 Hc2].
    apply negb_true_iff in Hc2. apply N.ltb_lt in Hc1.
    assert ((RuneSelf <=? byteval c)%N = false) as Hr.
    { apply N.leb_gt. lia. }
    change (TrimSpace _)
      with (if (RuneSelf <=? byteval c)%N
            then TrimRightSpace (TrimLeftSpace 0%nat [c; newline])
            else if asciiSpace c then TrimSpace [newline]
                 else trim_right_ascii (reverse [c; newline])).
    rewrite Hr, Hc2.
    change (trim_right_ascii (reverse [c; newline]))
      with (if (RuneSelf <=? byteval c)%N then TrimRightSpace (reverse [c])
            else if asciiSpace c then trim_right_ascii []
                 else reverse [c]).
    by rewrite Hr, Hc2.
  - simpl in Hhead. injection Hhead as ->.
    rewrite <- app_assoc. by apply TrimSpace_line.
Qed.

Lemma concat_lines (lines : list str) :
  lines ≠ [] →
  concat ((λ l, l ++ [newline]) <$> lines)
  = GoStrings.Join lines [newline] ++ [newline].
Proof.
  induction lines as [|l lines IH]; [done|]. intros _.
  destruct lines as [|l' lines].
  - simpl. by rewrite app_nil_r.
  - rewrite fmap_cons, concat_cons, IH by done.
    rewrite (Join_cons l) by done. by rewrite <- !app_assoc.
Qed.

Lemma head_Join (l : str) (lines : list str) sep (c : ascii) :
  head l = Some c → head (GoStrings.Join (l :: lines) sep) = Some c.
Proof.
  intros Hl. destruct l as [|c' l]; [done|]. by rewrite Join_cons_head.
Qed.

Lemma last_Join (lines : list str) (l : str) sep (d : ascii) :
  last l = Some d → last (GoStrings.Join (lines ++ [l]) sep) = Some d.
Proof.
  intros Hl. destruct lines as [|l' lines]; [done|].
  rewrite Join_snoc by done.
  destruct l as [|d' l _] using rev_ind; [done|].
  rewrite last_snoc in Hl. injection Hl as ->.
  by rewrite !app_assoc, last_snoc.
Qed.

Lemma Itoa_no_newline (n : Z) : (0 ≤ n)%Z → newline ∉ Itoa n.
Proof.
  intros Hn Hin. destruct (parse_digits_Itoa n Hn) as [_ Hp].
  apply parse_digits_digits in Hp. rewrite forallb_forall in Hp.
  specialize (Hp newline (proj1 (list_elem_of_In _ _) Hin)). done.
Qed.

(** What is recorded for a line written as grep writes the lines that
    match. *)
Lemma record_of_match_line (s : Config) (r : MatchRecord) :
  well_formed_record s r → record_of s (record_line s r) = Some (expected_record r).
Proof.
  destruct r as [[names n] content]. intros (Hv & Hne & Hcolon & _ & Hn & Hnl).
  unfold record_of, record_line, expected_record.
  rewrite decide_False by apply match_line_not_separator.
  rewrite lineRegex_match_line; [|..|done|lia|done].
  - rewrite Rel_descend by done. rewrite (Atoi_Itoa n Hn).
    by rewrite bool_decide_eq_true_2.
  - rewrite descend_render by done.
    apply render_normal_nonempty, normal_app_names. done.
Qed.

Lemma record_line_no_newline (s : Config) (r : MatchRecord) :
  well_formed_record s r → newline ∉ record_line s r.
Proof.
  destruct r as [[names n] content]. intros (_ & _ & _ & Hpath & Hn & Hnl).
  unfold record_line, grep_match_line. rewrite !elem_of_app.
  intros [?|[Hc|[Hi|[Hc|?]]]]; try done.
  - by apply list_elem_of_singleton in Hc.
  - by apply (Itoa_no_newline n) in Hi; [|lia].
  - by apply list_elem_of_singleton in Hc.
Qed.

Lemma visible_slash : visible_byte "/" = true.
Proof. done. Qed.

Lemma head_record_line (s : Config) (r : MatchRecord) :
  IsAbs (BasePath s) = true → well_formed_record s r →
  head (record_line s r) = Some "/"%char.
Proof.
  destruct r as [[names n] content]. intros Habs (Hv & Hne & _).
  unfold record_line, grep_match_line.
  rewrite descend_render by done.
  unfold IsAbs in Habs. rewrite norm_rooted, Habs.
  by destruct (_ ++ names).
Qed.

Lemma last_record_line (s : Config) (names : list str) (n : Z) (content : str) :
  ends_visible content →
  ∃ d, last (record_line s (names, n, content)) = Some d
       ∧ visible_byte d = true.
Proof.
  unfold ends_visible, record_line, grep_match_line. intros Hend.
  destruct content as [|d content _] using rev_ind.
  - exists ":"%char. split; [|done].
    rewrite app_nil_r, !app_assoc. apply last_snoc.
  - rewrite last_snoc in Hend. exists d. split; [|done].
    rewrite !app_assoc. apply last_snoc.
Qed.

Lemma omap_record_lines (s : Config) (recs : list MatchRecord) :
  Forall (well_formed_record s) recs →
  omap (record_of s) (record_line s <$> recs) = expected_record <$> recs.
Proof.
  induction 1 as [|r rs Hr Hrs IH]; [done|].
  rewrite !fmap_cons.
  change (omap (record_of s) (?x :: ?l))
    with (match record_of s x with
          | Some y => y :: omap (record_of s) l
          | None => omap (record_of s) l
          end).
  by rewrite record_of_match_line, IH.
Qed.

(** The lines that the loop of [parseGrepOutput] goes through, and what
    it records for them, on the output of grep for lines that match. *)
Lemma grep_output_records (s : Config) (recs : list MatchRecord)
    (names : list str) (n : Z) (content : str) :
  IsAbs (BasePath s) = true →
  Forall (well_formed_record s) (recs ++ [(names, n, content)]) →
  ends_visible content →
  grep_output s (recs ++ [(names, n, content)]) ≠ []
  ∧ omap (record_of s)
      (Split (TrimSpace (grep_output s (recs ++ [(names, n, content)]))) newline)
    = expected_record <$> recs ++ [(names, n, content)].
Proof.
  intros Habs Hwf Hend.
  set (all := recs ++ [(names, n, content)]) in *.
  assert (all ≠ []) as Hall by (subst all; by destruct recs).
  unfold grep_output.
  rewrite (list_fmap_compose (record_line s) (λ l, l ++ [newline])).
  rewrite concat_lines by (by destruct all).
  split; [by destruct (GoStrings.Join _ _)|].
  rewrite (TrimSpace_visible_ends _ "/" (default "/"%char
             (last (record_line s (names, n, content))))).
  - rewrite Split_Join.
    + by apply omap_record_lines.
    + by destruct all.
    + apply Forall_fmap. eapply Forall_impl; [exact Hwf|].
      intros r Hr. by apply record_line_no_newline.
  - destruct all as [|r rs] eqn:Hr; [done|]. rewrite fmap_cons.
    apply head_Join, head_record_line; [done|]. by inversion Hwf.
  - subst all. rewrite fmap_app. simpl fmap.
    destruct (last_record_line s names n content Hend) as (d & Hd & _).
    rewrite Hd. by apply last_Join.
  - done.
  - by destruct (last_record_line s names n content Hend) as (d & -> & Hd).
Qed.

(** X22: [parseGrepOutput] decodes the output that grep writes for lines
    that match.  With an absolute base path, for files below the base
    directory whose paths have neither colon nor newline, line numbers of
    the range of [int] that are not negative and texts without newline,
    the last of which does not end with a space nor with a byte that is
    not ASCII: the result has a group for a file exactly when a line of
    the output is for this file, under its path relative to the base
    directory, and the group holds the lines of this file, each with its
    number and its text and marked as a match, in the order of the
    output. *)
Theorem match_output_is_decoded (s : Config) (env : Env)
    (recs : list MatchRecord) (names : list str) (n : Z) (content : str) :
  range_permutes env → IsAbs (BasePath s) = true →
  Forall (well_formed_record s) (recs ++ [(names, n, content)]) →
  ends_visible content →
  ∀ g, g ∈ parseGrepOutput s env (grep_output s (recs ++ [(names, n, content)]))
       ↔ FilePath g ∈ (expected_record <$> recs ++ [(names, n, content)]).*1
         ∧ Lines g
           = lines_of (expected_record <$> recs ++ [(names, n, content)])
               (FilePath g).
Proof.
  intros Hperm Habs Hwf Hend g.
  destruct (grep_output_records s recs names n content Habs Hwf Hend)
    as [Hne Hrecs].
  set (all := recs ++ [(names, n, content)]) in *.
  unfold parseGrepOutput.
  destruct (grep_output s all) as [|c out] eqn:Hout; [done|].
  change (Split ?t "010") with (Split t newline).
  rewrite list_elem_of_fmap. split.
  - intros ([k v] & -> & Hin). simpl.
    rewrite (Hperm _) in Hin. apply elem_of_map_to_list in Hin.
    rewrite parse_lines_lookup, Hrecs in Hin.
    destruct (lines_of (expected_record <$> all) k) as [|l ls] eqn:Hls; [done|].
    injection Hin as <-. split; [|done].
    destruct (decide (k ∈ (expected_record <$> all).*1)) as [|Hk]; [done|].
    apply lines_of_nil_iff in Hk. congruence.
  - intros [Hk Hl]. exists (FilePath g, Lines g).
    split; [by destruct g|].
    rewrite (Hperm _). apply elem_of_map_to_list.
    rewrite parse_lines_lookup, Hrecs, Hl.
    destruct (lines_of (expected_record <$> all) (FilePath g)) as [|l ls] eqn:Hls;
      [|done].
    apply lines_of_nil_iff in Hls. contradiction.
Qed.

(** X22 on the output for a pattern found in two files: the group of
    [a.txt]. *)
Lemma match_output_is_decoded_example :
  {| FilePath := "a.txt";
     Lines := [{| LineNumber := 3; Content := "alpha"; IsMatch := true |}] |}
  ∈ parseGrepOutput srv_config (quiet_os forward_range)
      (grep_output srv_config
         ([(["b.txt" : str], 1%Z, "alpha" : str)]
          ++ [(["a.txt" : str], 3%Z, "alpha" : str)])).
Proof.
  refine (proj2 (match_output_is_decoded srv_config (quiet_os forward_range)
                   [(["b.txt" : str], 1%Z, "alpha" : str)]
                   ["a.txt" : str] 3 "alpha" _ _ _ _ _) _).
  - intros m. reflexivity.
  - reflexivity.
  - repeat constructor;
      try (apply (proj1 (is_name_valid _)); reflexivity);
      try discriminate; try lia;
      apply (proj1 (bool_decide_eq_false _)); reflexivity.
  - reflexivity.
  - split; [|reflexivity].
    apply list_elem_of_further, list_elem_of_here.
Defined.
